(** * tripsplit-web: the balance and settlement engine of [src/App.tsx]

    The engine is two pure functions, [computeBalances] and
    [computeSettlements], together with the helper [roundToCents].  They
    compute on JavaScript [number]s.  The embedding below is written once,
    over an interface [JsNumber] listing the operations on numbers that the
    source uses, and the interface is instantiated twice:

    - [binary64]: IEEE 754 double precision (primitive floats), the numbers
      the program really runs on, with [Math.round], [Math.min] and
      truthiness written out after ECMAScript;
    - [exact]: the rationals, i.e. the same operations without rounding
      error, which is the reading of the statements that hold "up to
      floating-point error".

    What is stated of the program is proved for any such numbers or on
    [binary64]; the rationals carry only what the specification reads up
    to rounding, beside the statement on [binary64] that it belongs to.

    Identifiers are assumed not to be names inherited from
    [Object.prototype] (ids are produced by [createId] and contain a dash),
    so that [k in balances] is a lookup in the object's own keys.

    The [while] loop of [computeSettlements] is run with fuel, a bound on
    the number of iterations: the function returns [result] when
    [computeSettlements fuel rows = Some result] for some [fuel], and then
    for every larger one.

    The helpers around the engine follow it: [normalizeTitle], the CSV
    writer and the export of a group, the amounts of a custom split, the
    payload of an expense, the expense that the form builds and the values
    that enable its button, and the totals shown beside the balances.  A
    string is the sequence of its characters, each a code unit from 0 to
    255.  Three conversions between numbers and texts are built into the
    language and are not written out, [Number(s)], [String(x)] and
    [x.toFixed(2)]: they are variables of the sections that use them, and
    what is proved holds whatever they return. *)

From Stdlib Require Import ZArith QArith Qcanon Qround Floats Lia Lqa Ascii.
From stdpp Require Import gmap strings list fin_maps pretty.

Set Default Proof Using "Type".
Set Warnings "-clear-no-such-hyp,-inexact-float".

(** ** Numbers *)

Class JsNumber := {
  num : Type;
  n_zero : num;                       (* the literal 0 *)
  n_one : num;                        (* the literal 1 *)
  n_hundred : num;                    (* the literal 100 *)
  n_cent : num;                       (* the literal 0.01 *)
  n_add : num → num → num;            (* a + b *)
  n_sub : num → num → num;            (* a - b *)
  n_mul : num → num → num;            (* a * b *)
  n_div : num → num → num;            (* a / b *)
  n_ltb : num → num → bool;           (* a < b *)
  n_leb : num → num → bool;           (* a <= b *)
  n_abs : num → num;                  (* Math.abs *)
  n_min : num → num → num;            (* Math.min *)
  n_round : num → num;                (* Math.round *)
  n_truthy : num → bool;              (* ToBoolean *)
  n_of_length : nat → num             (* an array length as a number *)
}.

(** *** IEEE 754 binary64 *)

Module F64.

(** The integer [k], of magnitude at most 2^53, as a float; [neg] is the
    sign given to a zero result. *)
Definition of_Z (neg : bool) (k : Z) : float :=
  match k with
  | Z0 => if neg then (-0)%float else 0%float
  | Zpos p => PrimFloat.of_uint63 (Uint63.of_Z (Zpos p))
  | Zneg p => PrimFloat.opp (PrimFloat.of_uint63 (Uint63.of_Z (Zpos p)))
  end.

(** [Math.round]: a number that is not finite, or is integral, is
    returned as it is; otherwise the result is [floor (x + 1/2)] computed
    exactly (ties go towards +∞), and a zero result keeps the sign of
    [x].  The float [x] is [± m * 2^e]. *)
Definition round (x : float) : float :=
  match Prim2SF x with
  | S754_finite s m e =>
      if (0 <=? e)%Z then x
      else
        let sm := if s then Zneg m else Zpos m in
        of_Z s (Z.shiftr (2 * sm + 2 ^ (- e)) (- e + 1))
  | _ => x
  end.

(** [Math.min] of two numbers: NaN if either is NaN, and -0 is smaller
    than +0. *)
Definition min (a b : float) : float :=
  if (PrimFloat.is_nan a || PrimFloat.is_nan b)%bool then nan
  else if (a <? b)%float then a
  else if (b <? a)%float then b
  else if PrimFloat.get_sign a then a else b.

(** [ToBoolean]: false on +0, -0 and NaN. *)
Definition truthy (x : float) : bool :=
  negb (PrimFloat.is_nan x || (x =? 0)%float)%bool.

End F64.

Definition binary64 : JsNumber := {|
  num := float;
  n_zero := 0%float;
  n_one := 1%float;
  n_hundred := 100%float;
  n_cent := 0x1.47ae147ae147bp-7%float;
  n_add := PrimFloat.add;
  n_sub := PrimFloat.sub;
  n_mul := PrimFloat.mul;
  n_div := PrimFloat.div;
  n_ltb := PrimFloat.ltb;
  n_leb := PrimFloat.leb;
  n_abs := PrimFloat.abs;
  n_min := F64.min;
  n_round := F64.round;
  n_truthy := F64.truthy;
  n_of_length := λ n, PrimFloat.of_uint63 (Uint63.of_Z (Z.of_nat n))
|}.

(** *** Exact arithmetic *)

Module Exact.

Definition of_Z (k : Z) : Qc := Q2Qc (inject_Z k).

Definition ltb (a b : Qc) : bool := bool_decide (a < b)%Qc.
Definition leb (a b : Qc) : bool := bool_decide (a ≤ b)%Qc.

Definition abs (a : Qc) : Qc := if ltb a 0 then (- a)%Qc else a.

Definition min (a b : Qc) : Qc := if ltb b a then b else a.

(** [floor (x + 1/2)]. *)
Definition round (a : Qc) : Qc := of_Z (Qfloor (a + Q2Qc (1 # 2))%Qc).

(** [k] cents, and the amounts that are a whole number of cents and not
    negative. *)
Definition centsQ (k : Z) : Qc := (of_Z k / of_Z 100)%Qc.

Definition cents (q : Qc) : Prop := ∃ k : Z, (0 ≤ k)%Z ∧ q = centsQ k.

End Exact.

Definition exact : JsNumber := {|
  num := Qc;
  n_zero := 0%Qc;
  n_one := 1%Qc;
  n_hundred := Exact.of_Z 100;
  n_cent := Q2Qc (1 # 100);
  n_add := Qcplus;
  n_sub := Qcminus;
  n_mul := Qcmult;
  n_div := Qcdiv;
  n_ltb := Exact.ltb;
  n_leb := Exact.leb;
  n_abs := Exact.abs;
  n_min := Exact.min;
  n_round := Exact.round;
  n_truthy := λ a, negb (bool_decide (a = 0%Qc));
  n_of_length := λ n, Exact.of_Z (Z.of_nat n)
|}.

(** ** Data model *)

Record Member := { member_id : string; member_name : string }.

Inductive SplitMode := equal | custom.

Global Instance SplitMode_eq_dec : EqDecision SplitMode.
Proof. solve_decision. Defined.

Global Instance Member_eq_dec : EqDecision Member.
Proof. solve_decision. Defined.

Section Engine.
Context {N : JsNumber}.

(** The fields of [Expense] that the engine reads.  [splitMode] and
    [splitAmounts] are optional in the source; [splitAmounts] is an object
    used as a map from member id to amount. *)
Record Expense := {
  expense_id : string;
  title : string;
  amount : num;
  paidBy : string;
  splitBetween : list string;
  splitMode : option SplitMode;
  splitAmounts : option (gmap string num)
}.

(** The fields of [Group] that the engine reads, with its id and name. *)
Record Group := {
  group_id : string;
  group_name : string;
  members : list Member;
  expenses : list Expense
}.

Record BalanceRow := { member : Member; balance : num }.

(** [settled] is the field [amount] of the source's [Settlement]. *)
Record Settlement := { from : Member; to : Member; settled : num }.

(** ** roundToCents *)

Definition roundToCents (value : num) : num :=
  n_div (n_round (n_mul value n_hundred)) n_hundred.

(** ** computeBalances *)

(** [if (!(k in balances)) balances[k] = 0]. *)
Definition track (k : string) (balances : gmap string num) : gmap string num :=
  match balances !! k with
  | Some _ => balances
  | None => <[k := n_zero]> balances
  end.

(** [balances[k] += a]; the key is present wherever the source does this. *)
Definition credit (k : string) (a : num) (balances : gmap string num)
  : gmap string num :=
  alter (λ v, n_add v a) k balances.

(** [balances[k] -= a], after the key has been initialised on demand. *)
Definition debit (k : string) (a : num) (balances : gmap string num)
  : gmap string num :=
  alter (λ v, n_sub v a) k (track k balances).

Definition hasCustomSplit (expense : Expense) : bool :=
  (bool_decide (splitMode expense = Some custom)
   || bool_decide (is_Some (splitAmounts expense)))
  && match splitAmounts expense with
     | Some sa => bool_decide (0 < size sa)
     | None => false
     end.

Definition splitMembers (expense : Expense) : list string :=
  if bool_decide (0 < length (splitBetween expense))
  then splitBetween expense
  else [paidBy expense].

(** [splitMembers.length || 1]. *)
Definition splitCount (expense : Expense) : num :=
  match length (splitMembers expense) with
  | O => n_one
  | S n => n_of_length (S n)
  end.

Definition share (expense : Expense) : num :=
  n_div (amount expense) (splitCount expense).

(** The body of the loop over [group.expenses]. *)
Definition applyExpense (balances : gmap string num) (expense : Expense)
  : gmap string num :=
  if bool_decide (paidBy expense = "") then balances
  else
    let balances := credit (paidBy expense) (amount expense)
                      (track (paidBy expense) balances) in
    match hasCustomSplit expense, splitAmounts expense with
    | true, Some sa =>
        map_fold (λ memberId a acc, debit memberId a acc) balances sa
    | _, _ =>
        foldl (λ acc memberId, debit memberId (share expense) acc)
          balances (splitMembers expense)
    end.

Definition initialBalances (ms : list Member) : gmap string num :=
  foldl (λ acc m, <[member_id m := n_zero]> acc) ∅ ms.

(** The object [balances] after the loop over the expenses. *)
Definition finalBalances (group : Group) : gmap string num :=
  foldl applyExpense (initialBalances (members group)) (expenses group).

(** [balances[k] || 0]. *)
Definition orZero (v : option num) : num :=
  match v with
  | Some x => if n_truthy x then x else n_zero
  | None => n_zero
  end.

Definition computeBalances (group : Group) : list BalanceRow :=
  let balances := finalBalances group in
  map (λ m, {| member := m; balance := orZero (balances !! member_id m) |})
    (members group).

(** ** computeSettlements *)

(** An element of [creditors] or [debtors]: the source's object
    [{member, amount}], with [party] for [member] and [owed] for [amount]. *)
Record Party := { party : Member; owed : num }.

Definition creditorsOf (balanceRows : list BalanceRow) : list Party :=
  map (λ row, {| party := member row; owed := roundToCents (balance row) |})
    (filter (λ row, n_ltb n_zero (balance row) = true) balanceRows).

Definition debtorsOf (balanceRows : list BalanceRow) : list Party :=
  map (λ row, {| party := member row;
                 owed := roundToCents (n_abs (balance row)) |})
    (filter (λ row, n_ltb (balance row) n_zero = true) balanceRows).

(** The variables of the matching loop. *)
Record Loop := {
  debtors : list Party;
  creditors : list Party;
  debtorIndex : nat;
  creditorIndex : nat;
  settlements : list Settlement
}.

(** One iteration of the [while] loop; [None] when the loop condition
    [debtorIndex < debtors.length && creditorIndex < creditors.length]
    is false. *)
Definition iteration (st : Loop) : option Loop :=
  match debtors st !! debtorIndex st, creditors st !! creditorIndex st with
  | Some debtor, Some creditor =>
      let payment := n_min (owed debtor) (owed creditor) in
      let settlements' :=
        if n_ltb n_zero payment
        then settlements st ++
             [{| from := party debtor; to := party creditor;
                 settled := payment |}]
        else settlements st in
      let debtor' :=
        {| party := party debtor;
           owed := roundToCents (n_sub (owed debtor) payment) |} in
      let creditor' :=
        {| party := party creditor;
           owed := roundToCents (n_sub (owed creditor) payment) |} in
      Some {|
        debtors := <[debtorIndex st := debtor']> (debtors st);
        creditors := <[creditorIndex st := creditor']> (creditors st);
        debtorIndex :=
          if n_leb (owed debtor') n_cent then S (debtorIndex st)
          else debtorIndex st;
        creditorIndex :=
          if n_leb (owed creditor') n_cent then S (creditorIndex st)
          else creditorIndex st;
        settlements := settlements'
      |}
  | _, _ => None
  end.

(** The [while] loop, run for at most [fuel] iterations: the state in
    which the loop condition fails, or [None] if it still holds after
    [fuel] iterations. *)
Fixpoint while (fuel : nat) (st : Loop) : option Loop :=
  match iteration st with
  | None => Some st
  | Some st' =>
      match fuel with
      | O => None
      | S fuel' => while fuel' st'
      end
  end.

Definition start (balanceRows : list BalanceRow) : Loop :=
  {| debtors := debtorsOf balanceRows;
     creditors := creditorsOf balanceRows;
     debtorIndex := 0;
     creditorIndex := 0;
     settlements := [] |}.

(** [computeSettlements] when its loop ends within [fuel] iterations. *)
Definition computeSettlements (fuel : nat) (balanceRows : list BalanceRow)
  : option (list Settlement) :=
  settlements <$> while fuel (start balanceRows).

(** ** Notions used in the statements *)

(** The balance of [k] in [balances], an id not tracked yet counting as 0. *)
Definition valueOf (balances : gmap string num) (k : string) : num :=
  default n_zero (balances !! k).

(** [expense] names [k] as its payer, in [splitBetween] or as a key of
    [splitAmounts]. *)
Definition references (k : string) (expense : Expense) : Prop :=
  paidBy expense = k ∨ k ∈ splitBetween expense
  ∨ ∃ sa, splitAmounts expense = Some sa ∧ is_Some (sa !! k).

(** The split set in the words of the specification: [splitBetween] when
    it is not empty, the payer alone otherwise. *)
Definition splitSet_spec (expense : Expense) : list string :=
  match splitBetween expense with
  | [] => [paidBy expense]
  | _ :: _ => splitBetween expense
  end.

(** How often [k] occurs in [l]. *)
Definition occurrences (k : string) (l : list string) : nat :=
  length (filter (λ j, j = k) l).

(** [balances] once the payer of [expense] has been credited. *)
Definition credited (balances : gmap string num) (expense : Expense)
  : gmap string num :=
  credit (paidBy expense) (amount expense) (track (paidBy expense) balances).

(** [k] is debited by the equal-split branch of [expense]. *)
Definition equallySplitOn (k : string) (expense : Expense) : Prop :=
  hasCustomSplit expense = false ∧ k ∈ splitMembers expense.

(** [expense] is not skipped and changes the balance of [k]: [k] is its
    payer, or is debited by the branch that is taken. *)
Definition touches (expense : Expense) (k : string) : Prop :=
  paidBy expense ≠ ""
  ∧ (paidBy expense = k ∨ equallySplitOn k expense
     ∨ ∃ sa, splitAmounts expense = Some sa ∧ sa ≠ ∅ ∧ is_Some (sa !! k)).

Definition sumList (l : list num) : num := foldr n_add n_zero l.

(** The sum of the balances of all tracked ids. *)
Definition totalBalance (balances : gmap string num) : num :=
  map_fold (λ _ v acc, n_add v acc) n_zero balances.

(** The sum of the amounts of a [splitAmounts] object. *)
Definition customTotal (sa : gmap string num) : num :=
  map_fold (λ _ a acc, n_add a acc) n_zero sa.

(** What the settlements direct member [m] to pay, and to receive. *)
Definition paidFrom (m : Member) (l : list Settlement) : num :=
  sumList (settled <$> filter (λ s, member_id (from s) = member_id m) l).

Definition receivedBy (m : Member) (l : list Settlement) : num :=
  sumList (settled <$> filter (λ s, member_id (to s) = member_id m) l).

(** The number of rows with a positive balance, and with a negative one. *)
Definition creditorCount (balanceRows : list BalanceRow) : nat :=
  length (filter (λ row, n_ltb n_zero (balance row) = true) balanceRows).

Definition debtorCount (balanceRows : list BalanceRow) : nat :=
  length (filter (λ row, n_ltb (balance row) n_zero = true) balanceRows).

(** What the loop keeps whatever the numbers are: the parties stay where
    they are, and every settlement has a positive amount, goes from a
    debtor and to a creditor. *)
Definition wellFormed (debtors0 creditors0 : list Party) (st : Loop) : Prop :=
  party <$> debtors st = party <$> debtors0
  ∧ party <$> creditors st = party <$> creditors0
  ∧ Forall (λ s, n_ltb n_zero (settled s) = true
                 ∧ from s ∈ party <$> debtors0
                 ∧ to s ∈ party <$> creditors0) (settlements st).

(** The settlements are no more than the cursor moves made, and fewer than
    the [nd] debtors and [nc] creditors taken together. *)
Definition countInv (nd nc : nat) (st : Loop) : Prop :=
  length (debtors st) = nd ∧ length (creditors st) = nc
  ∧ length (settlements st) ≤ debtorIndex st + creditorIndex st
  ∧ (settlements st = [] ∨ length (settlements st) < nd + nc).

(** The iterations the loop can still make, at most. *)
Definition remaining (st : Loop) : nat :=
  (length (debtors st) - debtorIndex st)
  + (length (creditors st) - creditorIndex st).

End Engine.

(** *** The invariants of the matching loop in exact arithmetic *)

Section ExactInvariants.
#[local] Existing Instance exact.
Local Open Scope Qc_scope.

(** Amounts are whole cents, the cursors are within the arrays, a party the
    cursor has passed is left with at most one cent, and the settlements
    are fewer than the iterations made. *)
Definition cursorsInv (debtors0 creditors0 : list Party) (st : Loop) : Prop :=
  wellFormed debtors0 creditors0 st
  ∧ Forall (λ p, Exact.cents (owed p)) (debtors st)
  ∧ Forall (λ p, Exact.cents (owed p)) (creditors st)
  ∧ (debtorIndex st ≤ length (debtors st))%nat
  ∧ (creditorIndex st ≤ length (creditors st))%nat
  ∧ (∀ i p, debtors st !! i = Some p → (i < debtorIndex st)%nat →
       owed p ≤ n_cent)
  ∧ (∀ i p, creditors st !! i = Some p → (i < creditorIndex st)%nat →
       owed p ≤ n_cent)
  ∧ (length (settlements st) ≤ debtorIndex st + creditorIndex st)%nat
  ∧ (settlements st = []
     ∨ (length (settlements st)
        < length (debtors st) + length (creditors st))%nat).

(** What a party has paid or received so far and what it still owes or
    is owed add up to its amount at the start. *)
Definition conserved (debtors0 creditors0 : list Party) (st : Loop) : Prop :=
  (∀ i p p0, debtors st !! i = Some p → debtors0 !! i = Some p0 →
     paidFrom (party p0) (settlements st) + owed p = owed p0)
  ∧ (∀ i p p0, creditors st !! i = Some p → creditors0 !! i = Some p0 →
       receivedBy (party p0) (settlements st) + owed p = owed p0).

(** Nothing is owed and nothing has been settled. *)
Definition idle (st : Loop) : Prop :=
  Forall (λ p, owed p = 0) (debtors st)
  ∧ Forall (λ p, owed p = 0) (creditors st)
  ∧ settlements st = [].

End ExactInvariants.

(** *** The state the loop cannot leave on binary64 *)

(** Both cursors are within the arrays and the amount under one of them is
    NaN. *)
Definition doomed (st : @Loop binary64) : Prop :=
  ∃ debtor creditor,
    debtors st !! debtorIndex st = Some debtor
    ∧ creditors st !! creditorIndex st = Some creditor
    ∧ (owed debtor = nan ∨ owed creditor = nan).

(** ** The helpers around the engine *)

(** *** Text *)

(** A string is the sequence of its characters; a character is an
    [ascii], which stands for a code unit from 0 to 255. *)
Module Text.

Definition quote : ascii := "034"%char.
Definition comma : ascii := ","%char.
Definition lineFeed : ascii := "010"%char.
Definition space : ascii := " "%char.

(** The characters that [\s] matches and that [trim] strips: tab, line
    feed, vertical tab, form feed, carriage return, space and no-break
    space (the other white space of ECMAScript lies above 255). *)
Definition isWhiteSpace (c : ascii) : bool :=
  match c with
  | "009" | "010" | "011" | "012" | "013" | " " | "160" => true
  | _ => false
  end%char.

Definition chars (s : string) : list ascii := String.list_ascii_of_string s.

Definition ofChars (l : list ascii) : string := String.string_of_list_ascii l.

Fixpoint trimStart (l : list ascii) : list ascii :=
  match l with
  | [] => []
  | c :: rest => if isWhiteSpace c then trimStart rest else l
  end.

Definition trimEnd (l : list ascii) : list ascii :=
  reverse (trimStart (reverse l)).

(** [s.trim()]. *)
Definition trim (l : list ascii) : list ascii := trimEnd (trimStart l).

(** [s.replace(/\s+/g, ' ')]: every maximal run of white space becomes
    one space; [inRun] tells that the character before was white space. *)
Fixpoint replaceRuns (inRun : bool) (l : list ascii) : list ascii :=
  match l with
  | [] => []
  | c :: rest =>
      if isWhiteSpace c
      then if inRun then replaceRuns true rest
           else space :: replaceRuns true rest
      else c :: replaceRuns false rest
  end.

(** The replacement that [escapeCsvValue] makes: every double quote is
    written twice. *)
Fixpoint doubleQuotes (s : string) : string :=
  match s with
  | EmptyString => EmptyString
  | String c rest =>
      if decide (c = quote)
      then String quote (String quote (doubleQuotes rest))
      else String c (doubleQuotes rest)
  end.

(** [parts.join(separator)]. *)
Fixpoint join (separator : string) (parts : list string) : string :=
  match parts with
  | [] => EmptyString
  | part :: rest =>
      match rest with
      | [] => part
      | _ :: _ => part +:+ separator +:+ join separator rest
      end
  end.

End Text.

(** *** normalizeTitle *)

Definition normalizeTitle (value : string) : string :=
  Text.ofChars (Text.replaceRuns false (Text.trim (Text.chars value))).

(** *** Numbers, continued *)

(** [a === b] on numbers. *)
Class JsNumberEq (N : JsNumber) := n_eqb : num → num → bool.

Global Instance binary64_eq : JsNumberEq binary64 := PrimFloat.eqb.

Global Instance exact_eq : JsNumberEq exact := λ a b, bool_decide (a = b).

Section Helpers.
Context {N : JsNumber}.

(** Two conversions of a number to text are built into the language and
    are taken as they are, whatever they return: [String(x)] and
    [x.toFixed(2)]. *)
Context (numberToString : num → string) (toFixed2 : num → string).

(** *** formatMoney *)

Definition formatMoney (value : num) : string := toFixed2 (roundToCents value).

(** *** escapeCsvValue and buildCsv *)

(** A value of type [string | number]. *)
Inductive Cell := text (s : string) | number (x : num).

(** [String(value)]. *)
Definition textOf (value : Cell) : string :=
  match value with
  | text s => s
  | number x => numberToString x
  end.

Definition escapeCsvValue (value : Cell) : string :=
  let raw := textOf value in
  String Text.quote (Text.doubleQuotes raw +:+ String Text.quote EmptyString).

Definition buildCsv (rows : list (list Cell)) : string :=
  Text.join (String Text.lineFeed EmptyString)
    ((λ row, Text.join "," (escapeCsvValue <$> row)) <$> rows).

(** *** buildEqualCustomAmounts *)

(** The variables that the callback of [memberIds.forEach] changes, with
    the index of the element that it is called on. *)
Record EqualAmounts := {
  amounts : gmap string string;
  remainingTotal : num;
  index : nat
}.

(** The callback, for the element [id]; [count] is [memberIds.length]. *)
Definition assignAmount (share : num) (count : nat) (st : EqualAmounts)
    (id : string) : EqualAmounts :=
  let value :=
    if bool_decide (index st = count - 1) then remainingTotal st else share in
  {| amounts := <[id := formatMoney value]> (amounts st);
     remainingTotal := roundToCents (n_sub (remainingTotal st) share);
     index := S (index st) |}.

Definition buildEqualCustomAmounts (memberIds : list string) (total : num)
  : gmap string string :=
  if bool_decide (length memberIds = 0) || n_leb total n_zero then ∅
  else
    let share :=
      roundToCents (n_div total (n_of_length (length memberIds))) in
    amounts
      (foldl (assignAmount share (length memberIds))
         {| amounts := ∅; remainingTotal := roundToCents total; index := 0 |}
         memberIds).

(** *** buildCustomAmountsFromExpense *)

Definition buildCustomAmountsFromExpense (memberIds : list string)
    (expense : Expense) : gmap string string :=
  let amounts := default ∅ (splitAmounts expense) in
  foldl (λ result id,
           <[id := formatMoney (default n_zero (amounts !! id))]> result)
    ∅ memberIds.

(** *** buildExpensePayload *)

(** The argument of [buildExpensePayload]. *)
Record Params := {
  params_id : string;
  params_title : string;
  params_amount : num;
  params_currency : string;
  params_originalAmount : num;
  params_fxRate : num;
  params_paidBy : string;
  params_splitBetween : list string;
  params_splitMode : SplitMode;
  params_splitAmounts : option (gmap string num);
  params_spentOn : string;
  params_createdAt : string
}.

(** An [Expense] with all its fields: those that the engine reads, and
    the others, of which [fxRate] is optional. *)
Record StoredExpense := {
  engineFields : Expense;
  currency : string;
  originalAmount : num;
  fxRate : option num;
  spentOn : string;
  createdAt : string
}.

Definition buildExpensePayload `{!JsNumberEq N} (params : Params)
  : StoredExpense :=
  {| engineFields :=
       {| expense_id := params_id params;
          title := normalizeTitle (params_title params);
          amount := params_amount params;
          paidBy := params_paidBy params;
          splitBetween := params_splitBetween params;
          splitMode := Some (params_splitMode params);
          splitAmounts :=
            match params_splitAmounts params with
            | Some sa =>
                if bool_decide (params_splitMode params = custom)
                   && bool_decide (0 < size sa)
                then Some sa else None
            | None => None
            end |};
     currency := params_currency params;
     originalAmount := params_originalAmount params;
     fxRate :=
       if n_eqb (params_fxRate params) n_one then None
       else Some (params_fxRate params);
     spentOn := params_spentOn params;
     createdAt := params_createdAt params |}.

(** *** memberPaidById *)

Definition memberPaidById (group : Group) : gmap string num :=
  foldl (λ acc expense,
           <[paidBy expense :=
               n_add (orZero (acc !! paidBy expense)) (amount expense)]> acc)
    ∅ (expenses group).

(** *** Notions used in the statements about the helpers *)

(** The amounts [l] added up as [memberPaidById] adds up the amounts of
    the expenses of one payer: from the left and starting from nothing,
    each step being [(sum || 0) + amount]. *)
Definition paidSum (l : list num) : option num :=
  foldl (λ sum a, Some (n_add (orZero sum) a)) None l.

(** The two members of a settlement, by their ids. *)
Definition pairOf (s : Settlement) : string * string :=
  (member_id (from s), member_id (to s)).

End Helpers.

(** *** The expense form *)

Module Form.

Definition isDigit (c : ascii) : bool :=
  match c with
  | "0" | "1" | "2" | "3" | "4" | "5" | "6" | "7" | "8" | "9" => true
  | _ => false
  end%char.

(** The characters that [parseAmount] keeps, in
    [value.replace(/[^0-9.]/g, '')]. *)
Definition isAmountChar (c : ascii) : bool :=
  isDigit c || bool_decide (c = "."%char).

(** [s.trim()]. *)
Definition trimmed (s : string) : string :=
  Text.ofChars (Text.trim (Text.chars s)).

(** [/^\d{4}-\d{2}-\d{2}$/.test(s)]. *)
Definition isDateText (s : string) : bool :=
  match Text.chars s with
  | [y1; y2; y3; y4; dash1; m1; m2; dash2; d1; d2] =>
      isDigit y1 && isDigit y2 && isDigit y3 && isDigit y4
      && bool_decide (dash1 = "-"%char)
      && isDigit m1 && isDigit m2
      && bool_decide (dash2 = "-"%char)
      && isDigit d1 && isDigit d2
  | _ => false
  end.

(** [texts[id] || fallback], for an object [texts] of strings. *)
Definition textOr (fallback : string) (v : option string) : string :=
  match v with
  | Some s => if bool_decide (s = "") then fallback else s
  | None => fallback
  end.

End Form.

(** [Number.isNaN(a)]. *)
Class JsNumberNaN (N : JsNumber) := n_isNaN : num → bool.

Global Instance binary64_nan : JsNumberNaN binary64 := PrimFloat.is_nan.

Global Instance exact_nan : JsNumberNaN exact := λ _, false.

(** What the checks of the form rest on: a number above 0 is not NaN, is
    not at most 0 and is not falsy, and 1 is above 0.  This holds of
    binary64 and of the rationals. *)
Class JsNumberFormLaws (N : JsNumber) `{!JsNumberNaN N} : Prop := {
  positive_not_nan : ∀ x : num, n_ltb n_zero x = true → n_isNaN x = false;
  positive_not_le : ∀ x : num, n_ltb n_zero x = true → n_leb x n_zero = false;
  positive_truthy : ∀ x : num, n_ltb n_zero x = true → n_truthy x = true;
  one_positive : n_ltb n_zero n_one = true
}.

Section ExpenseForm.
Context {N : JsNumber} `{!JsNumberEq N} `{!JsNumberNaN N}.

(** The conversion [Number(s)] of a text to a number is built into the
    language and is taken as it is, whatever it returns. *)
Context (toNumber : string → num).

(** *** parseAmount *)

Definition parseAmount (value : string) : num :=
  let normalized :=
    Text.ofChars
      (filter (λ c, Form.isAmountChar c = true) (Text.chars value)) in
  let parsed := toNumber normalized in
  if n_isNaN parsed then n_zero else parsed.

(** *** addExpense and saveExpenseEdits *)

(** The state that [addExpense], [saveExpenseEdits] and the values derived
    for the form read: the texts typed, the payer and the split chosen
    (the source's [paidBy], [splitBetween] and [splitMode]), and the
    currency of the group. *)
Record ExpenseForm := {
  expenseTitle : string;
  expenseAmount : string;
  expenseDate : string;
  expenseCurrency : string;
  expenseFxRate : string;
  formPaidBy : string;
  formSplitBetween : list string;
  formSplitMode : SplitMode;
  customSplitAmounts : gmap string string;
  baseCurrency : string
}.

(** [parseAmount(texts[memberId] || '0')], the amount typed for
    [memberId]. *)
Definition typedAmount (texts : gmap string string) (memberId : string)
  : num :=
  parseAmount (Form.textOr "0" (texts !! memberId)).

(** The object [splitAmounts] that [addExpense] and [saveExpenseEdits]
    make in custom mode: for every id of [fallbackSplit], the amount typed
    for it, rounded to cents, if that is above 0. *)
Definition typedSplitAmounts (fallbackSplit : list string)
    (nextCustomSplitAmounts : gmap string string) : gmap string num :=
  foldl (λ acc memberId,
           let value :=
             roundToCents (typedAmount nextCustomSplitAmounts memberId) in
           if n_ltb n_zero value then <[memberId := value]> acc else acc)
    ∅ fallbackSplit.

(** The expense that [addExpense] builds, for the id and the time that it
    takes from [createId] and the clock, and that [saveExpenseEdits] builds
    for the id and the time of the expense that is edited; [None] where
    they return before building it.  The arguments after [createdAt] are
    those of the two functions; the rest of the state is read from
    [form].  What the functions do with the expense (storing it with the
    group) is not part of this. *)
Definition builtExpense (form : ExpenseForm) (id createdAt : string)
    (nextPaidBy : string) (nextSplitBetween : list string)
    (nextSplitMode : SplitMode)
    (nextCustomSplitAmounts : gmap string string) : option StoredExpense :=
  let title := Form.trimmed (expenseTitle form) in
  let originalAmount := parseAmount (expenseAmount form) in
  if bool_decide (title = "") || n_isNaN originalAmount
     || n_leb originalAmount n_zero
  then None
  else
    let spentOn := Form.trimmed (expenseDate form) in
    if negb (Form.isDateText spentOn) then None
    else
      let fxRate :=
        if bool_decide (expenseCurrency form = baseCurrency form) then n_one
        else parseAmount (expenseFxRate form) in
      if negb (n_truthy fxRate) || n_leb fxRate n_zero then None
      else
        let amount := roundToCents (n_mul originalAmount fxRate) in
        let fallbackSplit :=
          if bool_decide (0 < length nextSplitBetween) then nextSplitBetween
          else [nextPaidBy] in
        let splitAmounts :=
          match nextSplitMode with
          | custom =>
              Some (typedSplitAmounts fallbackSplit nextCustomSplitAmounts)
          | equal => None
          end in
        Some (buildExpensePayload
                {| params_id := id;
                   params_title := title;
                   params_amount := amount;
                   params_currency := expenseCurrency form;
                   params_originalAmount := originalAmount;
                   params_fxRate := fxRate;
                   params_paidBy := nextPaidBy;
                   params_splitBetween := fallbackSplit;
                   params_splitMode := nextSplitMode;
                   params_splitAmounts := splitAmounts;
                   params_spentOn := spentOn;
                   params_createdAt := createdAt |}).

(** *** The values derived from the state of the form *)

Definition expenseAmountNumber (form : ExpenseForm) : num :=
  parseAmount (expenseAmount form).

Definition fxRateNumber (form : ExpenseForm) : num :=
  if bool_decide (expenseCurrency form = baseCurrency form) then n_one
  else parseAmount (expenseFxRate form).

Definition expenseBaseAmount (form : ExpenseForm) : num :=
  if negb (n_truthy (fxRateNumber form)) || n_leb (fxRateNumber form) n_zero
  then n_zero
  else roundToCents (n_mul (expenseAmountNumber form) (fxRateNumber form)).

Definition fxRateValid (form : ExpenseForm) : bool :=
  bool_decide (expenseCurrency form = baseCurrency form)
  || (n_ltb n_zero (fxRateNumber form)
      && negb (n_eqb (fxRateNumber form) n_zero)).

(** The source's [customTotal]: the sum of the amounts typed for the ids
    of [splitBetween]. *)
Definition typedTotal (form : ExpenseForm) : num :=
  foldl (λ sum memberId,
           n_add sum (typedAmount (customSplitAmounts form) memberId))
    n_zero (formSplitBetween form).

Definition customTotalMatches (form : ExpenseForm) : bool :=
  bool_decide (formSplitMode form = custom)
  && bool_decide (0 < length (formSplitBetween form))
  && n_leb (n_abs (n_sub (roundToCents (typedTotal form))
                         (roundToCents (expenseBaseAmount form))))
       n_cent.

Definition spentOnValid (form : ExpenseForm) : bool :=
  Form.isDateText (Form.trimmed (expenseDate form)).

(** Whether the button that calls [addExpense] or [saveExpenseEdits], with
    the payer and the split of the state, is enabled. *)
Definition canSubmitExpense (form : ExpenseForm) : bool :=
  bool_decide (0 < String.length (Form.trimmed (expenseTitle form)))
  && n_ltb n_zero (expenseAmountNumber form)
  && spentOnValid form
  && fxRateValid form
  && bool_decide (0 < String.length (formPaidBy form))
  && (bool_decide (formSplitMode form = equal)
      || (bool_decide (0 < length (formSplitBetween form))
          && customTotalMatches form)).

End ExpenseForm.


(** The characters of [value] that are not white space. *)
Definition visible (value : string) : list ascii :=
  filter (λ c, Text.isWhiteSpace c = false) (Text.chars value).

(** All characters of [value] are white space. *)
Definition blank (value : string) : Prop :=
  Forall (λ c, Text.isWhiteSpace c = true) (Text.chars value).

(** The characters [l] neither start nor end with white space, and their
    white space is single spaces: every white-space character is a space
    and is followed by a character that is not white space. *)
Definition tidyChars (l : list ascii) : Prop :=
  (∀ c, head l = Some c → Text.isWhiteSpace c = false)
  ∧ ∀ i c, l !! i = Some c → Text.isWhiteSpace c = true →
      c = Text.space
      ∧ ∃ c', l !! S i = Some c' ∧ Text.isWhiteSpace c' = false.

Definition tidy (value : string) : Prop := tidyChars (Text.chars value).

(** *** Reading back what [buildCsv] writes *)

(** A reader of tables in which every field is in quotes, a quote inside
    a field is written twice, fields are separated by commas and rows by
    line feeds; [None] for any other text. *)
Module Reader.

(** Where the reader is: before the opening quote of a field, inside the
    quotes, or after a quote met inside the quotes. *)
Inductive State := fieldStart | quoted | quoteSeen.

(** [c] in front of the first field of the first row. *)
Definition addChar (c : ascii) (table : option (list (list string)))
  : option (list (list string)) :=
  match table with
  | Some ((field :: row) :: rows) => Some ((String c field :: row) :: rows)
  | _ => None
  end.

(** An empty field in front of the first row. *)
Definition addField (table : option (list (list string)))
  : option (list (list string)) :=
  match table with
  | Some (row :: rows) => Some ((EmptyString :: row) :: rows)
  | _ => None
  end.

(** A row of one empty field in front of the rows. *)
Definition addRow (table : option (list (list string)))
  : option (list (list string)) :=
  match table with
  | Some rows => Some ([EmptyString] :: rows)
  | None => None
  end.

Fixpoint readFrom (state : State) (s : string)
  : option (list (list string)) :=
  match s with
  | EmptyString =>
      match state with
      | quoteSeen => Some [[EmptyString]]
      | _ => None
      end
  | String c rest =>
      match state with
      | fieldStart =>
          if decide (c = Text.quote) then readFrom quoted rest else None
      | quoted =>
          if decide (c = Text.quote) then readFrom quoteSeen rest
          else addChar c (readFrom quoted rest)
      | quoteSeen =>
          if decide (c = Text.quote)
          then addChar Text.quote (readFrom quoted rest)
          else if decide (c = Text.comma)
          then addField (readFrom fieldStart rest)
          else if decide (c = Text.lineFeed)
          then addRow (readFrom fieldStart rest)
          else None
      end
  end.

(** The empty text is the table without rows. *)
Definition readCsv (s : string) : option (list (list string)) :=
  match s with
  | EmptyString => Some []
  | _ => readFrom fieldStart s
  end.

(** [raw] in front of the first field of the first row. *)
Fixpoint addText (raw : string) (table : option (list (list string)))
  : option (list (list string)) :=
  match raw with
  | EmptyString => table
  | String c raw => addChar c (addText raw table)
  end.

End Reader.

(** *** What the proofs about the helpers use *)

(** The recursive form of the second part of [tidyChars]. *)
Fixpoint singleSpaced (l : list ascii) : Prop :=
  match l with
  | [] => True
  | c :: rest =>
      (Text.isWhiteSpace c = true →
       c = Text.space
       ∧ ∃ c', head rest = Some c' ∧ Text.isWhiteSpace c' = false)
      ∧ singleSpaced rest
  end.

Definition startsTidy (l : list ascii) : Prop :=
  ∀ c, head l = Some c → Text.isWhiteSpace c = false.

Definition endsTidy (l : list ascii) : Prop :=
  ∀ c, last l = Some c → Text.isWhiteSpace c = false.

Definition visibleChars (l : list ascii) : list ascii :=
  filter (λ c, Text.isWhiteSpace c = false) l.

Definition normalizeChars (l : list ascii) : list ascii :=
  Text.replaceRuns false (Text.trim l).

(** *** The matching loop: notions used in the statements and the proofs *)

Section LoopNotions.
Context {N : JsNumber}.








(** Every settlement was made with the cursors at or before where they
    are, and not both where they are; no two settlements are between the
    same two members. *)
Definition distinctPairs (debtors0 creditors0 : list Party) (st : Loop)
  : Prop :=
  (∀ s, s ∈ settlements st →
     ∃ i j p q,
       debtors0 !! i = Some p ∧ creditors0 !! j = Some q
       ∧ party p = from s ∧ party q = to s
       ∧ i ≤ debtorIndex st ∧ j ≤ creditorIndex st
       ∧ i + j < debtorIndex st + creditorIndex st)
  ∧ NoDup (pairOf <$> settlements st).

(** Every amount, of a party or of a settlement, is a value of
    [roundToCents]. *)
Definition rounded (st : Loop) : Prop :=
  Forall (λ p, ∃ x, owed p = roundToCents x) (debtors st)
  ∧ Forall (λ p, ∃ x, owed p = roundToCents x) (creditors st)
  ∧ Forall (λ s, ∃ x, settled s = roundToCents x) (settlements st).

(** No party has anything left and nothing has been settled. *)
Definition nothingOwed (st : Loop) : Prop :=
  Forall (λ p, owed p = n_zero) (debtors st)
  ∧ Forall (λ p, owed p = n_zero) (creditors st)
  ∧ settlements st = [].

End LoopNotions.

(** ** The totals and the export *)

(** *** Notions used in the statements about the balances of a group *)

(** Whether [expense] names [k] can be decided. *)
Global Instance references_dec `{N : JsNumber} (k : string)
    (expense : Expense) : Decision (references k expense).
Proof.
  unfold references.
  destruct (splitAmounts expense) as [sa|].
  - destruct (decide (paidBy expense = k ∨ k ∈ splitBetween expense
                      ∨ is_Some (sa !! k))) as [H|H].
    + left. naive_solver.
    + right. naive_solver.
  - destruct (decide (paidBy expense = k ∨ k ∈ splitBetween expense))
      as [H|H].
    + left. naive_solver.
    + right. naive_solver.
Defined.

(** The group with only those expenses of [group] that name [k]. *)
Definition namedExpenses `{N : JsNumber} (k : string) (group : Group) : Group :=
  {| group_id := group_id group; group_name := group_name group;
     members := members group;
     expenses := filter (references k) (expenses group) |}.

(** Two balance objects that have the same under [k]. *)
Definition agreeOn `{N : JsNumber} (k : string)
    (balances balances' : gmap string num) : Prop :=
  balances !! k = balances' !! k.

(** *** exportGroupCsv *)

Module FileName.

Definition backslash : ascii := "092"%char.
Definition dash : ascii := "-"%char.

(** [s.replace(/\\s+/g, '-')]: the pattern is a backslash followed by one
    or more letters s, and each match becomes one dash; [inRun] tells
    that the characters before were the backslash of a match and its
    letters s. *)
Fixpoint replaceMarks (inRun : bool) (l : list ascii) : list ascii :=
  match l with
  | [] => []
  | c :: rest =>
      if inRun && bool_decide (c = "s"%char) then replaceMarks true rest
      else if bool_decide (c = backslash)
              && bool_decide (head rest = Some "s"%char)
      then dash :: replaceMarks true rest
      else c :: replaceMarks false rest
  end.

(** [toLowerCase] on one character: the capital letters below 256 are A
    to Z and the letters from 192 to 222 without the sign at 215, and the
    small letter of each lies 32 above it. *)
Definition lowerChar (c : ascii) : ascii :=
  let n := N_of_ascii c in
  if (65 <=? n)%N && (n <=? 90)%N
     || (192 <=? n)%N && (n <=? 214)%N
     || (216 <=? n)%N && (n <=? 222)%N
  then ascii_of_N (n + 32)
  else c.

Definition toLowerCase (l : list ascii) : list ascii := lowerChar <$> l.

End FileName.

Section GroupExport.
Context {N : JsNumber}.
Context (numberToString toFixed2 : num → string).

(** An expense as a group keeps it: the fields that the engine reads and,
    of the others, those that the export reads, the optional ones as
    options. *)
Record SavedExpense := {
  saved : Expense;
  saved_currency : option string;
  saved_originalAmount : option num;
  saved_spentOn : option string;
  saved_createdAt : string
}.

(** The fields of the active group that the export reads. *)
Record SavedGroup := {
  saved_name : string;
  saved_groupCurrency : string;
  saved_members : list Member;
  saved_expenses : list SavedExpense
}.

(** The object [memberNames] after the loop over the members. *)
Definition memberNamesOf (ms : list Member) : gmap string string :=
  foldl (λ names m, <[member_id m := member_name m]> names) ∅ ms.

Definition exportHeader : list Cell :=
  [text "Group"; text "Date"; text "Title"; text "Amount";
   text "Base Currency"; text "Original Amount"; text "Original Currency";
   text "Paid By"; text "Split Between"; text "Split Mode"].

(** [expense.splitMode || 'equal']. *)
Definition splitModeText (mode : option SplitMode) : string :=
  match mode with
  | Some custom => "custom"
  | Some equal | None => "equal"
  end.

(** The row that [exportGroupCsv] pushes for an expense. *)
Definition exportRow (group : SavedGroup) (memberNames : gmap string string)
    (expense : SavedExpense) : list Cell :=
  [text (saved_name group);
   text (Form.textOr (saved_createdAt expense) (saved_spentOn expense));
   text (title (saved expense));
   text (formatMoney toFixed2 (amount (saved expense)));
   text (saved_groupCurrency group);
   text (formatMoney toFixed2
           (default (amount (saved expense)) (saved_originalAmount expense)));
   text (Form.textOr (saved_groupCurrency group) (saved_currency expense));
   text (Form.textOr "" (memberNames !! paidBy (saved expense)));
   text (Text.join " | "
           ((λ id, Form.textOr id (memberNames !! id))
              <$> splitBetween (saved expense)));
   text (splitModeText (splitMode (saved expense)))].

Definition exportRows (group : SavedGroup) : list (list Cell) :=
  exportHeader
  :: (exportRow group (memberNamesOf (saved_members group))
        <$> saved_expenses group).

Definition exportFileName (name : string) : string :=
  Text.ofChars
    (FileName.toLowerCase (FileName.replaceMarks false (Text.chars name)))
  +:+ "-expenses.csv".

(** The name and the text of the file that [exportGroupCsv] hands to
    [downloadCsv]; nothing when there is no active group. *)
Definition exportGroupCsv (activeGroup : option SavedGroup)
  : option (string * string) :=
  match activeGroup with
  | None => None
  | Some group =>
      Some (exportFileName (saved_name group),
            buildCsv numberToString (exportRows group))
  end.

End GroupExport.

(** The two facts about numbers that the structural properties rest on;
    they hold of binary64 and of the rationals. *)
Class JsNumberLaws (N : JsNumber) : Prop := {
  truthy_zero : n_truthy n_zero = false;
  lt_zero_asym : ∀ x : num, n_ltb x n_zero = true → n_ltb n_zero x = true → False
}.

(** What the loop of [computeSettlements] rests on besides: [Math.min]
    returns one of its arguments when what it returns is above 0, and the
    loop on amounts that are all 0 pays 0 and leaves 0.  This holds of
    binary64 and of the rationals. *)
Class JsNumberLoopLaws (N : JsNumber) : Prop := {
  min_picks : ∀ a b : num,
    n_ltb n_zero (n_min a b) = true → n_min a b = a ∨ n_min a b = b;
  min_zero : n_min n_zero n_zero = n_zero;
  round_zero : roundToCents (n_sub n_zero n_zero) = n_zero;
  zero_le_cent : n_leb n_zero n_cent = true
}.

(** ** The laws hold of both kinds of numbers *)

Lemma binary64_lt_zero_asym (x : float) :
  (x <? 0)%float = true → (0 <? x)%float = true → False.
Proof.
  rewrite !ltb_spec. change (Prim2SF 0) with (S754_zero false).
  destruct (Prim2SF x) as [s|s| |s m e]; try discriminate.
  all: destruct s; discriminate.
Qed.

Global Instance binary64_laws : JsNumberLaws binary64.
Proof.
  split; [reflexivity|]. intros x. apply binary64_lt_zero_asym.
Qed.

Global Instance exact_laws : JsNumberLaws exact.
Proof.
  split; [reflexivity|]. intros x; simpl. unfold Exact.ltb.
  rewrite !bool_decide_eq_true. intros H1 H2.
  exact (Qclt_not_le _ _ H1 (Qclt_le_weak _ _ H2)).
Qed.

Global Instance binary64_loop_laws : JsNumberLoopLaws binary64.
Proof.
  split; [|reflexivity..].
  intros a b H. change (n_min a b) with (F64.min a b) in *.
  unfold F64.min in *.
  destruct (is_nan a || is_nan b); [discriminate H|].
  destruct (a <? b)%float; [by left|].
  destruct (b <? a)%float; [by right|].
  destruct (get_sign a); auto.
Qed.

Global Instance exact_loop_laws : JsNumberLoopLaws exact.
Proof.
  split.
  - intros a b _. simpl. unfold Exact.min. destruct (Exact.ltb b a); auto.
  - reflexivity.
  - by apply Qc_is_canon.
  - reflexivity.
Qed.

(** ** Sample data, in binary64 *)

Module Sample.
#[local] Existing Instance binary64.

Definition alice : Member := {| member_id := "a"; member_name := "Alice" |}.
Definition bob : Member := {| member_id := "b"; member_name := "Bob" |}.
Definition carol : Member := {| member_id := "c"; member_name := "Carol" |}.

Definition trip (ms : list Member) (es : list Expense) : Group :=
  {| group_id := "g"; group_name := "Trip"; members := ms; expenses := es |}.

Definition row (m : Member) (b : float) : BalanceRow :=
  {| member := m; balance := b |}.

(** 90 paid by Alice, split equally between Alice and Bob. *)
Definition dinner : Expense :=
  {| expense_id := "e1"; title := "Dinner"; amount := 90%float;
     paidBy := "a"; splitBetween := ["a"; "b"];
     splitMode := Some equal; splitAmounts := None |}.

(** 30 paid by Bob, all of it on Carol by a custom split. *)
Definition taxi : Expense :=
  {| expense_id := "e2"; title := "Taxi"; amount := 30%float;
     paidBy := "b"; splitBetween := ["c"];
     splitMode := Some custom; splitAmounts := Some {[ "c" := 30%float ]} |}.

(** 30 paid by somebody who is not a member, for Alice. *)
Definition gift : Expense :=
  {| expense_id := "e3"; title := "Gift"; amount := 30%float;
     paidBy := "x"; splitBetween := ["a"];
     splitMode := Some equal; splitAmounts := None |}.

(** 30 paid by Alice, of which a custom split puts only 10 on Bob. *)
Definition tip : Expense :=
  {| expense_id := "e4"; title := "Tip"; amount := 30%float;
     paidBy := "a"; splitBetween := ["b"];
     splitMode := Some custom; splitAmounts := Some {[ "b" := 10%float ]} |}.

(** Split mode [equal], yet a [splitAmounts] object that puts all 90 on
    Carol. *)
Definition hotel : Expense :=
  {| expense_id := "e5"; title := "Hotel"; amount := 90%float;
     paidBy := "a"; splitBetween := ["a"; "b"; "c"];
     splitMode := Some equal; splitAmounts := Some {[ "c" := 90%float ]} |}.

(** No split mode recorded, and a [splitAmounts] object. *)
Definition museum : Expense :=
  {| expense_id := "e6"; title := "Museum"; amount := 30%float;
     paidBy := "a"; splitBetween := ["a"; "b"];
     splitMode := None; splitAmounts := Some {[ "b" := 30%float ]} |}.

(** 30 paid by a non-member, with no split target recorded. *)
Definition solo : Expense :=
  {| expense_id := "e7"; title := "Solo"; amount := 30%float;
     paidBy := "x"; splitBetween := [];
     splitMode := Some equal; splitAmounts := None |}.

(** A custom split paid by Alice whose [splitBetween] names a non-member. *)
Definition ferry : Expense :=
  {| expense_id := "e8"; title := "Ferry"; amount := 30%float;
     paidBy := "a"; splitBetween := ["y"];
     splitMode := Some custom; splitAmounts := Some {[ "b" := 30%float ]} |}.

(** Split mode [equal], yet a [splitAmounts] object that puts all 40 on
    Alice. *)
Definition brunch : Expense :=
  {| expense_id := "e9"; title := "Brunch"; amount := 40%float;
     paidBy := "b"; splitBetween := ["a"; "b"];
     splitMode := Some equal; splitAmounts := Some {[ "a" := 40%float ]} |}.

(** 50 to be split equally between Alice and Bob, with no payer. *)
Definition anonymous : Expense :=
  {| expense_id := "e12"; title := "Anonymous"; amount := 50%float;
     paidBy := ""; splitBetween := ["a"; "b"];
     splitMode := Some equal; splitAmounts := None |}.

(** 1e11 paid by Alice, split equally between Alice, Bob and Carol. *)
Definition fortune : Expense :=
  {| expense_id := "e11"; title := "Fortune"; amount := 1e11%float;
     paidBy := "a"; splitBetween := ["a"; "b"; "c"];
     splitMode := Some equal; splitAmounts := None |}.

(** 2e307 paid by Alice, split equally between Alice and Bob. *)
Definition windfall : Expense :=
  {| expense_id := "e10"; title := "Windfall"; amount := 2e307%float;
     paidBy := "a"; splitBetween := ["a"; "b"];
     splitMode := Some equal; splitAmounts := None |}.

Definition settlement (m1 m2 : Member) (a : float) : Settlement :=
  {| from := m1; to := m2; settled := a |}.

(** The state in which the loop stays on the balances of [windfall]. *)
Definition stuck : Loop :=
  {| debtors := [{| party := bob; owed := nan |}];
     creditors := [{| party := alice; owed := nan |}];
     debtorIndex := 0;
     creditorIndex := 0;
     settlements := [settlement bob alice infinity] |}.

End Sample.

(** ** Sample data, in exact arithmetic *)

Module SampleExact.
#[local] Existing Instance exact.

Definition trip (ms : list Member) (es : list Expense) : Group :=
  {| group_id := "g"; group_name := "Trip"; members := ms; expenses := es |}.

Definition row (m : Member) (b : Z) : BalanceRow :=
  {| member := m; balance := Exact.of_Z b |}.

Definition settlement (m1 m2 : Member) (a : Z) : Settlement :=
  {| from := m1; to := m2; settled := Exact.of_Z a |}.

(** 90 paid by Alice, split equally between Alice and Bob. *)
Definition dinner : Expense :=
  {| expense_id := "e1"; title := "Dinner"; amount := Exact.of_Z 90;
     paidBy := "a"; splitBetween := ["a"; "b"];
     splitMode := Some equal; splitAmounts := None |}.

End SampleExact.

(** ** Sample data for the helpers *)

Module SampleHelpers.
#[local] Existing Instance exact.

(** 30 paid by Bob, all of it on Carol by a custom split. *)
Definition taxi : Expense :=
  {| expense_id := "e2"; title := "Taxi"; amount := Exact.of_Z 30;
     paidBy := "b"; splitBetween := ["c"];
     splitMode := Some custom;
     splitAmounts := Some {[ "c" := Exact.of_Z 30 ]} |}.

(** An amount with two decimals, as [toFixed(2)] writes an amount of less
    than 10^21: the sign, then the nearest number of cents (of two, the
    larger) as its digits before the last two, a point and the last two
    digits. *)
Definition twoDecimals (q : Qc) : string :=
  let cents :=
    Z.to_N (Qfloor (Exact.abs q * Exact.of_Z 100 + Q2Qc (1 # 2))%Qc) in
  (if bool_decide (q < 0)%Qc then "-" else "")
  +:+ pretty (cents / 100)%N +:+ "."
  +:+ pretty (cents mod 100 / 10)%N +:+ pretty (cents mod 10)%N.

(** A table of texts with a comma, quotes and a line feed in its fields;
    no cell is a number, so that the text of a number does not matter. *)
Definition table : list (list Cell) :=
  [ [text "Title"; text "Amount"; text "Paid By"];
    [text "Fish, chips"; text "12.50"; text "Alice"];
    [text (String Text.quote ("Taxi" +:+ String Text.quote " home"));
     text ("7" +:+ String Text.lineFeed "50"); text ""] ].

End SampleHelpers.

(** ** Sample data for the expense form *)

Module SampleForm.
#[local] Existing Instance exact.

(** The digits [s] read after the number [whole]; [scale] is 0 before the
    point and, after it, the power of ten that what was read is to be
    divided by. *)
Fixpoint decimalFrom (whole : Z) (scale : Z) (s : string) : Z * Z :=
  match s with
  | EmptyString => (whole, scale)
  | String c rest =>
      match Ascii.is_nat c with
      | Some d =>
          decimalFrom (10 * whole + Z.of_nat d)
            (if (scale =? 0)%Z then 0 else 10 * scale)%Z rest
      | None => decimalFrom whole 1 rest
      end
  end.

(** The number that [Number] reads from digits with at most one point, in
    exact arithmetic. *)
Definition decimal (s : string) : num :=
  let '(digits, scale) := decimalFrom 0 0 s in
  (Exact.of_Z digits / Exact.of_Z (Z.max 1 scale))%Qc.

(** An expense of 10 that Alice paid, split by hand into 5.00 for Alice
    and 4.99 for Bob. *)
Definition lunch : ExpenseForm :=
  {| expenseTitle := "  Lunch   at the  pier ";
     expenseAmount := "10";
     expenseDate := "2024-05-17";
     expenseCurrency := "EUR";
     expenseFxRate := "1";
     formPaidBy := "a";
     formSplitBetween := ["a"; "b"];
     formSplitMode := custom;
     customSplitAmounts := {[ "a" := "5.00"; "b" := "4.99" ]};
     baseCurrency := "EUR" |}.

End SampleForm.

(** ** Sample data for the totals and the export *)

Module SampleExport.
#[local] Existing Instance exact.

(** Two expenses of a group of Alice and Bob; the title of the first has
    a comma and quotes, the second was paid in another currency by a
    payer who is not a member, and is split with a stranger. *)
Definition roadTrip : SavedGroup :=
  {| saved_name := "Road Trip"; saved_groupCurrency := "EUR";
     saved_members := [Sample.alice; Sample.bob];
     saved_expenses :=
       [ {| saved := {| expense_id := "e1";
                        title := "Fish, " +:+ String Text.quote
                                   ("chips" +:+ String Text.quote "");
                        amount := Exact.of_Z 90;
                        paidBy := "a"; splitBetween := ["a"; "b"];
                        splitMode := None; splitAmounts := None |};
            saved_currency := None; saved_originalAmount := None;
            saved_spentOn := None;
            saved_createdAt := "2024-05-17T12:00:00.000Z" |};
         {| saved := {| expense_id := "e2"; title := "Taxi";
                        amount := Exact.of_Z 30;
                        paidBy := "z"; splitBetween := ["b"; "z"];
                        splitMode := Some custom;
                        splitAmounts :=
                          Some {[ "b" := Exact.of_Z 10;
                                  "z" := Exact.of_Z 20 ]} |};
            saved_currency := Some "USD";
            saved_originalAmount := Some (Exact.of_Z 33);
            saved_spentOn := Some "2024-05-18";
            saved_createdAt := "2024-05-19T08:00:00.000Z" |} ] |}.

End SampleExport.

(** * Properties *)

(** ** computeBalances, for any numbers *)

Section Balances.
Context {N : JsNumber}.
Implicit Types (balances : gmap string num) (expense : Expense) (k : string).

Lemma track_lookup balances k j :
  track k balances !! j =
    if decide (k = j) then Some (valueOf balances k) else balances !! j.
Proof.
  unfold track, valueOf. destruct (balances !! k) as [v|] eqn:E.
  - case_decide; subst; simpl; by rewrite ?E.
  - simpl. rewrite lookup_insert. by case_decide.
Qed.

Lemma credit_lookup balances k a j :
  credit k a (track k balances) !! j =
    if decide (k = j) then Some (n_add (valueOf balances k) a)
    else balances !! j.
Proof.
  unfold credit. rewrite lookup_alter, !track_lookup.
  repeat case_decide; by simplify_eq/=.
Qed.

Lemma debit_lookup balances k a j :
  debit k a balances !! j =
    if decide (k = j) then Some (n_sub (valueOf balances k) a)
    else balances !! j.
Proof.
  unfold debit. rewrite lookup_alter, !track_lookup.
  repeat case_decide; by simplify_eq/=.
Qed.

Lemma debits_lookup_notin (l : list string) a balances j :
  j ∉ l →
  foldl (λ acc memberId, debit memberId a acc) balances l !! j = balances !! j.
Proof.
  revert balances. induction l as [|k l IH]; intros balances Hj; [done|].
  apply not_elem_of_cons in Hj as [Hne Hj]. simpl. rewrite IH by done.
  rewrite debit_lookup. by case_decide.
Qed.

(** The loop over [Object.entries(splitAmounts)]: every key is debited by
    its amount, every other id is left as it was. *)
Lemma custom_debits_lookup (sa : gmap string num) balances j :
  map_fold (λ memberId a acc, debit memberId a acc) balances sa !! j =
    match sa !! j with
    | Some a => Some (n_sub (valueOf balances j) a)
    | None => balances !! j
    end.
Proof.
  revert j.
  apply (map_fold_weak_ind (λ r (m : gmap string num), ∀ j,
    r !! j = match m !! j with
             | Some a => Some (n_sub (valueOf balances j) a)
             | None => balances !! j
             end)).
  - intros j. by rewrite lookup_empty.
  - intros i x m r Hi IH j. rewrite debit_lookup, lookup_insert.
    case_decide; subst; [|apply IH].
    unfold valueOf at 1. by rewrite IH, Hi.
Qed.

Lemma initialise_lookup (ms : list Member) balances k :
  foldl (λ acc m, <[member_id m := n_zero]> acc) balances ms !! k =
    if decide (k ∈ member_id <$> ms) then Some n_zero else balances !! k.
Proof.
  revert balances. induction ms as [|m ms IH]; intros balances; simpl.
  - done.
  - change (list_fmap Member string member_id ms) with (member_id <$> ms).
    rewrite IH, lookup_insert.
    destruct (decide (k ∈ member_id <$> ms)) as [Hin|Hin],
      (decide (k ∈ member_id m :: (member_id <$> ms))) as [Hin'|Hin'];
      try done.
    + destruct Hin'. by right.
    + apply elem_of_cons in Hin' as [->|?]; [|done]. by rewrite decide_True.
    + rewrite decide_False; [done|]. intros <-. apply Hin'. by left.
Qed.

Lemma initialBalances_lookup (ms : list Member) k :
  initialBalances ms !! k =
    if decide (k ∈ member_id <$> ms) then Some n_zero else None.
Proof. unfold initialBalances. by rewrite initialise_lookup, lookup_empty. Qed.

Lemma lookup_as_value balances k :
  balances !! k =
    if decide (is_Some (balances !! k)) then Some (valueOf balances k)
    else None.
Proof.
  unfold valueOf. by destruct (balances !! k).
Qed.

Lemma valueOf_debit balances k a j :
  valueOf (debit k a balances) j =
    if decide (k = j) then n_sub (valueOf balances j) a
    else valueOf balances j.
Proof.
  unfold valueOf at 1. rewrite debit_lookup. by destruct (decide (k = j)); subst.
Qed.

Lemma tracked_debit balances k a j :
  is_Some (debit k a balances !! j) ↔ k = j ∨ is_Some (balances !! j).
Proof.
  rewrite debit_lookup. case_decide; [|naive_solver]. split; eauto.
Qed.

Lemma valueOf_credited balances expense j :
  valueOf (credited balances expense) j =
    if decide (paidBy expense = j)
    then n_add (valueOf balances j) (amount expense)
    else valueOf balances j.
Proof.
  unfold valueOf at 1, credited. rewrite credit_lookup.
  by destruct (decide (paidBy expense = j)); subst.
Qed.

Lemma tracked_credited balances expense j :
  is_Some (credited balances expense !! j)
  ↔ paidBy expense = j ∨ is_Some (balances !! j).
Proof.
  unfold credited. rewrite credit_lookup. case_decide; [|naive_solver].
  split; eauto.
Qed.

(** The loop over [splitMembers]: an id is debited once for each of its
    occurrences. *)
Lemma valueOf_debits (l : list string) a balances j :
  valueOf (foldl (λ acc memberId, debit memberId a acc) balances l) j =
    Nat.iter (occurrences j l) (λ v, n_sub v a) (valueOf balances j).
Proof.
  revert balances. induction l as [|k l IH]; intros balances; [done|].
  simpl. rewrite IH, valueOf_debit. unfold occurrences.
  rewrite filter_cons. destruct (decide (k = j)); [|done].
  cbn [length]. by rewrite Nat.iter_succ_r.
Qed.

Lemma tracked_debits (l : list string) a balances j :
  is_Some (foldl (λ acc memberId, debit memberId a acc) balances l !! j)
  ↔ j ∈ l ∨ is_Some (balances !! j).
Proof.
  revert balances. induction l as [|k l IH]; intros balances; simpl.
  - set_solver.
  - rewrite IH, tracked_debit, elem_of_cons. naive_solver.
Qed.

Lemma valueOf_custom (sa : gmap string num) balances j :
  valueOf (map_fold (λ memberId a acc, debit memberId a acc) balances sa) j =
    match sa !! j with
    | Some a => n_sub (valueOf balances j) a
    | None => valueOf balances j
    end.
Proof.
  unfold valueOf at 1. rewrite custom_debits_lookup. by destruct (sa !! j).
Qed.

Lemma tracked_custom (sa : gmap string num) balances j :
  is_Some (map_fold (λ memberId a acc, debit memberId a acc) balances sa !! j)
  ↔ is_Some (sa !! j) ∨ is_Some (balances !! j).
Proof.
  rewrite custom_debits_lookup. destruct (sa !! j); [|naive_solver].
  split; eauto.
Qed.

(** The two branches of [applyExpense]. *)
Lemma applyExpense_skip balances expense :
  paidBy expense = "" → applyExpense balances expense = balances.
Proof. intros H. unfold applyExpense. by rewrite bool_decide_true. Qed.

Lemma applyExpense_custom balances expense sa :
  paidBy expense ≠ "" → hasCustomSplit expense = true →
  splitAmounts expense = Some sa →
  applyExpense balances expense =
    map_fold (λ memberId a acc, debit memberId a acc)
      (credited balances expense) sa.
Proof.
  intros Hp Hc Hsa. unfold applyExpense.
  rewrite bool_decide_false by done. by rewrite Hc, Hsa.
Qed.

Lemma applyExpense_equal balances expense :
  paidBy expense ≠ "" → hasCustomSplit expense = false →
  applyExpense balances expense =
    foldl (λ acc memberId, debit memberId (share expense) acc)
      (credited balances expense) (splitMembers expense).
Proof.
  intros Hp Hc. unfold applyExpense.
  rewrite bool_decide_false by done. rewrite Hc. by destruct (splitAmounts expense).
Qed.

Lemma hasCustomSplit_true expense :
  hasCustomSplit expense = true
  ↔ ∃ sa, splitAmounts expense = Some sa ∧ sa ≠ ∅.
Proof.
  unfold hasCustomSplit. destruct (splitAmounts expense) as [sa|].
  - rewrite (bool_decide_true (is_Some (Some sa))) by eauto.
    rewrite orb_true_r, andb_true_l, bool_decide_eq_true. split.
    + intros Hs. exists sa. split; [done|]. intros ->.
      rewrite map_size_empty in Hs. lia.
    + intros (sa' & [= <-] & Hne).
      destruct (decide (size sa = 0)) as [Hz|Hz]; [|lia].
      by apply map_size_empty_inv in Hz.
  - rewrite andb_false_r. split; [done|]. by intros (? & ? & ?).
Qed.

Lemma hasCustomSplit_false expense :
  hasCustomSplit expense = false
  ↔ splitAmounts expense = None ∨ splitAmounts expense = Some ∅.
Proof.
  rewrite <-not_true_iff_false, hasCustomSplit_true.
  destruct (splitAmounts expense) as [sa|]; [|naive_solver].
  destruct (decide (sa = ∅)); naive_solver.
Qed.

Lemma splitMembers_spec expense : splitMembers expense = splitSet_spec expense.
Proof.
  unfold splitMembers, splitSet_spec.
  destruct (splitBetween expense); [done|].
  rewrite bool_decide_true; [done|]. simpl; lia.
Qed.

Lemma applyExpense_unreferenced balances expense k :
  ¬ references k expense →
  applyExpense balances expense !! k = balances !! k.
Proof.
  intros Hk.
  destruct (decide (paidBy expense = "")) as [Hp|Hp];
    [by rewrite applyExpense_skip|].
  assert (credited balances expense !! k = balances !! k) as Hc.
  { unfold credited. rewrite credit_lookup. rewrite decide_False; [done|].
    intros ?. apply Hk. by left. }
  destruct (hasCustomSplit expense) eqn:Hcs.
  - pose proof Hcs as (sa & Hsa & _)%hasCustomSplit_true.
    rewrite (applyExpense_custom _ _ sa), custom_debits_lookup by done.
    destruct (sa !! k) eqn:E; [|done].
    destruct Hk. right; right. eauto.
  - rewrite applyExpense_equal by done.
    rewrite debits_lookup_notin; [done|].
    rewrite splitMembers_spec. unfold splitSet_spec.
    intros Hin. apply Hk. unfold references.
    destruct (splitBetween expense) eqn:E.
    + left. by apply list_elem_of_singleton in Hin.
    + by right; left.
Qed.

Lemma applyExpense_tracked_mono balances expense k :
  is_Some (balances !! k) → is_Some (applyExpense balances expense !! k).
Proof.
  intros Hk.
  destruct (decide (paidBy expense = "")) as [Hp|Hp];
    [by rewrite applyExpense_skip|].
  assert (is_Some (credited balances expense !! k)) as Hc
    by (apply tracked_credited; by right).
  destruct (hasCustomSplit expense) eqn:Hcs.
  - pose proof Hcs as (sa & Hsa & _)%hasCustomSplit_true.
    rewrite (applyExpense_custom _ _ sa) by done.
    apply tracked_custom. by right.
  - rewrite applyExpense_equal by done. apply tracked_debits. by right.
Qed.

Lemma applyExpenses_tracked_mono (es : list Expense) balances k :
  is_Some (balances !! k) → is_Some (foldl applyExpense balances es !! k).
Proof.
  revert balances. induction es as [|e es IH]; intros balances H; [done|].
  simpl. by apply IH, applyExpense_tracked_mono.
Qed.



Lemma applyExpenses_unreferenced (es : list Expense) balances k :
  (∀ expense, expense ∈ es → ¬ references k expense) →
  foldl applyExpense balances es !! k = balances !! k.
Proof.
  revert balances. induction es as [|e es IH]; intros balances H; [done|].
  simpl. rewrite IH by (intros; apply H; by right).
  apply applyExpense_unreferenced, H. by left.
Qed.

Lemma applyExpense_tracked balances expense k :
  is_Some (applyExpense balances expense !! k)
  ↔ is_Some (balances !! k) ∨ touches expense k.
Proof.
  unfold touches, equallySplitOn.
  destruct (decide (paidBy expense = "")) as [Hp|Hp];
    [rewrite applyExpense_skip by done; naive_solver|].
  destruct (hasCustomSplit expense) eqn:Hcs.
  - pose proof Hcs as (sa & Hsa & Hne)%hasCustomSplit_true.
    rewrite (applyExpense_custom _ _ sa), tracked_custom, tracked_credited
      by done.
    rewrite Hsa. naive_solver.
  - rewrite applyExpense_equal, tracked_debits, tracked_credited by done.
    apply hasCustomSplit_false in Hcs. naive_solver.
Qed.

Lemma applyExpense_value_ext balances balances' expense k :
  valueOf balances k = valueOf balances' k →
  valueOf (applyExpense balances expense) k
  = valueOf (applyExpense balances' expense) k.
Proof.
  intros Hv.
  destruct (decide (paidBy expense = "")) as [Hp|Hp];
    [by rewrite !applyExpense_skip|].
  destruct (hasCustomSplit expense) eqn:Hcs.
  - pose proof Hcs as (sa & Hsa & Hne)%hasCustomSplit_true.
    rewrite !(applyExpense_custom _ _ sa), !valueOf_custom, !valueOf_credited
      by done.
    by rewrite Hv.
  - rewrite !applyExpense_equal, !valueOf_debits, !valueOf_credited by done.
    by rewrite Hv.
Qed.

(** Initialisation on demand: an expense that touches an id not tracked
    yet has the effect it has once the id is set to 0. *)
Lemma applyExpense_zero_initialised balances expense k :
  balances !! k = None → touches expense k →
  applyExpense balances expense
  = applyExpense (<[k := n_zero]> balances) expense.
Proof.
  intros Hk Ht. apply map_eq; intros j.
  rewrite (lookup_as_value (applyExpense balances expense)).
  rewrite (lookup_as_value (applyExpense (<[k:=n_zero]> balances) expense)).
  assert (valueOf balances j = valueOf (<[k:=n_zero]> balances) j) as Hv.
  { unfold valueOf. rewrite lookup_insert. case_decide; [|done].
    subst. by rewrite Hk. }
  rewrite (applyExpense_value_ext _ _ _ _ Hv).
  destruct (decide (is_Some (applyExpense balances expense !! j))) as [H|H],
    (decide (is_Some (applyExpense (<[k:=n_zero]> balances) expense !! j)))
      as [H'|H']; try done.
  - destruct H'. apply applyExpense_tracked.
    apply applyExpense_tracked in H as [H|H]; [|by right].
    left. rewrite lookup_insert. case_decide; [eauto|done].
  - destruct H. apply applyExpense_tracked.
    apply applyExpense_tracked in H' as [H'|H']; [|by right].
    rewrite lookup_insert in H'. case_decide; [|by left].
    subst. by right.
Qed.

Lemma finalBalances_tracks (group : Group) expense k :
  expense ∈ expenses group → touches expense k →
  is_Some (finalBalances group !! k).
Proof.
  unfold finalBalances. generalize (initialBalances (members group)).
  induction (expenses group) as [|e es IH]; intros balances Hin Ht.
  - by apply elem_of_nil in Hin.
  - simpl. apply elem_of_cons in Hin as [<-|Hin]; [|by apply IH].
    apply applyExpenses_tracked_mono, applyExpense_tracked. by right.
Qed.

Lemma finalBalances_tracked (group : Group) k :
  is_Some (finalBalances group !! k)
  ↔ k ∈ member_id <$> members group
    ∨ ∃ expense, expense ∈ expenses group ∧ touches expense k.
Proof.
  unfold finalBalances.
  assert (∀ (es : list Expense) balances,
    is_Some (foldl applyExpense balances es !! k)
    ↔ is_Some (balances !! k) ∨ ∃ expense, expense ∈ es ∧ touches expense k)
    as Hfold.
  { induction es as [|e es IH]; intros balances; cbn [foldl].
    - set_solver.
    - rewrite IH, applyExpense_tracked. set_solver. }
  rewrite Hfold, initialBalances_lookup.
  case_decide; [|split; [intros [[? ?]|?]|]]; naive_solver.
Qed.

Lemma elem_of_computeBalances (group : Group) row :
  row ∈ computeBalances group
  ↔ ∃ m, m ∈ members group
      ∧ row = {| member := m;
                 balance := orZero (finalBalances group !! member_id m) |}.
Proof.
  unfold computeBalances. rewrite list_elem_of_fmap. naive_solver.
Qed.

Lemma computeBalances_members (group : Group) :
  member <$> computeBalances group = members group.
Proof.
  unfold computeBalances. rewrite <-list_fmap_compose.
  induction (members group) as [|m ms IH]; [done|]. simpl. by f_equal.
Qed.

(** C8.  [computeBalances] returns one row per member of the group, in the
    order of [group.members], and the row of a member that no expense names
    (as payer, in [splitBetween] or in [splitAmounts]) has balance 0. *)
Theorem computeBalances_shape `{!JsNumberLaws N} (group : Group) :
  member <$> computeBalances group = members group
  ∧ ∀ row, row ∈ computeBalances group →
      (∀ expense, expense ∈ expenses group →
         ¬ references (member_id (member row)) expense) →
      balance row = n_zero.
Proof.
  split; [apply computeBalances_members|].
  intros row (m & Hm & ->)%elem_of_computeBalances Hun. simpl in *.
  unfold finalBalances.
  rewrite applyExpenses_unreferenced, initialBalances_lookup by done.
  rewrite decide_True by (by apply list_elem_of_fmap_2).
  simpl. by rewrite truthy_zero.
Qed.

(** C4, as amended.  The custom branch is taken exactly when [splitAmounts]
    is present and not empty, whatever [splitMode] says.  An expense with a
    payer that takes it debits every id of [splitAmounts] by the amount
    mapped to it, as it is, after the payer has been credited; an id that
    is neither in [splitAmounts] nor the payer keeps its balance. *)
Theorem custom_split_rule (expense : Expense) :
  (hasCustomSplit expense = true
   ↔ ∃ sa, splitAmounts expense = Some sa ∧ sa ≠ ∅)
  ∧ ∀ sa balances,
      paidBy expense ≠ "" → splitAmounts expense = Some sa → sa ≠ ∅ →
      ∀ k,
        applyExpense balances expense !! k =
          match sa !! k with
          | Some a => Some (n_sub (valueOf (credited balances expense) k) a)
          | None => credited balances expense !! k
          end
        ∧ (sa !! k = None → k ≠ paidBy expense →
           applyExpense balances expense !! k = balances !! k).
Proof.
  split; [apply hasCustomSplit_true|].
  intros sa balances Hp Hsa Hne k.
  assert (hasCustomSplit expense = true) as Hcs
    by (apply hasCustomSplit_true; eauto).
  rewrite (applyExpense_custom _ _ sa), custom_debits_lookup by done.
  split; [done|]. intros -> Hk.
  unfold credited. rewrite credit_lookup. by rewrite decide_False.
Qed.

(** An expense without payer touches no id, and an expense that takes
    the custom branch touches only its payer and the keys of its
    [splitAmounts], whatever its [splitBetween] names. *)
Lemma touches_only expense k :
  paidBy expense = ""
  ∨ (hasCustomSplit expense = true ∧ paidBy expense ≠ k
     ∧ ∀ sa, splitAmounts expense = Some sa → sa !! k = None) →
  ¬ touches expense k.
Proof.
  intros [Hp|(Hcs & Hk & Hsa)] (Hpayer & Ht); [done|].
  destruct Ht as [Ht|[[Heq _]|(sa & Hs & _ & Hin)]].
  - done.
  - by rewrite Hcs in Heq.
  - rewrite (Hsa sa Hs) in Hin. by destruct Hin.
Qed.

(** C5, as amended.  [computeBalances] is a total function: no members
    gives no rows, no expenses gives balance 0 in every row.  An id that an
    expense with a payer touches (as its payer, or as a target of the
    branch that is taken) is tracked in the balances object whether it is a
    member or not; if it was not tracked before, the expense has the effect
    it has after the id is set to 0; and an id that is not a member's is in
    no returned row.  The ids tracked are the members' and those that an
    expense touches, and no other: an id that is not a member's and that
    is named only in the [splitBetween] of expenses that take the custom
    branch, or only by expenses without payer, is not tracked. *)
Theorem unknown_ids_tracked_not_listed `{!JsNumberLaws N} (group : Group) :
  (members group = [] → computeBalances group = [])
  ∧ (expenses group = [] →
     ∀ row, row ∈ computeBalances group → balance row = n_zero)
  ∧ (∀ expense k, expense ∈ expenses group → touches expense k →
     is_Some (finalBalances group !! k))
  ∧ (∀ balances expense k, balances !! k = None → touches expense k →
     applyExpense balances expense
     = applyExpense (<[k := n_zero]> balances) expense)
  ∧ (∀ k, k ∉ member_id <$> members group →
     ∀ row, row ∈ computeBalances group → member_id (member row) ≠ k)
  ∧ (∀ k, is_Some (finalBalances group !! k)
          ↔ k ∈ member_id <$> members group
            ∨ ∃ expense, expense ∈ expenses group ∧ touches expense k)
  ∧ (∀ k, k ∉ member_id <$> members group →
     (∀ expense, expense ∈ expenses group →
        paidBy expense = ""
        ∨ (hasCustomSplit expense = true ∧ paidBy expense ≠ k
           ∧ ∀ sa, splitAmounts expense = Some sa → sa !! k = None)) →
     finalBalances group !! k = None).
Proof.
  split_and!.
  - intros H. unfold computeBalances. by rewrite H.
  - intros H row (m & Hm & ->)%elem_of_computeBalances. simpl.
    unfold finalBalances. rewrite H. simpl.
    rewrite initialBalances_lookup.
    rewrite decide_True by (by apply list_elem_of_fmap_2).
    simpl. by rewrite truthy_zero.
  - apply finalBalances_tracks.
  - apply applyExpense_zero_initialised.
  - intros k Hk row (m & Hm & ->)%elem_of_computeBalances. simpl.
    intros <-. apply Hk. by apply list_elem_of_fmap_2.
  - apply finalBalances_tracked.
  - intros k Hk Hnamed. apply eq_None_not_Some.
    intros [Hm|(expense & Hin & Ht)]%finalBalances_tracked; [done|].
    by apply (touches_only expense k (Hnamed expense Hin)).
Qed.

(** The equal-split branch, whatever the numbers. *)
Lemma share_any expense :
  share expense
  = n_div (amount expense) (n_of_length (length (splitSet_spec expense))).
Proof.
  unfold share, splitCount. rewrite splitMembers_spec. unfold splitSet_spec.
  by destruct (splitBetween expense).
Qed.

Lemma equal_split_any expense balances :
  paidBy expense ≠ "" →
  splitAmounts expense = None ∨ splitAmounts expense = Some ∅ →
  share expense
  = n_div (amount expense) (n_of_length (length (splitSet_spec expense)))
  ∧ (∀ k, valueOf (applyExpense balances expense) k
          = Nat.iter (occurrences k (splitSet_spec expense))
              (λ v, n_sub v (share expense))
              (if decide (paidBy expense = k)
               then n_add (valueOf balances k) (amount expense)
               else valueOf balances k))
  ∧ (∀ k, is_Some (applyExpense balances expense !! k)
          ↔ is_Some (balances !! k) ∨ paidBy expense = k
            ∨ k ∈ splitSet_spec expense).
Proof.
  intros Hp Hcs%hasCustomSplit_false. split_and!.
  - apply share_any.
  - intros k. rewrite applyExpense_equal, valueOf_debits by done.
    by rewrite valueOf_credited, splitMembers_spec.
  - intros k. rewrite applyExpense_equal, tracked_debits by done.
    rewrite tracked_credited, splitMembers_spec. naive_solver.
Qed.

(** The expenses that the equal-split rule does not cover: one without
    payer changes nothing, and one with a payer and a [splitAmounts] that
    is not empty is debited by [splitAmounts], whatever its split mode and
    its [splitBetween]. *)
Lemma other_branches_any expense balances :
  (paidBy expense = "" → applyExpense balances expense = balances)
  ∧ (∀ sa, paidBy expense ≠ "" → splitAmounts expense = Some sa → sa ≠ ∅ →
     ∀ k, applyExpense balances expense !! k =
            match sa !! k with
            | Some a => Some (n_sub (valueOf (credited balances expense) k) a)
            | None => credited balances expense !! k
            end).
Proof.
  split; [apply applyExpense_skip|].
  intros sa Hp Hsa Hne k.
  assert (hasCustomSplit expense = true) as Hcs
    by (apply hasCustomSplit_true; eauto).
  by rewrite (applyExpense_custom _ _ sa), custom_debits_lookup.
Qed.

End Balances.

(** ** Exact arithmetic: facts about the numbers *)

(** Order goals over [Qc] are sent to [Q], where [lra] decides them. *)
Ltac qc_to_q :=
  unfold Exact.of_Z in *;
  repeat match goal with
  | H : @eq Qc _ _ |- _ => apply (f_equal this) in H
  | |- @eq Qc _ _ => apply Qc_is_canon
  | H : ¬ @eq Qc _ _ |- _ =>
      let H' := fresh in
      assert (H' := λ E, H (Qc_is_canon _ _ E)); clear H
  end;
  unfold Qcle, Qclt, Qcminus, Qcdiv in *;
  cbn [this Qcplus Qcmult Qcopp Q2Qc] in *;
  rewrite ?Qred_correct in *.

(** The operations of [exact] are those of [Qc]. *)
Ltac unfold_exact :=
  change (@num exact) with Qc in *;
  change (@n_zero exact) with 0%Qc in *;
  change (@n_one exact) with 1%Qc in *;
  change (@n_add exact) with Qcplus in *;
  change (@n_sub exact) with Qcminus in *;
  change (@n_mul exact) with Qcmult in *;
  change (@n_div exact) with Qcdiv in *.

(** Terms built by the engine have type [num]; [ring] and [lra] want
    them as atoms of type [Qc]. *)
Ltac qc_atoms :=
  unfold_exact;
  repeat match goal with
  | |- context [?t] =>
      lazymatch type of t with
      | @num exact =>
          let x := fresh "q" in set (x := t) in *; clearbody x; unfold_exact
      end
  end.

Ltac qc_ring := qc_atoms; ring.

Section ExactNumbers.
Local Open Scope Qc_scope.

Lemma of_Z_add a b : Exact.of_Z (a + b) = Exact.of_Z a + Exact.of_Z b.
Proof. qc_to_q. by rewrite inject_Z_plus. Qed.

Lemma of_Z_0 : Exact.of_Z 0 = 0.
Proof. by apply Qc_is_canon. Qed.

Lemma of_Z_1 : Exact.of_Z 1 = 1.
Proof. by apply Qc_is_canon. Qed.

Lemma of_nat_0 : Exact.of_Z (Z.of_nat 0) = 0.
Proof. by apply Qc_is_canon. Qed.

Lemma of_nat_S (n : nat) :
  Exact.of_Z (Z.of_nat (S n)) = Exact.of_Z (Z.of_nat n) + 1.
Proof. by rewrite Nat2Z.inj_succ, <-Z.add_1_r, of_Z_add, of_Z_1. Qed.

Lemma of_Z_le a b : (a ≤ b)%Z ↔ (Exact.of_Z a ≤ Exact.of_Z b).
Proof. qc_to_q. by rewrite <-Zle_Qle. Qed.


Lemma of_Z_inj a b : Exact.of_Z a = Exact.of_Z b → a = b.
Proof.
  intros H. apply Z.le_antisymm; apply of_Z_le; rewrite H; apply Qcle_refl.
Qed.

Lemma of_nat_S_nonzero (n : nat) : Exact.of_Z (Z.of_nat (S n)) ≠ 0.
Proof. rewrite <-of_Z_0. intros H%of_Z_inj. lia. Qed.

End ExactNumbers.

(** ** computeBalances in exact arithmetic *)

Section ExactBalances.
#[local] Existing Instance exact.
Local Open Scope Qc_scope.
Implicit Types (balances : gmap string num) (expense : Expense) (k : string).
Implicit Types (a v w : num).

Lemma iter_sub (n : nat) (a v : num) :
  Nat.iter n (λ v, n_sub v a) v = v - Exact.of_Z (Z.of_nat n) * a.
Proof.
  induction n as [|n IH].
  - cbn [Nat.iter nat_rect]. rewrite of_nat_0. qc_ring.
  - rewrite Nat.iter_succ, IH, of_nat_S.
    qc_ring.
Qed.

Lemma sumList_const (l : list string) (a : num) :
  sumList ((λ _, a) <$> l) = Exact.of_Z (Z.of_nat (length l)) * a.
Proof.
  induction l as [|k l IH].
  - cbn [fmap list_fmap length sumList foldr]. rewrite of_nat_0. qc_ring.
  - unfold sumList in *. rewrite fmap_cons. cbn [length foldr].
    rewrite IH, of_nat_S. qc_ring.
Qed.

Lemma splitSet_nonempty expense : ∃ n, length (splitSet_spec expense) = S n.
Proof. unfold splitSet_spec. destruct (splitBetween expense); simpl; eauto. Qed.

Lemma share_exact expense :
  share expense
  = amount expense / Exact.of_Z (Z.of_nat (length (splitSet_spec expense))).
Proof.
  unfold share, splitCount. rewrite splitMembers_spec.
  by destruct (splitSet_nonempty expense) as [n ->].
Qed.

Lemma shares_add_up expense :
  Exact.of_Z (Z.of_nat (length (splitSet_spec expense))) * share expense
  = amount expense.
Proof.
  rewrite share_exact. destruct (splitSet_nonempty expense) as [n ->].
  field. apply of_nat_S_nonzero.
Qed.

(** The equal-split branch in exact arithmetic, where the debits add up
    to the amount. *)
Lemma equal_split_exact expense balances :
  paidBy expense ≠ "" →
  splitAmounts expense = None ∨ splitAmounts expense = Some ∅ →
  share expense
  = amount expense / Exact.of_Z (Z.of_nat (length (splitSet_spec expense)))
  ∧ (∀ k, valueOf (applyExpense balances expense) k
          = valueOf balances k
            + (if decide (paidBy expense = k) then amount expense else 0)
            - Exact.of_Z (Z.of_nat (occurrences k (splitSet_spec expense)))
              * share expense)
  ∧ (∀ k, is_Some (applyExpense balances expense !! k)
          ↔ is_Some (balances !! k) ∨ paidBy expense = k
            ∨ k ∈ splitSet_spec expense)
  ∧ sumList ((λ _, share expense) <$> splitSet_spec expense) = amount expense.
Proof.
  intros Hp Hcs%hasCustomSplit_false. split_and!.
  - apply share_exact.
  - intros k. rewrite applyExpense_equal, valueOf_debits by done.
    rewrite iter_sub, valueOf_credited, splitMembers_spec.
    case_decide; simpl; qc_ring.
  - intros k. rewrite applyExpense_equal, tracked_debits by done.
    rewrite tracked_credited, splitMembers_spec. naive_solver.
  - rewrite sumList_const. apply shares_add_up.
Qed.

(** *** The sum of all balances *)

Lemma totalBalance_insert balances k v :
  balances !! k = None →
  totalBalance (<[k := v]> balances) = v + totalBalance balances.
Proof.
  intros Hk. unfold totalBalance. rewrite map_fold_insert_L; [done| |done].
  intros. qc_ring.
Qed.

Lemma totalBalance_delete balances k v :
  balances !! k = Some v →
  totalBalance balances = v + totalBalance (delete k balances).
Proof.
  intros Hk. rewrite <-(insert_delete_id balances k v) at 1 by done.
  apply totalBalance_insert, lookup_delete_eq.
Qed.

Lemma totalBalance_alter balances k (f : num → num) v :
  balances !! k = Some v →
  totalBalance (alter f k balances) = totalBalance balances - v + f v.
Proof.
  intros Hk.
  rewrite (totalBalance_delete (alter f k balances) k (f v))
    by (by rewrite lookup_alter_eq, Hk).
  rewrite delete_alter_eq, (totalBalance_delete balances k v) by done.
  qc_ring.
Qed.

Lemma track_lookup_eq balances k :
  track k balances !! k = Some (valueOf balances k).
Proof. rewrite track_lookup. by destruct (decide (k = k)). Qed.

Lemma totalBalance_track balances k :
  totalBalance (track k balances) = totalBalance balances.
Proof.
  unfold track. destruct (balances !! k) eqn:Hk; [done|].
  rewrite totalBalance_insert by done. qc_ring.
Qed.

Lemma totalBalance_debit balances k a :
  totalBalance (debit k a balances) = totalBalance balances - a.
Proof.
  unfold debit.
  rewrite (totalBalance_alter _ _ _ _ (track_lookup_eq balances k)).
  rewrite totalBalance_track. qc_ring.
Qed.

Lemma totalBalance_credited balances expense :
  totalBalance (credited balances expense)
  = totalBalance balances + amount expense.
Proof.
  unfold credited, credit.
  rewrite (totalBalance_alter _ _ _ _ (track_lookup_eq balances _)).
  rewrite totalBalance_track. qc_ring.
Qed.

Lemma totalBalance_debits (l : list string) a balances :
  totalBalance (foldl (λ acc memberId, debit memberId a acc) balances l)
  = totalBalance balances - Exact.of_Z (Z.of_nat (length l)) * a.
Proof.
  revert balances. induction l as [|k l IH]; intros balances.
  - cbn [foldl length]. rewrite of_nat_0. qc_ring.
  - cbn [foldl length]. rewrite IH, totalBalance_debit, of_nat_S. qc_ring.
Qed.

Lemma customTotal_insert (sa : gmap string num) k a :
  sa !! k = None → customTotal (<[k := a]> sa) = a + customTotal sa.
Proof.
  intros Hk. unfold customTotal. rewrite map_fold_insert_L; [done| |done].
  intros. qc_ring.
Qed.

Lemma totalBalance_custom (sa : gmap string num) balances :
  totalBalance (map_fold (λ memberId a acc, debit memberId a acc) balances sa)
  = totalBalance balances - customTotal sa.
Proof.
  induction sa as [|k a sa Hk Hfirst IH] using map_first_key_ind.
  - rewrite map_fold_empty. unfold customTotal. rewrite map_fold_empty.
    qc_ring.
  - rewrite map_fold_insert_first_key by done.
    rewrite totalBalance_debit, IH, customTotal_insert by done. qc_ring.
Qed.

(** What one expense adds to the sum of all balances. *)
Lemma totalBalance_applyExpense balances expense :
  totalBalance (applyExpense balances expense)
  = totalBalance balances
    + (if decide (paidBy expense = "") then 0
       else match splitAmounts expense with
            | Some sa => if decide (sa = ∅) then 0
                         else amount expense - customTotal sa
            | None => 0
            end).
Proof.
  case_decide as Hp; [rewrite applyExpense_skip by done;qc_ring|].
  destruct (hasCustomSplit expense) eqn:Hcs.
  - pose proof Hcs as (sa & Hsa & Hne)%hasCustomSplit_true.
    rewrite (applyExpense_custom _ _ sa) by done.
    rewrite totalBalance_custom, totalBalance_credited, Hsa.
    rewrite decide_False by done. qc_ring.
  - rewrite applyExpense_equal by done.
    rewrite totalBalance_debits, totalBalance_credited, splitMembers_spec.
    rewrite shares_add_up.
    apply hasCustomSplit_false in Hcs as [->| ->]; [qc_ring|].
    rewrite decide_True by done. qc_ring.
Qed.

Lemma totalBalance_zeros balances :
  (∀ k v, balances !! k = Some v → v = 0) → totalBalance balances = 0.
Proof.
  induction balances as [|k v m Hk Hfirst IH] using map_first_key_ind;
    intros Hz.
  - unfold totalBalance. by rewrite map_fold_empty.
  - rewrite totalBalance_insert by done.
    rewrite (Hz k v) by apply lookup_insert_eq.
    rewrite IH; [qc_ring|]. intros j w Hj. apply (Hz j).
    rewrite lookup_insert_ne; [done|]. intros ->. by rewrite Hk in Hj.
Qed.

Lemma totalBalance_applyExpenses (es : list Expense) balances :
  (∀ expense sa, expense ∈ es → paidBy expense ≠ "" →
     splitAmounts expense = Some sa → sa ≠ ∅ →
     customTotal sa = amount expense) →
  totalBalance (foldl applyExpense balances es) = totalBalance balances.
Proof.
  revert balances. induction es as [|e es IH]; intros balances H; [done|].
  cbn [foldl]. rewrite IH by (intros ???; apply H; by right).
  rewrite totalBalance_applyExpense. case_decide as Hp; [qc_ring|].
  destruct (splitAmounts e) as [sa|] eqn:Hsa; [|qc_ring].
  case_decide as Hne; [qc_ring|].
  rewrite (H e sa) by (done || by left). qc_ring.
Qed.

Lemma totalBalance_initial (ms : list Member) :
  totalBalance (initialBalances ms) = 0.
Proof.
  apply totalBalance_zeros. intros k v. rewrite initialBalances_lookup.
  case_decide; naive_solver.
Qed.

Lemma orZero_exact (v : option num) : orZero v = default 0 v.
Proof.
  destruct v as [v|]; [|done]. simpl.
  case_bool_decide as Hv; simpl; by rewrite ?Hv.
Qed.

(** The rows list every tracked id once when the member ids are distinct
    and nothing else is tracked. *)
Lemma sum_rows (ms : list Member) balances :
  NoDup (member_id <$> ms) →
  (∀ k, is_Some (balances !! k) ↔ k ∈ member_id <$> ms) →
  sumList ((λ m, orZero (balances !! member_id m)) <$> ms)
  = totalBalance balances.
Proof.
  revert balances.
  induction ms as [|m ms IH]; intros balances Hnd Hdom.
  - assert (balances = ∅) as ->.
    { apply map_empty. intros k. apply eq_None_not_Some.
      rewrite Hdom. set_solver. }
    unfold totalBalance. by rewrite map_fold_empty.
  - rewrite fmap_cons in Hnd. apply NoDup_cons in Hnd as [Hm Hnd].
    destruct (proj2 (Hdom (member_id m))) as [v Hv]; [set_solver|].
    cbn [fmap list_fmap sumList foldr].
    rewrite (totalBalance_delete balances (member_id m) v) by done.
    rewrite <-(IH (delete (member_id m) balances)); [| done |].
    + rewrite Hv, orZero_exact. simpl. f_equal.
      unfold sumList. f_equal. apply list_fmap_ext; intros i m' Hm'.
      rewrite lookup_delete_ne; [done|]. intros E. apply Hm.
      rewrite E. apply list_elem_of_fmap_2. by eapply list_elem_of_lookup_2.
    + intros k. rewrite lookup_delete. case_decide as Hk.
      * subst. split; [by intros [? ?]|done].
      * rewrite Hdom, fmap_cons, elem_of_cons. naive_solver.
Qed.

(** C1, as amended.  In exact arithmetic, when every custom split that is
    applied adds up to the amount of its expense, the balances of all
    tracked ids sum to 0; and the balances of the returned rows sum to 0
    when, in addition, the member ids are distinct and every id that an
    expense touches is a member's. *)
Theorem balances_zero_sum (group : Group) :
  (∀ expense sa, expense ∈ expenses group → paidBy expense ≠ "" →
     splitAmounts expense = Some sa → sa ≠ ∅ →
     customTotal sa = amount expense) →
  totalBalance (finalBalances group) = 0
  ∧ (NoDup (member_id <$> members group) →
     (∀ expense k, expense ∈ expenses group → touches expense k →
        k ∈ member_id <$> members group) →
     sumList (balance <$> computeBalances group) = 0).
Proof.
  intros Hsum.
  assert (totalBalance (finalBalances group) = 0) as Htotal.
  { unfold finalBalances.
    by rewrite totalBalance_applyExpenses, totalBalance_initial. }
  split; [done|]. intros Hnd Hmem.
  unfold computeBalances. rewrite <-list_fmap_compose.
  rewrite <-Htotal. apply sum_rows; [done|].
  intros k. rewrite finalBalances_tracked. naive_solver.
Qed.

End ExactBalances.

(** C3, as amended.  Whatever the numbers (binary64 or exact), an expense
    that has a payer and whose [splitAmounts] is absent or empty, whatever
    its split mode, has as its share the amount divided by the size of the
    split set ([splitBetween], or the payer alone when that is empty); it
    credits the payer with the amount and then takes the share from the
    balance of every id, once for each occurrence of the id in the split
    set; and the ids tracked afterwards are those tracked before, the
    payer and the split set.  An expense without payer changes nothing,
    and an expense with a payer and a [splitAmounts] that is not empty is
    debited by [splitAmounts] instead, whatever its split mode.  In exact
    arithmetic the debits of the equal split add up to the amount. *)
Theorem equal_split_rule :
  (∀ (N : JsNumber) (expense : Expense) (balances : gmap string num),
     paidBy expense ≠ "" →
     splitAmounts expense = None ∨ splitAmounts expense = Some ∅ →
     share expense
     = n_div (amount expense) (n_of_length (length (splitSet_spec expense)))
     ∧ (∀ k, valueOf (applyExpense balances expense) k
             = Nat.iter (occurrences k (splitSet_spec expense))
                 (λ v, n_sub v (share expense))
                 (if decide (paidBy expense = k)
                  then n_add (valueOf balances k) (amount expense)
                  else valueOf balances k))
     ∧ (∀ k, is_Some (applyExpense balances expense !! k)
             ↔ is_Some (balances !! k) ∨ paidBy expense = k
               ∨ k ∈ splitSet_spec expense))
  ∧ (∀ (N : JsNumber) (expense : Expense) (balances : gmap string num),
       (paidBy expense = "" → applyExpense balances expense = balances)
       ∧ (∀ sa, paidBy expense ≠ "" → splitAmounts expense = Some sa →
          sa ≠ ∅ →
          ∀ k, applyExpense balances expense !! k =
                 match sa !! k with
                 | Some a =>
                     Some (n_sub (valueOf (credited balances expense) k) a)
                 | None => credited balances expense !! k
                 end))
  ∧ (∀ (expense : @Expense exact) (balances : gmap string (@num exact)),
       paidBy expense ≠ "" →
       splitAmounts expense = None ∨ splitAmounts expense = Some ∅ →
       (∀ k, valueOf (applyExpense balances expense) k
             = (valueOf balances k
                + (if decide (paidBy expense = k) then amount expense else 0)
                - Exact.of_Z (Z.of_nat (occurrences k (splitSet_spec expense)))
                  * share expense)%Qc)
       ∧ sumList ((λ _, share expense) <$> splitSet_spec expense)
         = amount expense).
Proof.
  split_and!.
  - intros N. apply equal_split_any.
  - intros N. apply other_branches_any.
  - intros expense balances Hp Hsa.
    destruct (equal_split_exact expense balances Hp Hsa) as (_ & H & _ & Hsum).
    by split.
Qed.

(** ** Exact arithmetic: rounding to cents *)

Section ExactCents.
#[local] Existing Instance exact.
Local Open Scope Qc_scope.
Implicit Types (a b d c q : num).

Lemma Qfloor_half (k : Z) : Qfloor (inject_Z k + (1 # 2)) = k.
Proof.
  pose proof (Qfloor_le (inject_Z k + (1 # 2))) as Hle.
  pose proof (Qlt_floor (inject_Z k + (1 # 2))) as Hlt.
  rewrite inject_Z_plus in Hlt.
  apply Z.le_antisymm.
  - apply Z.lt_succ_r. rewrite Zlt_Qlt. unfold Z.succ.
    rewrite inject_Z_plus. change (inject_Z 1) with 1%Q in *. lra.
  - apply Z.lt_succ_r. rewrite Zlt_Qlt. unfold Z.succ.
    rewrite inject_Z_plus. change (inject_Z 1) with 1%Q in *. lra.
Qed.

Lemma round_of_Z (k : Z) : n_round (Exact.of_Z k) = Exact.of_Z k.
Proof.
  simpl. unfold Exact.round. f_equal. rewrite <-(Qfloor_half k) at 2.
  apply Qfloor_comp. unfold Exact.of_Z. simpl. by rewrite !Qred_correct.
Qed.

Lemma of_Z_100_nonzero : Exact.of_Z 100 ≠ 0.
Proof. rewrite <-of_Z_0. by intros ?%of_Z_inj. Qed.

Lemma centsQ_times_100 (k : Z) : Exact.centsQ k * Exact.of_Z 100 = Exact.of_Z k.
Proof. unfold Exact.centsQ. field. apply of_Z_100_nonzero. Qed.

Lemma roundToCents_centsQ (k : Z) :
  roundToCents (Exact.centsQ k) = Exact.centsQ k.
Proof.
  unfold roundToCents. unfold_exact. change n_hundred with (Exact.of_Z 100).
  by rewrite centsQ_times_100, round_of_Z.
Qed.

Lemma centsQ_0 : Exact.centsQ 0 = 0.
Proof. by apply Qc_is_canon. Qed.

Lemma centsQ_1 : Exact.centsQ 1 = n_cent.
Proof. by apply Qc_is_canon. Qed.

Lemma centsQ_sub (j k : Z) :
  Exact.centsQ (j - k) = Exact.centsQ j - Exact.centsQ k.
Proof.
  unfold Exact.centsQ. replace (j - k)%Z with (j + - k)%Z by lia.
  rewrite of_Z_add. replace (Exact.of_Z (- k)) with (- Exact.of_Z k).
  - field. apply of_Z_100_nonzero.
  - qc_to_q. rewrite inject_Z_opp. reflexivity.
Qed.

Lemma centsQ_le (j k : Z) : (j ≤ k)%Z ↔ (Exact.centsQ j ≤ Exact.centsQ k).
Proof.
  rewrite of_Z_le. unfold Exact.centsQ. qc_to_q.
  change (inject_Z 100) with (100 # 1)%Q.
  split; intros H.
  - apply Qmult_le_compat_r; [done|]. by vm_compute.
  - apply (Qmult_le_r _ _ (/ (100 # 1))%Q); [reflexivity|done].
Qed.



Lemma ltb_exact a b : n_ltb a b = true ↔ a < b.
Proof. simpl. unfold Exact.ltb. apply bool_decide_eq_true. Qed.

Lemma ltb_exact_false a b : n_ltb a b = false ↔ b ≤ a.
Proof.
  simpl. unfold Exact.ltb. rewrite bool_decide_eq_false. split.
  - apply Qcnot_lt_le.
  - intros H1 H2. exact (Qclt_not_le _ _ H2 H1).
Qed.

Lemma leb_exact a b : n_leb a b = true ↔ a ≤ b.
Proof. simpl. unfold Exact.leb. apply bool_decide_eq_true. Qed.


Lemma abs_exact a : n_abs a = if n_ltb a 0 then - a else a.
Proof. reflexivity. Qed.

Lemma abs_nonneg a : 0 ≤ n_abs a.
Proof.
  rewrite abs_exact. destruct (n_ltb a 0) eqn:E.
  - apply ltb_exact in E. qc_to_q. lra.
  - by apply ltb_exact_false in E.
Qed.

Lemma abs_lt a b : - b < a → a < b → n_abs a < b.
Proof.
  intros H1 H2. rewrite abs_exact. destruct (n_ltb a 0); [|done].
  qc_to_q. lra.
Qed.

Lemma Qfloor_unique (x : Q) (z : Z) :
  (inject_Z z <= x)%Q → (x < inject_Z z + 1)%Q → Qfloor x = z.
Proof.
  intros H1 H2.
  pose proof (Qfloor_le x) as Hle. pose proof (Qlt_floor x) as Hlt.
  rewrite inject_Z_plus in Hlt. change (inject_Z 1) with 1%Q in *.
  apply Z.le_antisymm.
  - apply Z.lt_succ_r. rewrite Zlt_Qlt. unfold Z.succ.
    rewrite inject_Z_plus. change (inject_Z 1) with 1%Q. lra.
  - apply Z.lt_succ_r. rewrite Zlt_Qlt. unfold Z.succ.
    rewrite inject_Z_plus. change (inject_Z 1) with 1%Q. lra.
Qed.

(** [roundToCents] always yields a whole number of cents. *)
Lemma roundToCents_eq q :
  roundToCents q
  = Exact.centsQ (Qfloor (q * Exact.of_Z 100 + Q2Qc (1 # 2))%Qc).
Proof. reflexivity. Qed.

Lemma roundToCents_nonneg q : 0 ≤ q → Exact.cents (roundToCents q).
Proof.
  intros Hq. rewrite roundToCents_eq. eexists. split; [|done].
  change 0%Z with (Qfloor 0). apply Qfloor_resp_le.
  qc_to_q. change (inject_Z 100) with (100 # 1)%Q. lra.
Qed.

Lemma roundToCents_small q : 0 ≤ q → q < Q2Qc (1 # 200) → roundToCents q = 0.
Proof.
  intros H0 H1. rewrite roundToCents_eq, <-centsQ_0. f_equal.
  apply Qfloor_unique; qc_to_q; change (inject_Z 100) with (100 # 1)%Q;
    change (inject_Z 0) with 0%Q; lra.
Qed.

Lemma cents_nonneg q : Exact.cents q → 0 ≤ q.
Proof.
  intros (k & Hk%centsQ_le & ->). by rewrite centsQ_0 in Hk.
Qed.

Lemma cents_round q : Exact.cents q → roundToCents q = q.
Proof. intros (k & Hk & ->). apply roundToCents_centsQ. Qed.

Lemma cents_min d c :
  Exact.cents d → Exact.cents c →
  Exact.cents (n_min d c) ∧ (n_min d c = d ∨ n_min d c = c)
  ∧ n_min d c ≤ d ∧ n_min d c ≤ c.
Proof.
  intros Hd Hc. change (n_min d c) with (if n_ltb c d then c else d).
  destruct (n_ltb c d) eqn:E.
  - apply ltb_exact in E. split_and!; [done|by right| |apply Qcle_refl].
    by apply Qclt_le_weak.
  - apply ltb_exact_false in E. split_and!; [done|by left|apply Qcle_refl|done].
Qed.

Lemma cents_sub d p :
  Exact.cents d → Exact.cents p → p ≤ d → Exact.cents (d - p).
Proof.
  intros (j & Hj & ->) (k & Hk & ->) Hle%centsQ_le.
  exists (j - k)%Z. split; [lia|]. by rewrite centsQ_sub.
Qed.


End ExactCents.

(** ** computeSettlements, for any numbers *)

(** Case analysis on the condition of an [if] of the goal. *)
Ltac destruct_if :=
  match goal with
  | |- context [if ?b then _ else _] => destruct b eqn:?
  end.

Ltac destruct_if_in H :=
  match type of H with
  | context [if ?b then _ else _] => destruct b eqn:?
  end.

Section Settlements.
Context {N : JsNumber}.
Implicit Types (st : Loop) (rows : list BalanceRow).

(** The state after an iteration, spelled out. *)
Lemma iteration_Some st st' :
  iteration st = Some st' →
  ∃ debtor creditor,
    debtors st !! debtorIndex st = Some debtor
    ∧ creditors st !! creditorIndex st = Some creditor
    ∧ let payment := n_min (owed debtor) (owed creditor) in
      let debtor' := roundToCents (n_sub (owed debtor) payment) in
      let creditor' := roundToCents (n_sub (owed creditor) payment) in
      debtors st'
        = <[debtorIndex st := {| party := party debtor; owed := debtor' |}]>
            (debtors st)
      ∧ creditors st'
        = <[creditorIndex st :=
              {| party := party creditor; owed := creditor' |}]>
            (creditors st)
      ∧ debtorIndex st'
        = (if n_leb debtor' n_cent then S (debtorIndex st)
           else debtorIndex st)
      ∧ creditorIndex st'
        = (if n_leb creditor' n_cent then S (creditorIndex st)
           else creditorIndex st)
      ∧ settlements st'
        = if n_ltb n_zero payment
          then settlements st
               ++ [{| from := party debtor; to := party creditor;
                      settled := payment |}]
          else settlements st.
Proof.
  unfold iteration.
  destruct (debtors st !! debtorIndex st) as [debtor|]; [|done].
  destruct (creditors st !! creditorIndex st) as [creditor|]; [|done].
  intros [= <-]. exists debtor, creditor. by split_and!.
Qed.


Lemma while_more_fuel fuel fuel' st st' :
  while fuel st = Some st' → fuel ≤ fuel' → while fuel' st = Some st'.
Proof.
  revert fuel' st. induction fuel as [|fuel IH]; intros fuel' st H Hle.
  - destruct fuel'; simpl in *; destruct (iteration st); done.
  - destruct fuel' as [|fuel']; [lia|]. simpl in *.
    destruct (iteration st); [|done]. apply IH; [done|lia].
Qed.

(** The result does not depend on the iterations allowed, once they
    suffice. *)
Lemma computeSettlements_deterministic fuel fuel' rows result result' :
  computeSettlements fuel rows = Some result →
  computeSettlements fuel' rows = Some result' →
  result = result'.
Proof.
  unfold computeSettlements.
  destruct (while fuel (start rows)) as [st|] eqn:E; [|done].
  destruct (while fuel' (start rows)) as [st'|] eqn:E'; [|done].
  intros [= <-] [= <-].
  destruct (Nat.le_ge_cases fuel fuel') as [Hle|Hle].
  - apply (while_more_fuel _ _ _ _ E) in Hle. congruence.
  - apply (while_more_fuel _ _ _ _ E') in Hle. congruence.
Qed.

(** The loop keeps what every iteration keeps. *)
Lemma while_preserves (I : Loop → Prop) :
  (∀ st st', I st → iteration st = Some st' → I st') →
  ∀ fuel st st', I st → while fuel st = Some st' →
    I st' ∧ iteration st' = None.
Proof.
  intros Hstep. induction fuel as [|fuel IH]; intros st st' Hst; simpl.
  - destruct (iteration st) eqn:E; [done|]. by intros [= <-].
  - destruct (iteration st) as [st1|] eqn:E.
    + apply IH. by eapply Hstep.
    + by intros [= <-].
Qed.

(** The loop ends when every iteration lowers a measure. *)
Lemma while_terminates (I : Loop → Prop) (measure : Loop → nat) :
  (∀ st st', I st → iteration st = Some st' →
     I st' ∧ measure st' < measure st) →
  ∀ fuel st, I st → measure st ≤ fuel →
    ∃ st', while fuel st = Some st' ∧ I st' ∧ iteration st' = None.
Proof.
  intros Hstep. induction fuel as [|fuel IH]; intros st Hst Hfuel; simpl.
  - destruct (iteration st) as [st1|] eqn:E; [|by eauto].
    destruct (Hstep _ _ Hst E). lia.
  - destruct (iteration st) as [st1|] eqn:E; [|by eauto].
    destruct (Hstep _ _ Hst E). apply IH; [done|lia].
Qed.

Lemma wellFormed_start rows :
  wellFormed (debtorsOf rows) (creditorsOf rows) (start rows).
Proof. unfold wellFormed. simpl. by split_and!. Qed.

Lemma wellFormed_iteration debtors0 creditors0 st st' :
  wellFormed debtors0 creditors0 st → iteration st = Some st' →
  wellFormed debtors0 creditors0 st'.
Proof.
  intros (Hd & Hc & Hs) (debtor & creditor & Hdi & Hci & Hst')%iteration_Some.
  destruct Hst' as (Hd' & Hc' & _ & _ & Hs'). unfold wellFormed.
  rewrite Hd', Hc', Hs', !list_fmap_insert. simpl.
  rewrite !list_insert_id by (by rewrite list_lookup_fmap, ?Hdi, ?Hci).
  split_and!; [done|done|].
  destruct (n_ltb n_zero (n_min (owed debtor) (owed creditor))) eqn:E;
    [|done].
  apply Forall_app. split; [done|]. apply Forall_singleton. simpl.
  split_and!; [done| |].
  - rewrite <-Hd. apply list_elem_of_fmap. exists debtor. split; [done|].
    by eapply list_elem_of_lookup_2.
  - rewrite <-Hc. apply list_elem_of_fmap. exists creditor. split; [done|].
    by eapply list_elem_of_lookup_2.
Qed.

Lemma computeSettlements_wellFormed fuel rows result :
  computeSettlements fuel rows = Some result →
  Forall (λ s, n_ltb n_zero (settled s) = true
               ∧ from s ∈ party <$> debtorsOf rows
               ∧ to s ∈ party <$> creditorsOf rows) result.
Proof.
  unfold computeSettlements.
  destruct (while fuel (start rows)) as [st|] eqn:E; [|done].
  intros [= <-].
  destruct (while_preserves (wellFormed (debtorsOf rows) (creditorsOf rows))
              (wellFormed_iteration _ _) fuel _ _ (wellFormed_start rows) E)
    as [(_ & _ & H) _].
  exact H.
Qed.

Lemma elem_of_debtors rows m :
  m ∈ party <$> debtorsOf rows
  ↔ ∃ row, row ∈ rows ∧ member row = m ∧ n_ltb (balance row) n_zero = true.
Proof.
  unfold debtorsOf. rewrite <-list_fmap_compose, list_elem_of_fmap.
  setoid_rewrite list_elem_of_filter. naive_solver.
Qed.

Lemma elem_of_creditors rows m :
  m ∈ party <$> creditorsOf rows
  ↔ ∃ row, row ∈ rows ∧ member row = m ∧ n_ltb n_zero (balance row) = true.
Proof.
  unfold creditorsOf. rewrite <-list_fmap_compose, list_elem_of_fmap.
  setoid_rewrite list_elem_of_filter. naive_solver.
Qed.

Lemma NoDup_member_inj rows row1 row2 :
  NoDup (member <$> rows) → row1 ∈ rows → row2 ∈ rows →
  member row1 = member row2 → row1 = row2.
Proof.
  intros Hnd (i & Hi)%list_elem_of_lookup_1 (j & Hj)%list_elem_of_lookup_1 Hm.
  assert (i = j) as ->; [|congruence].
  eapply (NoDup_lookup _ i j (member row1) Hnd).
  - by rewrite list_lookup_fmap, Hi.
  - by rewrite list_lookup_fmap, Hj, Hm.
Qed.

Lemma wellFormed_party_debtor debtors0 creditors0 st i p p0 :
  wellFormed debtors0 creditors0 st →
  debtors st !! i = Some p → debtors0 !! i = Some p0 → party p = party p0.
Proof.
  intros (Hd & _ & _) Hi H0. apply (f_equal (λ l, l !! i)) in Hd.
  rewrite !list_lookup_fmap, Hi, H0 in Hd. by injection Hd.
Qed.

Lemma wellFormed_party_creditor debtors0 creditors0 st i p p0 :
  wellFormed debtors0 creditors0 st →
  creditors st !! i = Some p → creditors0 !! i = Some p0 → party p = party p0.
Proof.
  intros (_ & Hc & _) Hi H0. apply (f_equal (λ l, l !! i)) in Hc.
  rewrite !list_lookup_fmap, Hi, H0 in Hc. by injection Hc.
Qed.

Lemma NoDup_party_id (l : list Party) i j p q :
  NoDup (member_id ∘ party <$> l) →
  l !! i = Some p → l !! j = Some q →
  member_id (party p) = member_id (party q) → i = j.
Proof.
  intros Hnd Hi Hj Heq.
  eapply (NoDup_lookup _ i j (member_id (party p)) Hnd).
  - by rewrite list_lookup_fmap, Hi.
  - by rewrite list_lookup_fmap, Hj, Heq.
Qed.

Lemma NoDup_fmap_filter {A B} (f : A → B) (P : A → Prop)
    `{!∀ x, Decision (P x)} (l : list A) :
  NoDup (f <$> l) → NoDup (f <$> filter P l).
Proof.
  induction l as [|x l IH]; [done|].
  rewrite fmap_cons, NoDup_cons. intros [Hx Hnd].
  rewrite filter_cons. case_decide; [|by apply IH].
  rewrite fmap_cons, NoDup_cons. split; [|by apply IH].
  intros (y & Hy & [_ Hin]%list_elem_of_filter)%list_elem_of_fmap.
  apply Hx. rewrite Hy. by apply list_elem_of_fmap_2.
Qed.

Lemma NoDup_debtors rows :
  NoDup (member_id ∘ member <$> rows) →
  NoDup (member_id ∘ party <$> debtorsOf rows).
Proof.
  intros Hnd. unfold debtorsOf. rewrite <-list_fmap_compose.
  by apply (NoDup_fmap_filter (member_id ∘ member)).
Qed.

Lemma NoDup_creditors rows :
  NoDup (member_id ∘ member <$> rows) →
  NoDup (member_id ∘ party <$> creditorsOf rows).
Proof.
  intros Hnd. unfold creditorsOf. rewrite <-list_fmap_compose.
  by apply (NoDup_fmap_filter (member_id ∘ member)).
Qed.

Lemma computeSettlements_while fuel rows st :
  while fuel (start rows) = Some st →
  computeSettlements fuel rows = Some (settlements st).
Proof. intros H. unfold computeSettlements. by rewrite H. Qed.

Lemma counts_lengths rows :
  length (debtorsOf rows) = debtorCount rows
  ∧ length (creditorsOf rows) = creditorCount rows.
Proof.
  unfold debtorsOf, creditorsOf, debtorCount, creditorCount.
  by rewrite !length_fmap.
Qed.

Lemma iteration_shape st st' :
  iteration st = Some st' →
  length (debtors st') = length (debtors st)
  ∧ length (creditors st') = length (creditors st)
  ∧ debtorIndex st < length (debtors st)
  ∧ creditorIndex st < length (creditors st)
  ∧ debtorIndex st ≤ debtorIndex st' ≤ S (debtorIndex st)
  ∧ creditorIndex st ≤ creditorIndex st' ≤ S (creditorIndex st)
  ∧ length (settlements st') ≤ S (length (settlements st)).
Proof.
  intros (debtor & creditor & Hd & Hc & Hd' & Hc' & Hdi' & Hci' & Hs')
    %iteration_Some.
  rewrite Hd', Hc', Hdi', Hci', Hs', !length_insert.
  split_and!; try done.
  - by eapply lookup_lt_Some.
  - by eapply lookup_lt_Some.
  - destruct_if; lia.
  - destruct_if; lia.
  - destruct_if; lia.
  - destruct_if; lia.
  - destruct_if; [|lia]. rewrite length_app. simpl. lia.
Qed.

(** What holds of the result whatever the numbers are. *)
Lemma output_contract_any `{!JsNumberLaws N} fuel rows result :
  computeSettlements fuel rows = Some result →
  (∀ s, s ∈ result → n_ltb n_zero (settled s) = true)
  ∧ (∀ s, s ∈ result →
       ∃ row1 row2, row1 ∈ rows ∧ row2 ∈ rows
         ∧ from s = member row1 ∧ n_ltb (balance row1) n_zero = true
         ∧ to s = member row2 ∧ n_ltb n_zero (balance row2) = true)
  ∧ (NoDup (member <$> rows) →
     ∀ row, row ∈ rows → balance row = n_zero →
     ∀ s, s ∈ result → from s ≠ member row ∧ to s ≠ member row).
Proof.
  intros Hres.
  pose proof (computeSettlements_wellFormed _ _ _ Hres) as Hwf.
  rewrite Forall_forall in Hwf.
  assert (∀ s, s ∈ result →
            ∃ row1 row2, row1 ∈ rows ∧ row2 ∈ rows
              ∧ from s = member row1 ∧ n_ltb (balance row1) n_zero = true
              ∧ to s = member row2 ∧ n_ltb n_zero (balance row2) = true)
    as Hrows.
  { intros s Hs. destruct (Hwf s Hs) as (_ & Hfrom & Hto).
    apply elem_of_debtors in Hfrom as (row1 & Hr1 & Hm1 & Hneg).
    apply elem_of_creditors in Hto as (row2 & Hr2 & Hm2 & Hpos).
    by exists row1, row2. }
  split_and!; [|done|].
  - intros s Hs. by destruct (Hwf s Hs) as (Hpos & _).
  - intros Hnd row Hrow Hzero s Hs.
    destruct (Hrows s Hs) as (row1 & row2 & Hr1 & Hr2 & Hf & Hneg & Ht & Hpos).
    split; intros Heq.
    + assert (row1 = row) as -> by
        (eapply NoDup_member_inj; [done..|congruence]).
      rewrite Hzero in Hneg. by eapply (lt_zero_asym n_zero).
    + assert (row2 = row) as -> by
        (eapply NoDup_member_inj; [done..|congruence]).
      rewrite Hzero in Hpos. by eapply (lt_zero_asym n_zero).
Qed.

(** C10.  When each member is in at most one row, no settlement that
    [computeSettlements] returns goes from a member to that same member:
    [from] is the member of a row with a negative balance and [to] the
    member of a row with a positive one. *)
Theorem no_self_settlement `{!JsNumberLaws N} fuel rows result :
  NoDup (member <$> rows) →
  computeSettlements fuel rows = Some result →
  ∀ s, s ∈ result → from s ≠ to s.
Proof.
  intros Hnd Hres s Hs Heq.
  pose proof (computeSettlements_wellFormed _ _ _ Hres) as Hwf.
  rewrite Forall_forall in Hwf. destruct (Hwf s Hs) as (_ & Hfrom & Hto).
  apply elem_of_debtors in Hfrom as (row1 & Hr1 & Hm1 & Hneg).
  apply elem_of_creditors in Hto as (row2 & Hr2 & Hm2 & Hpos).
  assert (row1 = row2) as -> by (eapply NoDup_member_inj; [done..|congruence]).
  by eapply lt_zero_asym.
Qed.

(** *** What the loop keeps, for any numbers *)

Lemma wellFormed_lengths debtors0 creditors0 st :
  wellFormed debtors0 creditors0 st →
  length (debtors st) = length debtors0
  ∧ length (creditors st) = length creditors0.
Proof.
  intros (Hd & Hc & _).
  apply (f_equal length) in Hd, Hc. by rewrite !length_fmap in Hd, Hc.
Qed.



Lemma rounded_start rows : rounded (start rows).
Proof.
  unfold rounded. cbn [start debtors creditors settlements].
  split_and!; [| |done].
  - unfold debtorsOf. apply Forall_fmap, Forall_true. intros row. simpl. eauto.
  - unfold creditorsOf. apply Forall_fmap, Forall_true. intros row. simpl.
    eauto.
Qed.

Lemma rounded_iteration `{!JsNumberLoopLaws N} st st' :
  rounded st → iteration st = Some st' → rounded st'.
Proof.
  intros (Hdr & Hcr & Hsr) Hit.
  apply iteration_Some in Hit
    as (debtor & creditor & Hd & Hc & Hd' & Hc' & _ & _ & Hs').
  unfold rounded. rewrite Hd', Hc', Hs'. split_and!.
  - apply Forall_insert; [done|]. cbn [owed]. eauto.
  - apply Forall_insert; [done|]. cbn [owed]. eauto.
  - destruct (n_ltb n_zero (n_min (owed debtor) (owed creditor))) eqn:E;
      [|done].
    apply Forall_app. split; [done|]. apply Forall_singleton. cbn [settled].
    rewrite Forall_forall in Hdr, Hcr.
    destruct (min_picks _ _ E) as [-> | ->].
    + apply Hdr. by eapply list_elem_of_lookup_2.
    + apply Hcr. by eapply list_elem_of_lookup_2.
Qed.

Lemma nothingOwed_iteration `{!JsNumberLaws N} `{!JsNumberLoopLaws N} st st' :
  nothingOwed st → iteration st = Some st' →
  nothingOwed st' ∧ remaining st' < remaining st.
Proof.
  intros (Hd0 & Hc0 & Hs0) Hit.
  pose proof (iteration_shape _ _ Hit) as (Hld & Hlc & Hdlt & Hclt & _).
  apply iteration_Some in Hit
    as (debtor & creditor & Hd & Hc & Hd' & Hc' & Hdi' & Hci' & Hs').
  assert (owed debtor = n_zero) as Hdz
    by (rewrite Forall_forall in Hd0; apply Hd0;
        by eapply list_elem_of_lookup_2).
  assert (owed creditor = n_zero) as Hcz
    by (rewrite Forall_forall in Hc0; apply Hc0;
        by eapply list_elem_of_lookup_2).
  rewrite Hdz, Hcz, min_zero, round_zero in Hd', Hc', Hdi', Hci'.
  rewrite Hdz, Hcz, min_zero in Hs'. rewrite zero_le_cent in Hdi', Hci'.
  assert (n_ltb n_zero n_zero = false) as Hlt.
  { apply not_true_iff_false. intros H. by apply (lt_zero_asym n_zero). }
  rewrite Hlt in Hs'. split.
  - unfold nothingOwed. rewrite Hd', Hc', Hs'. split_and!; [| |done].
    + by apply Forall_insert.
    + by apply Forall_insert.
  - unfold remaining. rewrite Hld, Hlc, Hdi', Hci'. lia.
Qed.

Lemma distinctPairs_start rows :
  distinctPairs (debtorsOf rows) (creditorsOf rows) (start rows).
Proof.
  split.
  - intros s Hs. cbn [start settlements] in Hs. by apply elem_of_nil in Hs.
  - apply NoDup_nil_2.
Qed.

Lemma distinctPairs_iteration debtors0 creditors0 st st' :
  NoDup (member_id ∘ party <$> debtors0) →
  NoDup (member_id ∘ party <$> creditors0) →
  wellFormed debtors0 creditors0 st → distinctPairs debtors0 creditors0 st →
  iteration st = Some st' →
  debtorIndex st + creditorIndex st < debtorIndex st' + creditorIndex st' →
  distinctPairs debtors0 creditors0 st'.
Proof.
  intros Hnd Hnc Hwf [Htr Hpairs] Hit Hprogress.
  destruct (wellFormed_lengths _ _ _ Hwf) as [Hld Hlc].
  pose proof (iteration_shape _ _ Hit) as (_ & _ & _ & _ & Hdmono & Hcmono & _).
  apply iteration_Some in Hit
    as (debtor & creditor & Hd & Hc & _ & _ & Hdi1 & Hci1 & Hs').
  assert (∀ s, s ∈ settlements st →
     ∃ i j p q,
       debtors0 !! i = Some p ∧ creditors0 !! j = Some q
       ∧ party p = from s ∧ party q = to s
       ∧ i ≤ debtorIndex st' ∧ j ≤ creditorIndex st'
       ∧ i + j < debtorIndex st' + creditorIndex st') as Htr'.
  { intros s Hs.
    destruct (Htr s Hs) as (i & j & p & q & ? & ? & ? & ? & ? & ? & ?).
    exists i, j, p, q. split_and!; [done..|lia|lia|lia]. }
  unfold distinctPairs. rewrite Hs'.
  destruct (n_ltb n_zero (n_min (owed debtor) (owed creditor))); [|done].
  destruct (lookup_lt_is_Some_2 debtors0 (debtorIndex st)) as [p0 Hp0].
  { rewrite <-Hld. by eapply lookup_lt_Some. }
  destruct (lookup_lt_is_Some_2 creditors0 (creditorIndex st)) as [q0 Hq0].
  { rewrite <-Hlc. by eapply lookup_lt_Some. }
  pose proof (wellFormed_party_debtor _ _ _ _ _ _ Hwf Hd Hp0) as Hparty1.
  pose proof (wellFormed_party_creditor _ _ _ _ _ _ Hwf Hc Hq0) as Hparty2.
  split.
  - intros s [Hs|Hs%list_elem_of_singleton]%elem_of_app; [by apply Htr'|].
    subst s. cbn [from to].
    exists (debtorIndex st), (creditorIndex st), p0, q0.
    split_and!; [done|done|done|done|lia|lia|lia].
  - rewrite fmap_app. apply NoDup_app. split_and!; [done| |].
    + intros pair (s & -> & Hs)%list_elem_of_fmap.
      cbn [fmap list_fmap]. rewrite list_elem_of_singleton.
      unfold pairOf. cbn [from to]. intros [= Hfrom Hto].
      destruct (Htr s Hs) as (i & j & p & q & Hp & Hq & Hpf & Hqt & ? & ? & ?).
      assert (i = debtorIndex st) as ->.
      { apply (NoDup_party_id debtors0 _ _ p p0 Hnd Hp Hp0). congruence. }
      assert (j = creditorIndex st) as ->.
      { apply (NoDup_party_id creditors0 _ _ q q0 Hnc Hq Hq0). congruence. }
      lia.
    + apply NoDup_singleton.
Qed.








(** Every amount that is settled is a value of [roundToCents]. *)
Lemma rounded_result `{!JsNumberLoopLaws N} fuel rows result :
  computeSettlements fuel rows = Some result →
  ∀ s, s ∈ result → ∃ x, settled s = roundToCents x.
Proof.
  unfold computeSettlements.
  destruct (while fuel (start rows)) as [st|] eqn:E; [|done].
  intros [= <-].
  destruct (while_preserves rounded rounded_iteration fuel _ _
              (rounded_start rows) E) as [(_ & _ & H) _].
  by apply Forall_forall.
Qed.

(** When no debtor and no creditor is owed anything, the loop ends
    within as many iterations as there are debtors and creditors, and
    nothing is settled. *)
Lemma nothingOwed_run `{!JsNumberLaws N} `{!JsNumberLoopLaws N} rows :
  Forall (λ p, owed p = n_zero) (debtorsOf rows) →
  Forall (λ p, owed p = n_zero) (creditorsOf rows) →
  computeSettlements (debtorCount rows + creditorCount rows) rows = Some [].
Proof.
  intros Hd Hc.
  destruct (while_terminates nothingOwed remaining nothingOwed_iteration
              (debtorCount rows + creditorCount rows) (start rows))
    as (st & Hrun & (_ & _ & Hs) & _).
  - by split_and!.
  - destruct (counts_lengths rows) as [<- <-]. unfold remaining.
    cbn [start debtors creditors debtorIndex creditorIndex]. lia.
  - rewrite (computeSettlements_while _ _ _ Hrun). by rewrite Hs.
Qed.

Lemma nothing_to_settle `{!JsNumberLaws N} `{!JsNumberLoopLaws N} rows :
  (∀ row, row ∈ rows →
     (n_ltb n_zero (balance row) = true →
      roundToCents (balance row) = n_zero)
     ∧ (n_ltb (balance row) n_zero = true →
        roundToCents (n_abs (balance row)) = n_zero)) →
  computeSettlements (debtorCount rows + creditorCount rows) rows = Some []
  ∧ ∀ fuel result, computeSettlements fuel rows = Some result → result = [].
Proof.
  intros H.
  assert (computeSettlements (debtorCount rows + creditorCount rows) rows
          = Some []) as Hrun.
  { apply nothingOwed_run.
    - unfold debtorsOf. apply Forall_fmap, Forall_forall.
      intros row [Hneg Hrow]%list_elem_of_filter. simpl.
      by apply (H row Hrow).
    - unfold creditorsOf. apply Forall_fmap, Forall_forall.
      intros row [Hpos Hrow]%list_elem_of_filter. simpl.
      by apply (H row Hrow). }
  split; [done|]. intros fuel result Hres.
  by apply (computeSettlements_deterministic _ _ _ _ _ Hres Hrun).
Qed.

(** Whatever the numbers (binary64 or exact), every settlement that
    [computeSettlements] returns has an amount that is above 0 and is a
    value of [roundToCents]: an amount of a party as it was rounded at the
    start or after a payment, never a difference that was not rounded. *)
Theorem settlement_amounts_rounded `{!JsNumberLoopLaws N} fuel rows result :
  computeSettlements fuel rows = Some result →
  ∀ s, s ∈ result →
    n_ltb n_zero (settled s) = true ∧ ∃ x, settled s = roundToCents x.
Proof.
  intros Hres s Hs. split.
  - pose proof (computeSettlements_wellFormed _ _ _ Hres) as Hwf.
    rewrite Forall_forall in Hwf. by destruct (Hwf s Hs).
  - by eapply rounded_result.
Qed.

End Settlements.

(** ** computeSettlements in exact arithmetic *)

Section ExactSettlements.
#[local] Existing Instance exact.
Local Open Scope Qc_scope.
Implicit Types (st : Loop) (rows : list BalanceRow) (p : Party).
Implicit Types (a d c : num).

Lemma cent_nonneg : 0 ≤ n_cent.
Proof. by apply leb_exact. Qed.

(** What an iteration computes from two amounts in whole cents. *)
Lemma payment_facts d c :
  Exact.cents d → Exact.cents c →
  let payment := n_min d c in
  Exact.cents payment
  ∧ roundToCents (n_sub d payment) = d - payment
  ∧ roundToCents (n_sub c payment) = c - payment
  ∧ Exact.cents (d - payment) ∧ Exact.cents (c - payment)
  ∧ (d - payment = 0 ∨ c - payment = 0)
  ∧ (n_ltb n_zero payment = false → payment = 0).
Proof.
  intros Hd Hc payment.
  destruct (cents_min d c Hd Hc) as (Hp & Hor & Hpd & Hpc).
  fold payment in Hp, Hor, Hpd, Hpc.
  pose proof (cents_sub d payment Hd Hp Hpd) as Hd'.
  pose proof (cents_sub c payment Hc Hp Hpc) as Hc'.
  split_and!; try done.
  - by apply cents_round.
  - by apply cents_round.
  - destruct Hor as [->| ->]; [left|right]; qc_ring.
  - intros H%ltb_exact_false. apply Qcle_antisym; [done|].
    by apply cents_nonneg.
Qed.

Lemma cursorsInv_iteration debtors0 creditors0 st st' :
  cursorsInv debtors0 creditors0 st → iteration st = Some st' →
  cursorsInv debtors0 creditors0 st' ∧ (remaining st' < remaining st)%nat.
Proof.
  intros (Hwf & Hdc & Hcc & Hdi & Hci & Hdp & Hcp & Hlen & Hcount) Hit.
  pose proof (wellFormed_iteration _ _ _ _ Hwf Hit) as Hwf'.
  apply iteration_Some in Hit
    as (debtor & creditor & Hd & Hc & Hd' & Hc' & Hdi' & Hci' & Hs').
  pose proof (lookup_lt_Some _ _ _ Hd) as Hdlt.
  pose proof (lookup_lt_Some _ _ _ Hc) as Hclt.
  assert (Exact.cents (owed debtor)) as Hdcents
    by (rewrite Forall_forall in Hdc; apply Hdc;
        by eapply list_elem_of_lookup_2).
  assert (Exact.cents (owed creditor)) as Hccents
    by (rewrite Forall_forall in Hcc; apply Hcc;
        by eapply list_elem_of_lookup_2).
  destruct (payment_facts _ _ Hdcents Hccents)
    as (Hp & Hrd & Hrc & Hdsub & Hcsub & Hzero & Hnopay).
  rewrite Hrd in Hd', Hdi'. rewrite Hrc in Hc', Hci'.
  set (payment := n_min (owed debtor) (owed creditor)) in *.
  assert (length (debtors st') = length (debtors st)) as Hld
    by (by rewrite Hd', length_insert).
  assert (length (creditors st') = length (creditors st)) as Hlc
    by (by rewrite Hc', length_insert).
  assert (debtorIndex st ≤ debtorIndex st' ≤ S (debtorIndex st))%nat as Hdmono
    by (rewrite Hdi'; destruct_if; lia).
  assert (creditorIndex st ≤ creditorIndex st' ≤ S (creditorIndex st))%nat
    as Hcmono by (rewrite Hci'; destruct_if; lia).
  assert (debtorIndex st + creditorIndex st
          < debtorIndex st' + creditorIndex st')%nat as Hprogress.
  { destruct Hzero as [Hz|Hz].
    - assert (n_leb (owed debtor - payment) n_cent = true) as E
        by (apply leb_exact; rewrite Hz; apply cent_nonneg).
      rewrite E in Hdi'. lia.
    - assert (n_leb (owed creditor - payment) n_cent = true) as E
        by (apply leb_exact; rewrite Hz; apply cent_nonneg).
      rewrite E in Hci'. lia. }
  assert (length (settlements st') ≤ S (length (settlements st)))%nat
    as Hslen.
  { rewrite Hs'. destruct (n_ltb n_zero payment); [|lia].
    rewrite length_app. simpl. lia. }
  split; [|unfold remaining; lia].
  unfold cursorsInv. split_and!.
  - done.
  - rewrite Hd'. by apply Forall_insert.
  - rewrite Hc'. by apply Forall_insert.
  - lia.
  - lia.
  - intros i p. rewrite Hd'. intros Hi Hlt.
    destruct (decide (i = debtorIndex st)) as [->|Hne].
    + rewrite list_lookup_insert_eq in Hi by done. injection Hi as <-.
      simpl. rewrite Hdi' in Hlt.
      destruct_if_in Hlt; [|lia].
      by apply leb_exact.
    + rewrite list_lookup_insert_ne in Hi by done. apply (Hdp i p Hi). lia.
  - intros i p. rewrite Hc'. intros Hi Hlt.
    destruct (decide (i = creditorIndex st)) as [->|Hne].
    + rewrite list_lookup_insert_eq in Hi by done. injection Hi as <-.
      simpl. rewrite Hci' in Hlt.
      destruct_if_in Hlt; [|lia].
      by apply leb_exact.
    + rewrite list_lookup_insert_ne in Hi by done. apply (Hcp i p Hi). lia.
  - lia.
  - right. lia.
Qed.

Lemma cursorsInv_start rows :
  cursorsInv (debtorsOf rows) (creditorsOf rows) (start rows).
Proof.
  unfold cursorsInv. simpl. split_and!.
  - apply wellFormed_start.
  - unfold debtorsOf. apply Forall_fmap, Forall_forall.
    intros row [Hneg%ltb_exact _]%list_elem_of_filter. simpl.
    apply roundToCents_nonneg, abs_nonneg.
  - unfold creditorsOf. apply Forall_fmap, Forall_forall.
    intros row [Hpos%ltb_exact _]%list_elem_of_filter. simpl.
    apply roundToCents_nonneg. by apply Qclt_le_weak.
  - lia.
  - lia.
  - intros i p _ ?. lia.
  - intros i p _ ?. lia.
  - lia.
  - by left.
Qed.

(** In exact arithmetic the loop ends within as many iterations as there
    are debtors and creditors, in a state that satisfies the invariant and
    with one of the two cursors at the end of its array. *)
Lemma while_exact rows :
  ∃ st,
    while (length (debtorsOf rows) + length (creditorsOf rows)) (start rows)
      = Some st
    ∧ cursorsInv (debtorsOf rows) (creditorsOf rows) st
    ∧ iteration st = None.
Proof.
  apply (while_terminates
           (cursorsInv (debtorsOf rows) (creditorsOf rows)) remaining).
  - apply cursorsInv_iteration.
  - apply cursorsInv_start.
  - unfold remaining. simpl. lia.
Qed.

Lemma sumList_app (l1 l2 : list num) :
  sumList (l1 ++ l2) = sumList l1 + sumList l2.
Proof.
  unfold sumList. induction l1 as [|a l1 IH]; cbn [app foldr]; [qc_ring|].
  rewrite IH. qc_ring.
Qed.

Lemma paidFrom_snoc m (l : list Settlement) s :
  paidFrom m (l ++ [s])
  = paidFrom m l
    + (if decide (member_id (from s) = member_id m) then settled s else 0).
Proof.
  unfold paidFrom. rewrite filter_app, fmap_app, sumList_app. f_equal.
  rewrite filter_cons, filter_nil.
  destruct (decide (member_id (from s) = member_id m)); simpl; qc_ring.
Qed.

Lemma receivedBy_snoc m (l : list Settlement) s :
  receivedBy m (l ++ [s])
  = receivedBy m l
    + (if decide (member_id (to s) = member_id m) then settled s else 0).
Proof.
  unfold receivedBy. rewrite filter_app, fmap_app, sumList_app. f_equal.
  rewrite filter_cons, filter_nil.
  destruct (decide (member_id (to s) = member_id m)); simpl; qc_ring.
Qed.

Lemma conserved_start rows :
  conserved (debtorsOf rows) (creditorsOf rows) (start rows).
Proof.
  split; intros i p p0 Hi H0; simpl in *; rewrite Hi in H0;
    injection H0 as <-.
  - unfold paidFrom. simpl. qc_ring.
  - unfold receivedBy. simpl. qc_ring.
Qed.

Lemma conserved_iteration debtors0 creditors0 st st' :
  NoDup (member_id ∘ party <$> debtors0) →
  NoDup (member_id ∘ party <$> creditors0) →
  cursorsInv debtors0 creditors0 st → conserved debtors0 creditors0 st →
  iteration st = Some st' →
  conserved debtors0 creditors0 st'.
Proof.
  intros Hnd Hnc (Hwf & Hdc & Hcc & _) [Hpaid Hrecv] Hit.
  apply iteration_Some in Hit
    as (debtor & creditor & Hd & Hc & Hd' & Hc' & _ & _ & Hs').
  assert (Exact.cents (owed debtor)) as Hdcents
    by (rewrite Forall_forall in Hdc; apply Hdc;
        by eapply list_elem_of_lookup_2).
  assert (Exact.cents (owed creditor)) as Hccents
    by (rewrite Forall_forall in Hcc; apply Hcc;
        by eapply list_elem_of_lookup_2).
  destruct (payment_facts _ _ Hdcents Hccents)
    as (_ & Hrd & Hrc & _ & _ & _ & Hnopay).
  rewrite Hrd in Hd'. rewrite Hrc in Hc'.
  set (payment := n_min (owed debtor) (owed creditor)) in *.
  pose proof (lookup_lt_Some _ _ _ Hd) as Hdlt.
  pose proof (lookup_lt_Some _ _ _ Hc) as Hclt.
  split; intros i p p0 Hi H0.
  - rewrite Hd' in Hi. destruct (decide (i = debtorIndex st)) as [->|Hne].
    + rewrite list_lookup_insert_eq in Hi by done. injection Hi as <-.
      pose proof (wellFormed_party_debtor _ _ _ _ _ _ Hwf Hd H0) as Hparty.
      pose proof (Hpaid _ _ _ Hd H0) as IH.
      destruct (n_ltb n_zero payment) eqn:E; rewrite <-IH, Hs'; cbn [owed].
      * rewrite paidFrom_snoc. cbn [from to settled]. rewrite Hparty.
        rewrite decide_True by done. qc_ring.
      * rewrite (Hnopay eq_refl). qc_ring.
    + rewrite list_lookup_insert_ne in Hi by done.
      pose proof (Hpaid _ _ _ Hi H0) as IH.
      destruct (n_ltb n_zero payment) eqn:E; rewrite <-IH, Hs'; [|done].
      rewrite paidFrom_snoc. cbn [from to settled].
      rewrite decide_False; [qc_ring|].
      intros Heq. apply Hne.
      destruct (lookup_lt_is_Some_2 debtors0 (debtorIndex st)) as [q Hq].
      { destruct Hwf as (Hlen & _). apply (f_equal length) in Hlen.
        rewrite !length_fmap in Hlen. lia. }
      pose proof (wellFormed_party_debtor _ _ _ _ _ _ Hwf Hd Hq) as Hparty.
      apply (NoDup_party_id debtors0 i (debtorIndex st) p0 q Hnd H0 Hq).
      by rewrite <-Hparty.
  - rewrite Hc' in Hi. destruct (decide (i = creditorIndex st)) as [->|Hne].
    + rewrite list_lookup_insert_eq in Hi by done. injection Hi as <-.
      pose proof (wellFormed_party_creditor _ _ _ _ _ _ Hwf Hc H0) as Hparty.
      pose proof (Hrecv _ _ _ Hc H0) as IH.
      destruct (n_ltb n_zero payment) eqn:E; rewrite <-IH, Hs'; cbn [owed].
      * rewrite receivedBy_snoc. cbn [from to settled]. rewrite Hparty.
        rewrite decide_True by done. qc_ring.
      * rewrite (Hnopay eq_refl). qc_ring.
    + rewrite list_lookup_insert_ne in Hi by done.
      pose proof (Hrecv _ _ _ Hi H0) as IH.
      destruct (n_ltb n_zero payment) eqn:E; rewrite <-IH, Hs'; [|done].
      rewrite receivedBy_snoc. cbn [from to settled].
      rewrite decide_False; [qc_ring|].
      intros Heq. apply Hne.
      destruct (lookup_lt_is_Some_2 creditors0 (creditorIndex st)) as [q Hq].
      { destruct Hwf as (_ & Hlen & _). apply (f_equal length) in Hlen.
        rewrite !length_fmap in Hlen. lia. }
      pose proof (wellFormed_party_creditor _ _ _ _ _ _ Hwf Hc Hq) as Hparty.
      apply (NoDup_party_id creditors0 i (creditorIndex st) p0 q Hnc H0 Hq).
      by rewrite <-Hparty.
Qed.

Lemma idle_iteration st st' : idle st → iteration st = Some st' → idle st'.
Proof.
  intros (Hd0 & Hc0 & Hs0) Hit.
  apply iteration_Some in Hit
    as (debtor & creditor & Hd & Hc & Hd' & Hc' & _ & _ & Hs').
  assert (owed debtor = n_zero) as Hdz
    by (rewrite Forall_forall in Hd0; apply Hd0;
        by eapply list_elem_of_lookup_2).
  assert (owed creditor = n_zero) as Hcz
    by (rewrite Forall_forall in Hc0; apply Hc0;
        by eapply list_elem_of_lookup_2).
  rewrite Hdz, Hcz in Hd', Hc', Hs'.
  assert (roundToCents (n_sub n_zero (n_min n_zero n_zero)) = n_zero)
    as Hround by (by apply Qc_is_canon).
  assert (n_ltb n_zero (n_min n_zero n_zero) = false) as Hlt by reflexivity.
  rewrite Hround in Hd', Hc'. rewrite Hlt in Hs'.
  unfold idle. rewrite Hd', Hc', Hs'. split_and!; [| |done].
  - by apply Forall_insert.
  - by apply Forall_insert.
Qed.

Lemma idle_start rows :
  (∀ row, row ∈ rows →
     - Q2Qc (1 # 200) < balance row ∧ balance row < Q2Qc (1 # 200)) →
  idle (start rows).
Proof.
  intros Hsmall. unfold idle. simpl. split_and!; [| |done].
  - unfold debtorsOf. apply Forall_fmap, Forall_forall.
    intros row [_ Hrow]%list_elem_of_filter. simpl.
    destruct (Hsmall row Hrow) as [H1 H2].
    apply roundToCents_small; [apply abs_nonneg|by apply abs_lt].
  - unfold creditorsOf. apply Forall_fmap, Forall_forall.
    intros row [Hpos%ltb_exact Hrow]%list_elem_of_filter. simpl.
    destruct (Hsmall row Hrow) as [H1 H2].
    apply roundToCents_small; [by apply Qclt_le_weak|done].
Qed.

Lemma cursorsInv_lengths debtors0 creditors0 st :
  cursorsInv debtors0 creditors0 st →
  length (debtors st) = length debtors0
  ∧ length (creditors st) = length creditors0.
Proof.
  intros ((Hd & Hc & _) & _).
  apply (f_equal length) in Hd, Hc. by rewrite !length_fmap in Hd, Hc.
Qed.

(** The run of the loop on [rows], with everything the invariants give. *)
Lemma run_exact rows :
  ∃ st,
    while (length (debtorsOf rows) + length (creditorsOf rows)) (start rows)
      = Some st
    ∧ cursorsInv (debtorsOf rows) (creditorsOf rows) st
    ∧ iteration st = None
    ∧ (NoDup (member_id ∘ member <$> rows) →
       conserved (debtorsOf rows) (creditorsOf rows) st)
    ∧ ((∀ row, row ∈ rows →
          - Q2Qc (1 # 200) < balance row ∧ balance row < Q2Qc (1 # 200)) →
       idle st).
Proof.
  destruct (while_exact rows) as (st & Hrun & Hinv & Hend).
  exists st. split_and!; try done.
  - intros Hnd.
    pose proof (NoDup_debtors rows Hnd) as Hnd1.
    pose proof (NoDup_creditors rows Hnd) as Hnd2.
    refine (proj2 (proj1 (while_preserves
      (λ st, cursorsInv (debtorsOf rows) (creditorsOf rows) st
             ∧ conserved (debtorsOf rows) (creditorsOf rows) st)
      _ _ _ _ _ Hrun))).
    + intros st1 st2 [H1 H2] Hit. split.
      * by eapply cursorsInv_iteration.
      * by eapply conserved_iteration.
    + split; [apply cursorsInv_start|apply conserved_start].
  - intros Hsmall.
    exact (proj1 (while_preserves idle idle_iteration _ _ _
                    (idle_start rows Hsmall) Hrun)).
Qed.


(** In exact arithmetic the function returns, and returns no settlement
    when every balance is less than half a cent away from 0. *)
Lemma output_contract_exact rows :
  ∃ result,
    computeSettlements (debtorCount rows + creditorCount rows) rows
    = Some result
    ∧ ((∀ row, row ∈ rows →
          - Q2Qc (1 # 200) < balance row ∧ balance row < Q2Qc (1 # 200)) →
       result = []).
Proof.
  destruct (run_exact rows) as (st & Hrun & _ & _ & _ & Hidle).
  destruct (counts_lengths rows) as [Hd Hc]. rewrite Hd, Hc in Hrun.
  exists (settlements st). split; [by apply computeSettlements_while|].
  intros Hsmall. by destruct (Hidle Hsmall) as (_ & _ & ?).
Qed.

(** In exact arithmetic the function returns, with fewer settlements than
    there are debtors and creditors. *)
Lemma count_bound_exact rows :
  ∃ result,
    computeSettlements (debtorCount rows + creditorCount rows) rows
    = Some result
    ∧ (Z.of_nat (length result)
       ≤ Z.max 0 (Z.of_nat (creditorCount rows)
                  + Z.of_nat (debtorCount rows) - 1))%Z.
Proof.
  destruct (run_exact rows) as (st & Hrun & Hinv & _).
  destruct (cursorsInv_lengths _ _ _ Hinv) as [Hld Hlc].
  destruct Hinv as (_ & _ & _ & _ & _ & _ & _ & _ & Hcount).
  destruct (counts_lengths rows) as [Hd Hc]. rewrite Hd, Hc in Hrun.
  exists (settlements st). split; [by apply computeSettlements_while|].
  destruct Hcount as [->|Hlt]; simpl; lia.
Qed.

End ExactSettlements.

(** ** computeSettlements on binary64 *)

Section Binary64Settlements.
#[local] Existing Instance binary64.
Implicit Types (st : Loop) (rows : list BalanceRow) (x y : num).

Lemma sub_diag x : n_sub x x = n_zero ∨ n_sub x x = nan.
Proof.
  change (x - x = 0 ∨ x - x = nan)%float.
  destruct (Prim2SF x) as [s|s| |s m e] eqn:E.
  - left. apply Prim2SF_inj. rewrite sub_spec, E. by destruct s.
  - right. apply Prim2SF_inj. rewrite sub_spec, E. by destruct s.
  - right. apply Prim2SF_inj. by rewrite sub_spec, E.
  - left. apply Prim2SF_inj. rewrite sub_spec, E.
    unfold SF64sub, SFsub. by rewrite Z.sub_diag.
Qed.

Lemma sub_nan_r x : n_sub x nan = nan.
Proof.
  change (x - nan = nan)%float. apply Prim2SF_inj. rewrite sub_spec.
  change (Prim2SF nan) with S754_nan. by destruct (Prim2SF x).
Qed.

Lemma min_cases x y : n_min x y = nan ∨ n_min x y = x ∨ n_min x y = y.
Proof.
  change (n_min x y) with (F64.min x y). unfold F64.min.
  repeat destruct_if; auto.
Qed.

Lemma min_nan x y : x = nan ∨ y = nan → n_min x y = nan.
Proof.
  change (n_min x y) with (F64.min x y). unfold F64.min.
  intros [->| ->]; [done|]. by destruct (is_nan x).
Qed.

Lemma roundToCents_nan : @roundToCents binary64 nan = nan.
Proof. reflexivity. Qed.

Lemma leb_nan_cent : @n_leb binary64 nan n_cent = false.
Proof. reflexivity. Qed.

Lemma leb_round_zero : @n_leb binary64 (roundToCents n_zero) n_cent = true.
Proof. reflexivity. Qed.

Lemma iteration_is_Some st debtor creditor :
  debtors st !! debtorIndex st = Some debtor →
  creditors st !! creditorIndex st = Some creditor →
  ∃ st', iteration st = Some st'.
Proof. intros Hd Hc. unfold iteration. rewrite Hd, Hc. eauto. Qed.

(** With NaN under a cursor an iteration moves no cursor and leaves NaN
    under both. *)
Lemma doomed_iteration st :
  doomed st → ∃ st', iteration st = Some st' ∧ doomed st'.
Proof.
  intros (debtor & creditor & Hd & Hc & Hnan).
  destruct (iteration_is_Some _ _ _ Hd Hc) as [st' Hit].
  exists st'. split; [done|].
  apply iteration_Some in Hit
    as (debtor' & creditor' & Hd1 & Hc1 & Hd' & Hc' & Hdi' & Hci' & _).
  rewrite Hd in Hd1. rewrite Hc in Hc1.
  injection Hd1 as <-. injection Hc1 as <-.
  rewrite (min_nan _ _ Hnan), !sub_nan_r in Hd', Hc', Hdi', Hci'.
  rewrite roundToCents_nan in Hd', Hc', Hdi', Hci'.
  rewrite leb_nan_cent in Hdi', Hci'.
  eexists _, _. rewrite Hdi', Hci', Hd', Hc'. split_and!.
  - apply list_lookup_insert_eq. by eapply lookup_lt_Some.
  - apply list_lookup_insert_eq. by eapply lookup_lt_Some.
  - by left.
Qed.

Lemma doomed_never_ends st fuel : doomed st → while fuel st = None.
Proof.
  revert st. induction fuel as [|fuel IH]; intros st Hst;
    destruct (doomed_iteration st Hst) as (st' & Hit & Hst');
    cbn [while]; rewrite Hit; [done|by apply IH].
Qed.

(** An iteration moves a cursor, or leaves the loop in a state it cannot
    leave. *)
Lemma advance_or_doomed st st' :
  iteration st = Some st' →
  debtorIndex st + creditorIndex st < debtorIndex st' + creditorIndex st'
  ∨ doomed st'.
Proof.
  intros Hit. pose proof Hit as Hit'.
  apply iteration_Some in Hit
    as (debtor & creditor & Hd & Hc & Hd' & Hc' & Hdi' & Hci' & _).
  pose proof (lookup_lt_Some _ _ _ Hd) as Hdlt.
  pose proof (lookup_lt_Some _ _ _ Hc) as Hclt.
  set (payment := n_min (owed debtor) (owed creditor)) in *.
  set (d' := roundToCents (n_sub (owed debtor) payment)) in *.
  set (c' := roundToCents (n_sub (owed creditor) payment)) in *.
  destruct (n_leb d' n_cent) eqn:Ed, (n_leb c' n_cent) eqn:Ec;
    [left; lia..|].
  right. exists {| party := party debtor; owed := d' |},
    {| party := party creditor; owed := c' |}.
  rewrite Hdi', Hci', Hd', Hc'.
  split_and!; [by apply list_lookup_insert_eq..|]. simpl.
  destruct (min_cases (owed debtor) (owed creditor)) as [Hp|[Hp|Hp]];
    fold payment in Hp.
  - left. subst d'. by rewrite Hp, sub_nan_r.
  - left. subst d'. rewrite Hp in *.
    destruct (sub_diag (owed debtor)) as [Hz|Hz]; rewrite Hz in *; [|done].
    by rewrite leb_round_zero in Ed.
  - right. subst c'. rewrite Hp in *.
    destruct (sub_diag (owed creditor)) as [Hz|Hz]; rewrite Hz in *; [|done].
    by rewrite leb_round_zero in Ec.
Qed.

(** The loop ends within the iterations that remain, or never. *)
Lemma while_ends_or_never fuel st :
  remaining st ≤ fuel →
  (∃ st', while fuel st = Some st') ∨ (∀ fuel', while fuel' st = None).
Proof.
  revert st. induction fuel as [|fuel IH]; intros st Hrem.
  - destruct (iteration st) as [st1|] eqn:E.
    + apply iteration_shape in E. unfold remaining in Hrem. lia.
    + left. exists st. cbn [while]. by rewrite E.
  - destruct (iteration st) as [st1|] eqn:E.
    + assert (∀ fuel', while fuel' st1 = None → while (S fuel') st = None)
        as Hnext by (intros fuel' H; cbn [while]; by rewrite E).
      assert (while 0 st = None) as Hzero by (cbn [while]; by rewrite E).
      destruct (advance_or_doomed _ _ E) as [Hadv|Hdoom].
      * destruct (IH st1) as [[st' Hst']|Hnever].
        { pose proof (iteration_shape _ _ E). unfold remaining in *. lia. }
        { left. exists st'. cbn [while]. by rewrite E. }
        { right. intros [|fuel']; [done|]. by apply Hnext. }
      * right. intros [|fuel']; [done|].
        by apply Hnext, doomed_never_ends.
    + left. exists st. cbn [while]. by rewrite E.
Qed.

Lemma countInv_while nd nc fuel st st' :
  countInv nd nc st → while fuel st = Some st' → countInv nd nc st'.
Proof.
  revert st. induction fuel as [|fuel IH]; intros st Hinv; cbn [while];
    destruct (iteration st) as [st1|] eqn:E; try done;
    try (by intros [= <-]).
  intros Hrun. apply (IH st1); [|done].
  destruct (advance_or_doomed _ _ E) as [Hadv|Hdoom];
    [|by rewrite (doomed_never_ends _ _ Hdoom) in Hrun].
  destruct Hinv as (Hnd & Hnc & Hlen & Hcount).
  pose proof (iteration_shape _ _ E). unfold countInv.
  split_and!; [lia..|]. right. lia.
Qed.

(** On binary64 the function need not return; when it does, the number of
    settlements is bounded as in exact arithmetic. *)
Lemma count_bound_binary64 fuel rows result :
  computeSettlements fuel rows = Some result →
  (Z.of_nat (length result)
   ≤ Z.max 0 (Z.of_nat (creditorCount rows)
              + Z.of_nat (debtorCount rows) - 1))%Z.
Proof.
  unfold computeSettlements.
  destruct (while fuel (start rows)) as [st|] eqn:Hrun; [|done].
  intros [= <-].
  assert (countInv (debtorCount rows) (creditorCount rows) (start rows))
    as Hstart.
  { unfold countInv, start, debtorCount, creditorCount.
    cbn [debtors creditors settlements debtorIndex creditorIndex].
    unfold debtorsOf, creditorsOf. rewrite !length_fmap.
    split_and!; [done|done|simpl; lia|by left]. }
  destruct (countInv_while _ _ _ _ _ Hstart Hrun) as (_ & _ & _ & Hcount).
  destruct Hcount as [->|Hlt]; simpl; lia.
Qed.

(** On binary64 the matching loop ends within [debtors + creditors]
    iterations or does not end at all. *)
Theorem settlement_loop_ends_or_never rows :
  (∃ result,
     computeSettlements (debtorCount rows + creditorCount rows) rows
     = Some result)
  ∨ (∀ fuel, computeSettlements fuel rows = None).
Proof.
  unfold computeSettlements.
  destruct (while_ends_or_never (debtorCount rows + creditorCount rows)
              (start rows)) as [[st Hst]|Hnever].
  - unfold remaining, start, debtorCount, creditorCount.
    cbn [debtors creditors debtorIndex creditorIndex].
    unfold debtorsOf, creditorsOf. rewrite !length_fmap. lia.
  - left. exists (settlements st). by rewrite Hst.
  - right. intros fuel. by rewrite Hnever.
Qed.

(** *** Comparisons and [Math.min] on binary64 *)

Implicit Types (a b : num).











(** *** The ledger and the pairs on binary64 *)



Lemma distinctPairs_while debtors0 creditors0 fuel st st' :
  NoDup (member_id ∘ party <$> debtors0) →
  NoDup (member_id ∘ party <$> creditors0) →
  wellFormed debtors0 creditors0 st → distinctPairs debtors0 creditors0 st →
  while fuel st = Some st' → distinctPairs debtors0 creditors0 st'.
Proof.
  intros Hnd Hnc. revert st.
  induction fuel as [|fuel IH]; intros st Hwf Hpairs; cbn [while];
    destruct (iteration st) as [st1|] eqn:Hit; try done;
    try (by intros [= <-]).
  intros Hrun.
  destruct (advance_or_doomed _ _ Hit) as [Hadv|Hdoom];
    [|by rewrite (doomed_never_ends _ _ Hdoom) in Hrun].
  apply (IH st1); [by eapply wellFormed_iteration| |done].
  by eapply distinctPairs_iteration.
Qed.

(** On binary64 and for rows with pairwise distinct member ids, no two of
    the settlements that are returned are from the same member to the
    same member. *)
Lemma pairs_distinct_binary64 fuel rows result :
  NoDup (member_id ∘ member <$> rows) →
  computeSettlements fuel rows = Some result →
  NoDup (pairOf <$> result).
Proof.
  intros Hnd. unfold computeSettlements.
  destruct (while fuel (start rows)) as [st|] eqn:Hrun; [|done].
  intros [= <-].
  apply (distinctPairs_while (debtorsOf rows) (creditorsOf rows) fuel
           (start rows) st).
  - by apply NoDup_debtors.
  - by apply NoDup_creditors.
  - apply wellFormed_start.
  - apply distinctPairs_start.
  - done.
Qed.

End Binary64Settlements.

(** ** The contract of computeSettlements *)


(** C6, as amended.  Whatever the numbers (binary64 or exact), every
    settlement that [computeSettlements] returns has a positive amount and
    goes from the member of a row with a negative balance to the member of
    a row with a positive one, so that, members being distinct, the member
    of a row with balance 0 is in no settlement.  Whatever the numbers
    again, when every balance that is not 0 rounds to 0 cents the function
    returns, within as many iterations as there are debtors and creditors,
    and what it returns is the empty list.  In exact arithmetic the
    function returns on every list, and what it returns is the empty list
    when every balance is less than half a cent away from 0. *)
Theorem settlement_output_contract :
  (∀ N : JsNumber, JsNumberLaws N →
   ∀ fuel (rows : list BalanceRow) result,
     computeSettlements fuel rows = Some result →
     (∀ s, s ∈ result → n_ltb n_zero (settled s) = true)
     ∧ (∀ s, s ∈ result →
          ∃ row1 row2, row1 ∈ rows ∧ row2 ∈ rows
            ∧ from s = member row1 ∧ n_ltb (balance row1) n_zero = true
            ∧ to s = member row2 ∧ n_ltb n_zero (balance row2) = true)
     ∧ (NoDup (member <$> rows) →
        ∀ row, row ∈ rows → balance row = n_zero →
        ∀ s, s ∈ result → from s ≠ member row ∧ to s ≠ member row))
  ∧ (∀ N : JsNumber, JsNumberLaws N → JsNumberLoopLaws N →
     ∀ rows : list BalanceRow,
       (∀ row, row ∈ rows →
          (n_ltb n_zero (balance row) = true →
           roundToCents (balance row) = n_zero)
          ∧ (n_ltb (balance row) n_zero = true →
             roundToCents (n_abs (balance row)) = n_zero)) →
       computeSettlements (debtorCount rows + creditorCount rows) rows
       = Some []
       ∧ ∀ fuel result,
           computeSettlements fuel rows = Some result → result = [])
  ∧ (∀ rows : list (@BalanceRow exact),
     ∃ result,
       computeSettlements (debtorCount rows + creditorCount rows) rows
       = Some result
       ∧ ((∀ row, row ∈ rows →
             (- Q2Qc (1 # 200) < balance row)%Qc
             ∧ (balance row < Q2Qc (1 # 200))%Qc) →
          result = [])).
Proof.
  split_and!.
  - intros N HN fuel rows result. apply output_contract_any.
  - intros N HN HL rows. apply nothing_to_settle.
  - apply output_contract_exact.
Qed.

(** C7, as amended.  [computeSettlements] returns at most
    [max 0 (creditors + debtors - 1)] settlements: in exact arithmetic it
    returns, with that bound; on binary64, whenever it returns, the bound
    holds. *)
Theorem settlement_count_bound :
  (∀ rows : list (@BalanceRow exact),
     ∃ result,
       computeSettlements (debtorCount rows + creditorCount rows) rows
       = Some result
       ∧ (Z.of_nat (length result)
          ≤ Z.max 0 (Z.of_nat (creditorCount rows)
                     + Z.of_nat (debtorCount rows) - 1))%Z)
  ∧ (∀ fuel (rows : list (@BalanceRow binary64)) result,
       computeSettlements fuel rows = Some result →
       (Z.of_nat (length result)
        ≤ Z.max 0 (Z.of_nat (creditorCount rows)
                   + Z.of_nat (debtorCount rows) - 1))%Z).
Proof.
  split.
  - apply count_bound_exact.
  - apply count_bound_binary64.
Qed.

(** On binary64 and for rows with pairwise distinct member ids, no two
    of the settlements that [computeSettlements] returns are from the
    same member to the same member: every pair of a debtor and a creditor
    settles at most once. *)
Theorem settlement_pairs_distinct fuel (rows : list (@BalanceRow binary64))
    result :
  NoDup (member_id ∘ member <$> rows) →
  computeSettlements fuel rows = Some result →
  NoDup (pairOf <$> result).
Proof. apply pairs_distinct_binary64. Qed.

(** ** normalizeTitle *)

Section NormalizeTitle.
Import Text.
Implicit Types (l : list ascii) (c : ascii) (value : string).

Lemma chars_ofChars l : chars (ofChars l) = l.
Proof. apply String.list_ascii_of_string_of_list_ascii. Qed.

Lemma ofChars_chars value : ofChars (chars value) = value.
Proof. apply String.string_of_list_ascii_of_string. Qed.

Lemma singleSpaced_lookup l :
  singleSpaced l
  ↔ ∀ i c, l !! i = Some c → isWhiteSpace c = true →
      c = space ∧ ∃ c', l !! S i = Some c' ∧ isWhiteSpace c' = false.
Proof.
  induction l as [|c l IH]; simpl.
  - split; [|done]. by intros _ i c.
  - rewrite IH. split.
    + intros [Hc Hs] [|i] c'; simpl.
      * intros [= <-] Hw. destruct (Hc Hw) as (-> & c2 & Hh & Hc2).
        split; [done|]. exists c2. split; [|done]. by destruct l.
      * apply Hs.
    + intros H. split.
      * intros Hw. destruct (H 0 c eq_refl Hw) as (-> & c2 & Hh & Hc2).
        split; [done|]. exists c2. split; [|done]. by destruct l.
      * intros i c'. apply (H (S i) c').
Qed.

Lemma trimStart_head l c :
  head (trimStart l) = Some c → isWhiteSpace c = false.
Proof.
  induction l as [|c' l IH]; simpl; [done|].
  destruct (isWhiteSpace c') eqn:E; [done|]. simpl. by intros [= <-].
Qed.

Lemma trimStart_id l : startsTidy l → trimStart l = l.
Proof.
  destruct l as [|c l]; [done|]. simpl. intros H. by rewrite (H c eq_refl).
Qed.

(** [trimStart] drops white space, and only from the start. *)
Lemma trimStart_suffix l :
  ∃ dropped, l = dropped ++ trimStart l
    ∧ Forall (λ c, isWhiteSpace c = true) dropped.
Proof.
  induction l as [|c l (dropped & IH & Hb)]; simpl.
  - by exists [].
  - destruct (isWhiteSpace c) eqn:E.
    + exists (c :: dropped). split; [simpl; by f_equal|]. by constructor.
    + by exists [].
Qed.

Lemma endsTidy_tail c l : endsTidy (c :: l) → endsTidy l.
Proof.
  intros H c' Hc'. apply H. rewrite last_cons. by rewrite Hc'.
Qed.

Lemma endsTidy_blank c l :
  endsTidy (c :: l) → isWhiteSpace c = true → ∃ c', last l = Some c'.
Proof.
  intros H Hw. destruct (last l) as [c'|] eqn:E; [eauto|].
  specialize (H c). rewrite last_cons, E in H. rewrite H in Hw; done.
Qed.

(** [trimEnd] drops white space, and only from the end. *)
Lemma trimEnd_prefix l :
  ∃ dropped, l = trimEnd l ++ dropped
    ∧ Forall (λ c, isWhiteSpace c = true) dropped
    ∧ endsTidy (trimEnd l).
Proof.
  unfold trimEnd.
  destruct (trimStart_suffix (reverse l)) as (dropped & Hs & Hb).
  exists (reverse dropped). split_and!.
  - rewrite <-reverse_app, <-Hs. by rewrite reverse_involutive.
  - by apply Forall_reverse.
  - intros c. rewrite last_reverse. apply trimStart_head.
Qed.

Lemma trimEnd_id l : endsTidy l → trimEnd l = l.
Proof.
  intros H. unfold trimEnd. rewrite trimStart_id, reverse_involutive; [done|].
  intros c. rewrite head_reverse. apply H.
Qed.

Lemma trim_tidy l : startsTidy (trim l) ∧ endsTidy (trim l).
Proof.
  unfold trim.
  destruct (trimEnd_prefix (trimStart l)) as (dropped & Hs & _ & He).
  split; [|done]. intros c Hc. apply (trimStart_head l).
  rewrite Hs, head_app. by rewrite Hc.
Qed.

Lemma trim_id l : startsTidy l → endsTidy l → trim l = l.
Proof.
  intros H1 H2. unfold trim. rewrite (trimStart_id l) by done.
  by apply trimEnd_id.
Qed.

Lemma replaceRuns_nonempty inRun l c :
  last l = Some c → isWhiteSpace c = false →
  ∃ c', head (replaceRuns inRun l) = Some c'.
Proof.
  revert inRun. induction l as [|c0 l IH]; intros inRun; [done|].
  intros Hl Hc. simpl. destruct (isWhiteSpace c0) eqn:E; [|by eauto].
  destruct inRun; [|by eauto]. apply IH; [|done].
  rewrite last_cons in Hl. destruct (last l); [done|]. congruence.
Qed.

Lemma replaceRuns_head inRun l c :
  endsTidy l → (inRun = true ∨ startsTidy l) →
  head (replaceRuns inRun l) = Some c → isWhiteSpace c = false.
Proof.
  revert inRun. induction l as [|c0 l IH]; intros inRun He Hor; [done|].
  simpl. destruct (isWhiteSpace c0) eqn:E.
  - destruct Hor as [->|Hs].
    + apply IH; [by eapply endsTidy_tail|by left].
    + rewrite (Hs c0) in E; done.
  - simpl. by intros [= <-].
Qed.

Lemma replaceRuns_singleSpaced inRun l :
  endsTidy l → singleSpaced (replaceRuns inRun l).
Proof.
  revert inRun. induction l as [|c0 l IH]; intros inRun He; [done|].
  pose proof (endsTidy_tail _ _ He) as He'.
  simpl. destruct (isWhiteSpace c0) eqn:E.
  - destruct inRun; [by apply IH|]. simpl. split; [|by apply IH].
    intros _. split; [done|].
    destruct (endsTidy_blank _ _ He E) as (c1 & Hc1).
    destruct (replaceRuns_nonempty true l c1 Hc1 (He' _ Hc1)) as (c' & Hc').
    exists c'. split; [done|].
    apply (replaceRuns_head true l c' He'); [by left|done].
  - simpl. split; [|by apply IH]. intros Hw. by rewrite E in Hw.
Qed.

Lemma replaceRuns_id inRun l :
  singleSpaced l → (inRun = true → startsTidy l) → replaceRuns inRun l = l.
Proof.
  revert inRun. induction l as [|c0 l IH]; intros inRun Hs Hrun; [done|].
  destruct Hs as [Hc0 Hs]. simpl. destruct (isWhiteSpace c0) eqn:E.
  - destruct inRun.
    + rewrite (Hrun eq_refl c0) in E; done.
    + destruct (Hc0 eq_refl) as (-> & c' & Hh & Hc'). f_equal.
      apply IH; [done|]. intros _ c. rewrite Hh. by intros [= <-].
  - f_equal. by apply IH.
Qed.

Lemma tidyChars_alt l : tidyChars l ↔ startsTidy l ∧ singleSpaced l.
Proof. unfold tidyChars. by rewrite singleSpaced_lookup. Qed.

Lemma tidyChars_endsTidy l : tidyChars l → endsTidy l.
Proof.
  intros [_ H] c (l' & ->)%last_Some.
  destruct (isWhiteSpace c) eqn:E; [|done].
  destruct (H (length l') c) as (_ & c' & Hc' & _); [|done|].
  - by rewrite list_lookup_middle.
  - apply lookup_lt_Some in Hc'. rewrite length_app in Hc'. simpl in Hc'. lia.
Qed.

Lemma normalizeChars_tidy l : tidyChars (normalizeChars l).
Proof.
  destruct (trim_tidy l) as [H1 H2]. apply tidyChars_alt. split.
  - intros c. apply (replaceRuns_head false (trim l)); [done|by right].
  - by apply replaceRuns_singleSpaced.
Qed.

Lemma normalizeChars_id l : tidyChars l → normalizeChars l = l.
Proof.
  intros Ht. pose proof (tidyChars_endsTidy l Ht) as He.
  apply tidyChars_alt in Ht as [Hs Hss]. unfold normalizeChars.
  rewrite trim_id by done. by apply replaceRuns_id.
Qed.

Lemma normalizeTitle_chars value :
  chars (normalizeTitle value) = normalizeChars (chars value).
Proof. unfold normalizeTitle. by rewrite chars_ofChars. Qed.

Lemma visibleChars_blank l :
  Forall (λ c, isWhiteSpace c = true) l → visibleChars l = [].
Proof.
  induction 1 as [|c l Hc _ IH]; [done|]. unfold visibleChars in *.
  rewrite filter_cons, decide_False by congruence. done.
Qed.

Lemma visibleChars_app l1 l2 :
  visibleChars (l1 ++ l2) = visibleChars l1 ++ visibleChars l2.
Proof. apply filter_app. Qed.

Lemma visibleChars_trim l : visibleChars (trim l) = visibleChars l.
Proof.
  unfold trim.
  destruct (trimStart_suffix l) as (dropped1 & Hs1 & Hb1).
  destruct (trimEnd_prefix (trimStart l)) as (dropped2 & Hs2 & Hb2 & _).
  rewrite Hs1 at 2. rewrite Hs2 at 2.
  rewrite !visibleChars_app, (visibleChars_blank dropped1 Hb1),
    (visibleChars_blank dropped2 Hb2).
  by rewrite app_nil_r.
Qed.

Lemma visibleChars_replaceRuns inRun l :
  visibleChars (replaceRuns inRun l) = visibleChars l.
Proof.
  revert inRun. unfold visibleChars.
  induction l as [|c l IH]; intros inRun; [done|]. simpl.
  destruct (isWhiteSpace c) eqn:E.
  - rewrite (filter_cons _ c), decide_False by congruence.
    destruct inRun; [apply IH|].
    rewrite filter_cons, decide_False by done. apply IH.
  - rewrite !filter_cons, !decide_True by done. f_equal. apply IH.
Qed.

Lemma visibleChars_normalizeChars l :
  visibleChars (normalizeChars l) = visibleChars l.
Proof.
  unfold normalizeChars. by rewrite visibleChars_replaceRuns, visibleChars_trim.
Qed.

Lemma visibleChars_nil l :
  visibleChars l = [] ↔ Forall (λ c, isWhiteSpace c = true) l.
Proof.
  unfold visibleChars. induction l as [|c l IH]; [by split|].
  rewrite filter_cons, Forall_cons. destruct (isWhiteSpace c) eqn:E.
  - rewrite decide_False by done. rewrite IH. naive_solver.
  - rewrite decide_True by done. naive_solver.
Qed.

Lemma tidyChars_blank l : tidyChars l → visibleChars l = [] → l = [].
Proof.
  intros [Hh _] Hv. destruct l as [|c l]; [done|].
  unfold visibleChars in Hv. rewrite filter_cons, decide_True in Hv; [done|].
  by apply Hh.
Qed.

Lemma normalizeTitle_is_tidy value : tidy (normalizeTitle value).
Proof.
  unfold tidy. rewrite normalizeTitle_chars. apply normalizeChars_tidy.
Qed.

Lemma normalizeTitle_fixed value : tidy value → normalizeTitle value = value.
Proof.
  intros Hv. unfold normalizeTitle. fold (normalizeChars (chars value)).
  by rewrite normalizeChars_id, ofChars_chars.
Qed.

Lemma normalizeTitle_visible value :
  visible (normalizeTitle value) = visible value.
Proof.
  unfold visible. rewrite normalizeTitle_chars.
  apply visibleChars_normalizeChars.
Qed.

Lemma normalizeTitle_empty value : normalizeTitle value = "" ↔ blank value.
Proof.
  unfold blank. rewrite <-visibleChars_nil.
  change (visibleChars (chars value)) with (visible value).
  rewrite <-normalizeTitle_visible. split.
  - by intros ->.
  - intros Hnil. rewrite <-(ofChars_chars (normalizeTitle value)).
    rewrite (tidyChars_blank (chars (normalizeTitle value))); [done| |done].
    apply normalizeTitle_is_tidy.
Qed.

(** What [normalizeTitle] returns neither starts nor ends with white
    space, and its white space is single spaces; the titles that
    [normalizeTitle] leaves as they are are exactly those of this form, so
    that normalizing twice is normalizing once. *)
Theorem normalizeTitle_tidy value :
  tidy (normalizeTitle value)
  ∧ (normalizeTitle value = value ↔ tidy value)
  ∧ normalizeTitle (normalizeTitle value) = normalizeTitle value.
Proof.
  pose proof (normalizeTitle_is_tidy value) as Ht.
  split_and!; [done| |by apply normalizeTitle_fixed].
  split; [by intros <-|apply normalizeTitle_fixed].
Qed.

(** [normalizeTitle] keeps the characters that are not white space, all
    of them and in their order, and returns the empty title exactly for
    the titles that are white space only. *)
Theorem normalizeTitle_keeps_visible value :
  visible (normalizeTitle value) = visible value
  ∧ (normalizeTitle value = "" ↔ blank value).
Proof.
  split; [apply normalizeTitle_visible|apply normalizeTitle_empty].
Qed.

End NormalizeTitle.

(** ** escapeCsvValue and buildCsv *)

Section Csv.
Context {N : JsNumber} (numberToString : num → string).
Import Text Reader.
Implicit Types (s raw rest : string) (c : ascii).
Implicit Types (table : option (list (list string))).

Lemma append_String c s rest : String c s +:+ rest = String c (s +:+ rest).
Proof. reflexivity. Qed.

Lemma append_empty_r s : s +:+ EmptyString = s.
Proof. induction s as [|c s IH]; [done|]. by rewrite append_String, IH. Qed.

Lemma append_assoc s1 s2 s3 : (s1 +:+ s2) +:+ s3 = s1 +:+ (s2 +:+ s3).
Proof.
  induction s1 as [|c s1 IH]; [done|]. by rewrite !append_String, IH.
Qed.

Lemma addText_Some raw field (row : list string) (rows : list (list string)) :
  addText raw (Some ((field :: row) :: rows))
  = Some (((raw +:+ field) :: row) :: rows).
Proof. induction raw as [|c raw IH]; [done|]. simpl. by rewrite IH. Qed.

(** Inside the quotes, the reader undoes the doubling of the quotes up to
    the closing quote. *)
Lemma read_quoted raw rest :
  readFrom quoted (doubleQuotes raw +:+ String quote rest)
  = addText raw (readFrom quoteSeen rest).
Proof.
  induction raw as [|c raw IH]; cbn [doubleQuotes addText].
  - change (EmptyString +:+ ?s) with s. cbn [readFrom].
    by rewrite decide_True.
  - destruct (decide (c = quote)) as [->|Hc].
    + rewrite !append_String. cbn [readFrom]. rewrite !decide_True by done.
      by rewrite IH.
    + rewrite append_String. cbn [readFrom]. rewrite decide_False by done.
      by rewrite IH.
Qed.

Lemma read_field (value : Cell) rest :
  readFrom fieldStart (escapeCsvValue numberToString value +:+ rest)
  = addText (textOf numberToString value) (readFrom quoteSeen rest).
Proof.
  unfold escapeCsvValue. cbv zeta. rewrite append_String. cbn [readFrom].
  rewrite decide_True by done.
  by rewrite append_assoc, append_String, read_quoted.
Qed.

Lemma read_row (row : list Cell) rest (rows : list (list string)) :
  row ≠ [] →
  readFrom quoteSeen rest = Some ([EmptyString] :: rows) →
  readFrom fieldStart
    (join "," (escapeCsvValue numberToString <$> row) +:+ rest)
  = Some (map (textOf numberToString) row :: rows).
Proof.
  intros Hrow Hrest. induction row as [|value row IH]; [done|].
  destruct row as [|value' row].
  - cbn [fmap list_fmap join map].
    by rewrite read_field, Hrest, addText_Some, append_empty_r.
  - clear Hrow. specialize (IH ltac:(done)).
    change (join "," (escapeCsvValue numberToString <$> value :: value' :: row))
      with (escapeCsvValue numberToString value +:+ ","
            +:+ join "," (escapeCsvValue numberToString <$> value' :: row)).
    rewrite !append_assoc, read_field.
    change ("," +:+ ?s) with (String comma s).
    cbn [readFrom]. rewrite decide_False, decide_True by done.
    rewrite IH. cbn [addField map].
    by rewrite addText_Some, append_empty_r.
Qed.

Lemma read_rows (rows : list (list Cell)) :
  rows ≠ [] → Forall (λ row, row ≠ []) rows →
  readFrom fieldStart (buildCsv numberToString rows)
  = Some (map (map (textOf numberToString)) rows).
Proof.
  intros Hne Hrows. induction Hrows as [|row rows Hrow Hrows IH]; [done|].
  clear Hne. unfold buildCsv in *. destruct rows as [|row' rows].
  - cbn [fmap list_fmap join map].
    rewrite <-(append_empty_r (join _ _)). by apply read_row.
  - specialize (IH ltac:(done)).
    set (line := λ row, join "," (escapeCsvValue numberToString <$> row)) in *.
    change (join (String lineFeed EmptyString) (line <$> row :: row' :: rows))
      with (line row +:+ String lineFeed EmptyString
            +:+ join (String lineFeed EmptyString) (line <$> row' :: rows)).
    apply read_row; [done|].
    rewrite append_String. cbn [readFrom].
    rewrite !decide_False, decide_True by done.
    change (EmptyString +:+ ?s) with s. by rewrite IH.
Qed.

Lemma buildCsv_starts (row : list Cell) (rows : list (list Cell)) :
  row ≠ [] → ∃ s, buildCsv numberToString (row :: rows) = String quote s.
Proof.
  intros Hrow. destruct row as [|value row]; [done|].
  unfold buildCsv.
  destruct rows as [|row' rows], row as [|value' row]; simpl; eauto.
Qed.

(** What [buildCsv] writes for rows none of which is empty can be read
    back: a reader of quoted fields finds the same rows with the same
    texts, whatever commas, quotes and line feeds the texts contain. *)
Theorem buildCsv_read_back (rows : list (list Cell)) :
  Forall (λ row, row ≠ []) rows →
  readCsv (buildCsv numberToString rows)
  = Some (map (map (textOf numberToString)) rows).
Proof.
  intros Hrows. destruct rows as [|row rows]; [done|].
  assert (row ≠ []) as Hrow by (by inversion Hrows).
  destruct (buildCsv_starts row rows Hrow) as (s & Hs).
  unfold readCsv. rewrite <-(read_rows (row :: rows)) by done.
  by rewrite Hs.
Qed.

End Csv.

(** ** buildExpensePayload *)

Section Payload.
Context {N : JsNumber} `{!JsNumberEq N}.
Implicit Types (params : Params).

Lemma payload_splitAmounts params sa :
  splitAmounts (engineFields (buildExpensePayload params)) = Some sa
  ↔ params_splitMode params = custom
    ∧ params_splitAmounts params = Some sa ∧ sa ≠ ∅.
Proof.
  cbn [buildExpensePayload engineFields splitAmounts].
  destruct (params_splitAmounts params) as [sa'|]; [|naive_solver].
  destruct (decide (params_splitMode params = custom)) as [Hm|Hm].
  - rewrite (bool_decide_true _ Hm), andb_true_l.
    case_bool_decide as Hs.
    + split; [intros [= <-]|naive_solver]. split_and!; [done..|].
      intros ->. rewrite map_size_empty in Hs. lia.
    + split; [done|]. intros (_ & [= <-] & Hne). destruct Hs.
      destruct (decide (size sa' = 0)) as [Hz|Hz]; [|lia].
      by apply map_size_empty_inv in Hz.
  - rewrite (bool_decide_false _ Hm), andb_false_l. naive_solver.
Qed.

(** On an expense that [buildExpensePayload] has built, the branch that
    [computeBalances] takes follows the split mode: the custom branch is
    taken exactly when the mode is custom and the amounts passed are not
    empty; amounts are stored only then; and an expense built with mode
    equal and a payer is split equally, whatever amounts were passed. *)
Theorem payload_split_follows_mode params :
  let expense := engineFields (buildExpensePayload params) in
  (hasCustomSplit expense = true
   ↔ params_splitMode params = custom
     ∧ ∃ sa, params_splitAmounts params = Some sa ∧ sa ≠ ∅)
  ∧ (∀ sa, splitAmounts expense = Some sa →
       splitMode expense = Some custom
       ∧ params_splitAmounts params = Some sa ∧ sa ≠ ∅)
  ∧ (params_splitMode params = equal → params_paidBy params ≠ "" →
     ∀ balances,
       applyExpense balances expense
       = foldl (λ acc memberId, debit memberId (share expense) acc)
           (credited balances expense) (splitMembers expense)).
Proof.
  intros expense. split_and!.
  - subst expense. rewrite hasCustomSplit_true.
    setoid_rewrite payload_splitAmounts. naive_solver.
  - intros sa (Hm & Hsa & Hne)%payload_splitAmounts.
    split_and!; [|done..]. subst expense. cbn. by rewrite Hm.
  - intros Hm Hp balances. apply applyExpense_equal; [done|].
    apply not_true_iff_false. subst expense.
    rewrite hasCustomSplit_true. setoid_rewrite payload_splitAmounts.
    intros (sa & (Hc & _) & _). congruence.
Qed.

End Payload.

(** ** buildCustomAmountsFromExpense *)

Section CustomAmounts.
Context {N : JsNumber} (toFixed2 : num → string).

(** [buildCustomAmountsFromExpense] gives every id of [memberIds], and no
    other id, an amount as text: that of the amount stored for the id in
    the expense, or of 0 when the expense stores none for it.  Amounts
    that the expense stores for other ids are left out. *)
Theorem custom_amounts_from_expense (memberIds : list string)
    (expense : Expense) (id : string) :
  buildCustomAmountsFromExpense toFixed2 memberIds expense !! id
  = if decide (id ∈ memberIds)
    then Some (formatMoney toFixed2
                 (default n_zero (default ∅ (splitAmounts expense) !! id)))
    else None.
Proof.
  unfold buildCustomAmountsFromExpense. cbv zeta.
  set (stored := default ∅ (splitAmounts expense)).
  assert (∀ (result : gmap string string),
    foldl (λ result id,
             <[id := formatMoney toFixed2 (default n_zero (stored !! id))]>
               result) result memberIds !! id
    = if decide (id ∈ memberIds)
      then Some (formatMoney toFixed2 (default n_zero (stored !! id)))
      else result !! id) as H.
  { induction memberIds as [|id0 ids IH]; intros result; [done|].
    cbn [foldl]. rewrite IH, lookup_insert.
    destruct (decide (id ∈ ids)) as [Hin|Hin].
    - rewrite decide_True; [done|]. by right.
    - destruct (decide (id0 = id)) as [->|Hne].
      + rewrite decide_True; [done|]. by left.
      + rewrite decide_False; [done|]. by intros [->|?]%elem_of_cons. }
  rewrite H. by case_decide.
Qed.

End CustomAmounts.

(** ** memberPaidById *)

Section PaidAny.
Context {N : JsNumber}.

Lemma memberPaidById_tracked (group : Group) k :
  is_Some (memberPaidById group !! k) ↔ k ∈ paidBy <$> expenses group.
Proof.
  unfold memberPaidById.
  assert (∀ es (acc : gmap string num),
    is_Some (foldl (λ acc expense,
               <[paidBy expense :=
                   n_add (orZero (acc !! paidBy expense)) (amount expense)]> acc)
               acc es !! k)
    ↔ is_Some (acc !! k) ∨ k ∈ paidBy <$> es) as H.
  { induction es as [|e es IH]; intros acc.
    - rewrite fmap_nil, elem_of_nil. naive_solver.
    - cbn [foldl]. rewrite IH, fmap_cons, elem_of_cons, lookup_insert.
      case_decide; subst; [|naive_solver]. split; eauto. }
  rewrite H, lookup_empty. rewrite <-not_eq_None_Some. naive_solver.
Qed.

Lemma memberPaidById_lookup (group : Group) k :
  memberPaidById group !! k
  = paidSum (amount <$> filter (λ expense, paidBy expense = k)
                          (expenses group)).
Proof.
  unfold memberPaidById, paidSum.
  assert (∀ es (acc : gmap string num),
    foldl (λ acc expense,
             <[paidBy expense :=
                 n_add (orZero (acc !! paidBy expense)) (amount expense)]> acc)
      acc es !! k
    = foldl (λ sum a, Some (n_add (orZero sum) a)) (acc !! k)
        (amount <$> filter (λ expense, paidBy expense = k) es)) as H.
  { induction es as [|e es IH]; intros acc; [done|].
    cbn [foldl]. rewrite IH, filter_cons, lookup_insert.
    destruct (decide (paidBy e = k)) as [<-|Hne]; [|done].
    by rewrite fmap_cons. }
  by rewrite H, lookup_empty.
Qed.

End PaidAny.

(** Whatever the numbers (binary64 or exact), [memberPaidById] has an
    entry for exactly the ids that are the payer of an expense, the empty
    id of an expense without payer included, and the entry of an id is
    what the amounts of the expenses paid by that id give when they are
    added up from the left in the order of the expenses, each step being
    [(sum || 0) + amount]: a sum that has come to 0 or to NaN counts as 0
    in the next step, and the amounts of the other payers do not enter. *)
Theorem memberPaidById_totals :
  (∀ (N : JsNumber) (group : Group) k,
     is_Some (memberPaidById group !! k) ↔ k ∈ paidBy <$> expenses group)
  ∧ (∀ (N : JsNumber) (group : Group) k,
       memberPaidById group !! k
       = paidSum (amount <$> filter (λ expense, paidBy expense = k)
                               (expenses group))).
Proof.
  split.
  - intros N. apply memberPaidById_tracked.
  - intros N. apply memberPaidById_lookup.
Qed.

(** ** buildEqualCustomAmounts *)

Section EqualAmountsAny.
Context {N : JsNumber}.
Context (toFixed2 : num → string).
Implicit Types (total share : num) (ids memberIds : list string).

(** The loop over [memberIds], from any state: the element at the last
    index gets what remains when it is reached, every other element the
    share. *)
Lemma equalAmounts_entries share (count : nat) ids :
  NoDup ids →
  ∀ st : EqualAmounts,
    (∀ i id, ids !! i = Some id →
       amounts (foldl (assignAmount toFixed2 share count) st ids) !! id
       = Some (formatMoney toFixed2
                 (if bool_decide (index st + i = count - 1)
                  then Nat.iter i (λ left, roundToCents (n_sub left share))
                         (remainingTotal st)
                  else share)))
    ∧ (∀ id, id ∉ ids →
         amounts (foldl (assignAmount toFixed2 share count) st ids) !! id
         = amounts st !! id).
Proof.
  induction 1 as [|id0 ids Hid0 Hnd IH]; intros st.
  - split; [by intros i id|done].
  - cbn [foldl].
    set (st' := assignAmount toFixed2 share count st id0).
    destruct (IH st') as [IH1 IH2]. split.
    + intros [|i] id; cbn [lookup list_lookup].
      * intros [= <-]. rewrite IH2 by done. subst st'.
        cbn [assignAmount amounts]. rewrite lookup_insert_eq.
        by rewrite Nat.add_0_r.
      * intros Hi. rewrite (IH1 i id Hi). subst st'.
        cbn [assignAmount index remainingTotal].
        replace (S (index st) + i) with (index st + S i) by lia.
        by rewrite Nat.iter_succ_r.
    + intros id [Hne Hid]%not_elem_of_cons. rewrite IH2 by done.
      subst st'. cbn [assignAmount amounts]. by rewrite lookup_insert_ne.
Qed.

(** Whatever the numbers (binary64 or exact) and whatever [toFixed]
    returns: [buildEqualCustomAmounts] gives nothing when there is no id
    or the total is at most 0; otherwise, for distinct ids, it gives every
    id but the last the text of the share, which is the total divided by
    the number of ids and rounded to cents, and the last id the text of
    what is left of the total rounded to cents when the share has been
    taken from it once for every other id, the difference being rounded to
    cents each time; and it has no other key. *)
Theorem equal_custom_amounts_entries :
  (∀ memberIds total,
     memberIds = [] ∨ n_leb total n_zero = true →
     buildEqualCustomAmounts toFixed2 memberIds total = ∅)
  ∧ (∀ memberIds lastId total,
       NoDup (memberIds ++ [lastId]) → n_leb total n_zero = false →
       let n := S (length memberIds) in
       let share := roundToCents (n_div total (n_of_length n)) in
       let result :=
         buildEqualCustomAmounts toFixed2 (memberIds ++ [lastId]) total in
       (∀ id, id ∈ memberIds →
          result !! id = Some (formatMoney toFixed2 share))
       ∧ result !! lastId
         = Some (formatMoney toFixed2
                   (Nat.iter (length memberIds)
                      (λ left, roundToCents (n_sub left share))
                      (roundToCents total)))
       ∧ (∀ id, id ∉ memberIds ++ [lastId] → result !! id = None)).
Proof.
  split.
  - intros memberIds total [->|Hle]; unfold buildEqualCustomAmounts;
      [done|]. rewrite Hle. by rewrite orb_true_r.
  - intros memberIds lastId total Hnd Hpos n share result.
    assert (length (memberIds ++ [lastId]) = n) as Hlen
      by (rewrite length_app; simpl; lia).
    assert (result
            = amounts (foldl (assignAmount toFixed2 share n)
                {| amounts := ∅; remainingTotal := roundToCents total;
                   index := 0 |} (memberIds ++ [lastId]))) as ->.
    { subst result. unfold buildEqualCustomAmounts. rewrite Hlen, Hpos.
      by rewrite bool_decide_false by (subst n; lia). }
    destruct (equalAmounts_entries share n _ Hnd
                {| amounts := ∅; remainingTotal := roundToCents total;
                   index := 0 |}) as [H1 H2].
    cbn [index remainingTotal amounts] in H1, H2.
    split_and!.
    + intros id (i & Hi)%list_elem_of_lookup_1.
      rewrite (H1 i id) by (by apply lookup_app_l_Some).
      rewrite bool_decide_false; [done|].
      apply lookup_lt_Some in Hi. subst n. lia.
    + rewrite (H1 (length memberIds) lastId)
        by (by rewrite lookup_app_r, Nat.sub_diag).
      rewrite bool_decide_true; [done|]. subst n. lia.
    + intros id Hid. by rewrite H2, lookup_empty.
Qed.

End EqualAmountsAny.

(** ** The settlements of a group *)

Section GroupSettlements.
Context {N : JsNumber}.
Implicit Types (group : Group) (expense : Expense) (k : string).

(** A member with a balance other than 0 is named by an expense. *)
Lemma nonzero_referenced `{!JsNumberLaws N} group row :
  row ∈ computeBalances group →
  n_ltb (balance row) n_zero = true ∨ n_ltb n_zero (balance row) = true →
  member row ∈ members group
  ∧ ∃ expense, expense ∈ expenses group
      ∧ references (member_id (member row)) expense.
Proof.
  intros (m & Hm & ->)%elem_of_computeBalances Hnz. cbn [member balance] in *.
  split; [done|].
  destruct (decide (Exists (references (member_id m)) (expenses group)))
    as [H|H]; [by apply Exists_exists in H|].
  exfalso. rewrite <-Forall_Exists_neg, Forall_forall in H.
  unfold finalBalances in Hnz.
  rewrite applyExpenses_unreferenced, initialBalances_lookup in Hnz by done.
  rewrite decide_True in Hnz by (by apply list_elem_of_fmap_2).
  cbn [orZero] in Hnz. rewrite truthy_zero in Hnz.
  destruct Hnz as [Hnz|Hnz]; by eapply (lt_zero_asym n_zero).
Qed.

(** The settlements computed from the balances of a group, as the app
    computes them, are between members of the group, and both members of
    a settlement are named by an expense of the group (as payer, in
    [splitBetween] or in [splitAmounts]). *)
Theorem settlements_within_group `{!JsNumberLaws N} group fuel result :
  computeSettlements fuel (computeBalances group) = Some result →
  ∀ s, s ∈ result →
    from s ∈ members group ∧ to s ∈ members group
    ∧ (∃ expense, expense ∈ expenses group
         ∧ references (member_id (from s)) expense)
    ∧ (∃ expense, expense ∈ expenses group
         ∧ references (member_id (to s)) expense).
Proof.
  intros Hres s Hs.
  pose proof (computeSettlements_wellFormed _ _ _ Hres) as Hwf.
  rewrite Forall_forall in Hwf. destruct (Hwf s Hs) as (_ & Hfrom & Hto).
  apply elem_of_debtors in Hfrom as (row1 & Hr1 & <- & Hneg).
  apply elem_of_creditors in Hto as (row2 & Hr2 & <- & Hpos).
  destruct (nonzero_referenced group row1 Hr1) as [? ?]; [by left|].
  destruct (nonzero_referenced group row2 Hr2) as [? ?]; [by right|].
  done.
Qed.

End GroupSettlements.

(** ** The expense form *)

Lemma SFeqb_finite_refl s m e :
  SFeqb (S754_finite s m e) (S754_finite s m e) = true.
Proof.
  unfold SFeqb, SFcompare. rewrite Z.compare_refl, Pos.compare_refl.
  by destruct s.
Qed.

Global Instance binary64_form_laws : JsNumberFormLaws binary64.
Proof.
  split.
  - intros x. change (n_ltb n_zero x) with (0 <? x)%float.
    change (n_isNaN x) with (is_nan x). unfold is_nan.
    rewrite FloatAxioms.ltb_spec, FloatAxioms.eqb_spec.
    change (Prim2SF 0) with (S754_zero false).
    destruct (Prim2SF x) as [s|s| |s m e]; try discriminate.
    + by destruct s.
    + intros _. by rewrite SFeqb_finite_refl.
  - intros x. change (n_ltb n_zero x) with (0 <? x)%float.
    change (n_leb x n_zero) with (x <=? 0)%float.
    rewrite FloatAxioms.ltb_spec, FloatAxioms.leb_spec.
    change (Prim2SF 0) with (S754_zero false).
    destruct (Prim2SF x) as [s|s| |s m e]; try discriminate.
    all: by destruct s.
  - intros x. change (n_ltb n_zero x) with (0 <? x)%float.
    change (n_truthy x) with (F64.truthy x). unfold F64.truthy, is_nan.
    rewrite FloatAxioms.ltb_spec, !FloatAxioms.eqb_spec.
    change (Prim2SF 0) with (S754_zero false).
    destruct (Prim2SF x) as [s|s| |s m e]; try discriminate.
    + by destruct s.
    + intros _. rewrite SFeqb_finite_refl. by destruct s.
  - reflexivity.
Qed.

Global Instance exact_form_laws : JsNumberFormLaws exact.
Proof.
  split.
  - done.
  - intros x Hx%ltb_exact. apply not_true_iff_false. intros Hle%leb_exact.
    exact (Qclt_not_le _ _ Hx Hle).
  - intros x Hx%ltb_exact. simpl. rewrite bool_decide_false; [done|].
    intros ->. exact (Qclt_not_le _ _ Hx (Qcle_refl _)).
  - reflexivity.
Qed.

Section ExpenseFormFacts.
Context {N : JsNumber} `{!JsNumberEq N} `{!JsNumberNaN N}.
Context (toNumber : string → num).
Implicit Types (form : ExpenseForm) (texts : gmap string string).

Lemma typedSplitAmounts_lookup (fallbackSplit : list string) texts
    memberId value :
  typedSplitAmounts toNumber fallbackSplit texts !! memberId = Some value →
  memberId ∈ fallbackSplit
  ∧ n_ltb n_zero value = true
  ∧ value = roundToCents (typedAmount toNumber texts memberId).
Proof.
  unfold typedSplitAmounts.
  assert (∀ acc : gmap string num,
    foldl (λ acc memberId,
             let value := roundToCents (typedAmount toNumber texts memberId) in
             if n_ltb n_zero value then <[memberId := value]> acc else acc)
      acc fallbackSplit !! memberId = Some value →
    acc !! memberId = Some value
    ∨ (memberId ∈ fallbackSplit
       ∧ n_ltb n_zero value = true
       ∧ value = roundToCents (typedAmount toNumber texts memberId))) as H.
  { induction fallbackSplit as [|id0 ids IH]; intros acc; [by left|].
    cbn [foldl]. intros [Hacc|(Hin & Hpos & Hv)]%IH.
    - cbv zeta in Hacc.
      destruct (n_ltb n_zero (roundToCents (typedAmount toNumber texts id0)))
        eqn:E; [|by left].
      rewrite lookup_insert in Hacc. case_decide; [|by left].
      subst id0. injection Hacc as <-. right. split_and!; [by left|done..].
    - right. split_and!; [by right|done..]. }
  intros [Hempty|?]%H; [|done]. by rewrite lookup_empty in Hempty.
Qed.

Lemma trimmed_not_blank (s : string) :
  Form.trimmed s ≠ "" → ¬ blank (Form.trimmed s).
Proof.
  unfold Form.trimmed, blank. intros Hne Hblank.
  rewrite chars_ofChars in Hblank.
  destruct (trim_tidy (Text.chars s)) as [Hstart _].
  destruct (Text.trim (Text.chars s)) as [|c l] eqn:E; [done|].
  apply Forall_cons in Hblank as [Hc _].
  rewrite (Hstart c eq_refl) in Hc. done.
Qed.

(** The amount and the split amounts of the expense that is built. *)
Lemma built_fields form id createdAt nextPaidBy nextSplitBetween
    nextSplitMode texts stored :
  builtExpense toNumber form id createdAt nextPaidBy nextSplitBetween
    nextSplitMode texts = Some stored →
  expenseBaseAmount toNumber form = amount (engineFields stored)
  ∧ default ∅ (splitAmounts (engineFields stored))
    = match nextSplitMode with
      | custom =>
          typedSplitAmounts toNumber
            (if bool_decide (0 < length nextSplitBetween)
             then nextSplitBetween else [nextPaidBy]) texts
      | equal => ∅
      end.
Proof.
  unfold builtExpense, expenseBaseAmount, fxRateNumber, expenseAmountNumber.
  cbv zeta.
  destruct (bool_decide (Form.trimmed (expenseTitle form) = "")
            || n_isNaN _ || n_leb _ n_zero); [done|].
  destruct (negb (Form.isDateText _)); [done|].
  destruct (negb (n_truthy _) || n_leb _ n_zero); [done|].
  intros [= <-]. cbn [buildExpensePayload engineFields amount splitAmounts
    params_amount params_splitAmounts params_splitMode].
  split; [done|]. destruct nextSplitMode; [done|].
  rewrite bool_decide_true by done. cbn [andb].
  case_bool_decide as Hs; [done|]. cbn [default].
  symmetry. apply map_size_empty_inv. lia.
Qed.

(** Every expense that [addExpense] or [saveExpenseEdits] builds has a
    title that is not empty and is normalized, the id, the payer and the
    split mode that were passed, and a [splitBetween] that is not empty:
    the one passed, unless that is empty, and then the payer alone; it has
    split amounts only in custom mode, and each of them is stored for an
    id of [splitBetween], is above 0 and is the amount typed for the id,
    rounded to cents. *)
Theorem built_expense_sound form id createdAt nextPaidBy nextSplitBetween
    nextSplitMode texts stored :
  builtExpense toNumber form id createdAt nextPaidBy nextSplitBetween
    nextSplitMode texts = Some stored →
  let expense := engineFields stored in
  title expense ≠ "" ∧ tidy (title expense)
  ∧ expense_id expense = id ∧ paidBy expense = nextPaidBy
  ∧ splitMode expense = Some nextSplitMode
  ∧ splitBetween expense ≠ []
  ∧ (nextSplitBetween ≠ [] → splitBetween expense = nextSplitBetween)
  ∧ (nextSplitBetween = [] → splitBetween expense = [nextPaidBy])
  ∧ (∀ sa memberId value,
       splitAmounts expense = Some sa → sa !! memberId = Some value →
       nextSplitMode = custom
       ∧ memberId ∈ splitBetween expense
       ∧ n_ltb n_zero value = true
       ∧ value = roundToCents (typedAmount toNumber texts memberId)).
Proof.
  unfold builtExpense. cbv zeta.
  destruct (bool_decide (Form.trimmed (expenseTitle form) = "")) eqn:Ht;
    [done|]. apply bool_decide_eq_false in Ht. cbn [orb].
  destruct (n_isNaN _ || n_leb _ n_zero); [done|].
  destruct (negb (Form.isDateText _)); [done|].
  destruct (negb (n_truthy _) || n_leb _ n_zero); [done|].
  intros [= <-]. cbn [buildExpensePayload engineFields title expense_id paidBy
    splitMode splitBetween splitAmounts params_id params_title params_paidBy
    params_splitBetween params_splitMode params_splitAmounts].
  split_and!.
  - intros Hempty%normalizeTitle_empty.
    by apply (trimmed_not_blank (expenseTitle form)).
  - apply normalizeTitle_is_tidy.
  - done.
  - done.
  - done.
  - case_bool_decide; [|done]. by destruct nextSplitBetween; simpl in *; [lia|].
  - intros Hne. rewrite bool_decide_true; [done|].
    destruct nextSplitBetween; simpl; [done|lia].
  - by intros ->.
  - intros sa memberId value Hsa Hv. destruct nextSplitMode; [done|].
    destruct (bool_decide (custom = custom) && bool_decide (0 < size _));
      [|done].
    injection Hsa as <-.
    apply typedSplitAmounts_lookup in Hv as (Hin & Hpos & Hval). done.
Qed.

Lemma length_positive (s : string) : 0 < String.length s → s ≠ "".
Proof. intros H ->. simpl in H. lia. Qed.

Lemma fxRateValid_positive `{!JsNumberFormLaws N} form :
  fxRateValid toNumber form = true →
  n_ltb n_zero (fxRateNumber toNumber form) = true.
Proof.
  unfold fxRateValid, fxRateNumber. case_bool_decide.
  - intros _. apply one_positive.
  - cbn [orb]. by intros [? _]%andb_true_iff.
Qed.

(** When the button of the form is enabled, [addExpense] and
    [saveExpenseEdits], called with the payer and the split of the state
    as the button calls them, build an expense: none of the checks that
    they make again fails.  This holds on binary64 and in exact
    arithmetic. *)
Theorem enabled_form_builds `{!JsNumberFormLaws N} form id createdAt :
  canSubmitExpense toNumber form = true →
  ∃ stored,
    builtExpense toNumber form id createdAt (formPaidBy form)
      (formSplitBetween form) (formSplitMode form) (customSplitAmounts form)
    = Some stored.
Proof.
  unfold canSubmitExpense. rewrite !andb_true_iff.
  intros (((((Htitle%bool_decide_eq_true & Hamount) & Hdate) & Hfx) & _) & _).
  apply length_positive in Htitle.
  apply fxRateValid_positive in Hfx.
  unfold builtExpense. cbv zeta.
  rewrite (bool_decide_false _ Htitle).
  unfold expenseAmountNumber in Hamount.
  rewrite (positive_not_nan _ Hamount), (positive_not_le _ Hamount).
  cbn [orb]. unfold spentOnValid in Hdate. rewrite Hdate. cbn [negb].
  unfold fxRateNumber in Hfx.
  rewrite (positive_truthy _ Hfx), (positive_not_le _ Hfx). cbn [negb orb].
  eauto.
Qed.


(** Whatever the numbers and whatever [Number] returns: when the button
    of the form is enabled in custom mode, the expense that is built has
    the split of the state, its split amounts are the amounts typed for
    the ids of that split, each rounded to cents and kept if above 0, and
    the check that let it through was made on its amount: the sum of the
    amounts typed, added up from the left as they were typed and then
    rounded to cents, is at most 0.01 away, in the arithmetic of the
    code, from the amount of the expense rounded to cents. *)
Theorem submitted_custom_split_checked `{!JsNumberFormLaws N} form id
    createdAt :
  canSubmitExpense toNumber form = true →
  formSplitMode form = custom →
  ∃ stored,
    builtExpense toNumber form id createdAt (formPaidBy form)
      (formSplitBetween form) (formSplitMode form) (customSplitAmounts form)
    = Some stored
    ∧ splitBetween (engineFields stored) = formSplitBetween form
    ∧ formSplitBetween form ≠ []
    ∧ default ∅ (splitAmounts (engineFields stored))
      = typedSplitAmounts toNumber (formSplitBetween form)
          (customSplitAmounts form)
    ∧ n_leb (n_abs (n_sub (roundToCents (typedTotal toNumber form))
                          (roundToCents (amount (engineFields stored)))))
        n_cent = true.
Proof.
  intros Hcan Hmode.
  assert (∃ stored,
    builtExpense toNumber form id createdAt (formPaidBy form)
      (formSplitBetween form) (formSplitMode form) (customSplitAmounts form)
    = Some stored) as [stored Hbuilt].
  { revert Hcan. unfold canSubmitExpense. rewrite !andb_true_iff.
    intros (((((Htitle%bool_decide_eq_true & Hamount) & Hdate) & Hfx) & _)
            & _).
    apply length_positive in Htitle.
    apply fxRateValid_positive in Hfx.
    unfold builtExpense. cbv zeta.
    rewrite (bool_decide_false _ Htitle).
    unfold expenseAmountNumber in Hamount.
    rewrite (positive_not_nan _ Hamount), (positive_not_le _ Hamount).
    cbn [orb]. unfold spentOnValid in Hdate. rewrite Hdate. cbn [negb].
    unfold fxRateNumber in Hfx.
    rewrite (positive_truthy _ Hfx), (positive_not_le _ Hfx). cbn [negb orb].
    eauto. }
  exists stored. split; [done|].
  destruct (built_fields _ _ _ _ _ _ _ _ Hbuilt) as [Hamount Hsa].
  unfold canSubmitExpense in Hcan. rewrite !andb_true_iff in Hcan.
  destruct Hcan as (_ & Hsplit). rewrite Hmode in Hsplit.
  cbn [bool_decide orb] in Hsplit.
  rewrite bool_decide_false in Hsplit by done. cbn [orb] in Hsplit.
  apply andb_true_iff in Hsplit as [Hlen%bool_decide_eq_true Hmatch].
  unfold customTotalMatches in Hmatch. rewrite !andb_true_iff in Hmatch.
  destruct Hmatch as (_ & Hmatch). rewrite Hamount in Hmatch.
  rewrite Hmode in Hsa. rewrite bool_decide_true in Hsa by done.
  split_and!; [|by destruct (formSplitBetween form); simpl in *; [lia|]
              |done|done].
  revert Hbuilt. unfold builtExpense. cbv zeta.
  destruct (_ || _ || _); [done|]. destruct (negb _); [done|].
  destruct (_ || _); [done|]. intros [= <-].
  cbn [buildExpensePayload engineFields splitBetween params_splitBetween].
  by rewrite bool_decide_true.
Qed.

End ExpenseFormFacts.

(** ** The expenses that a balance depends on *)

Section NamedExpenses.
Context {N : JsNumber}.
Implicit Types (balances : gmap string num) (expense : Expense) (k : string).

Lemma agreeOn_value k balances balances' :
  agreeOn k balances balances' → valueOf balances k = valueOf balances' k.
Proof. unfold agreeOn, valueOf. by intros ->. Qed.

Lemma applyExpense_agreeOn k balances balances' expense :
  agreeOn k balances balances' →
  agreeOn k (applyExpense balances expense) (applyExpense balances' expense).
Proof.
  intros H. unfold agreeOn.
  rewrite (lookup_as_value (applyExpense balances expense)).
  rewrite (lookup_as_value (applyExpense balances' expense)).
  rewrite (applyExpense_value_ext _ balances' _ _ (agreeOn_value _ _ _ H)).
  assert (is_Some (applyExpense balances expense !! k)
          ↔ is_Some (applyExpense balances' expense !! k)) as Hs
    by (rewrite !applyExpense_tracked; unfold agreeOn in H; by rewrite H).
  destruct (decide (is_Some (applyExpense balances expense !! k))),
    (decide (is_Some (applyExpense balances' expense !! k))); naive_solver.
Qed.

Lemma applyExpenses_named k (es : list Expense) balances balances' :
  agreeOn k balances balances' →
  agreeOn k (foldl applyExpense balances es)
    (foldl applyExpense balances' (filter (references k) es)).
Proof.
  revert balances balances'.
  induction es as [|e es IH]; intros balances balances' H; [done|].
  rewrite filter_cons. cbn [foldl]. case_decide as He.
  - cbn [foldl]. by apply IH, applyExpense_agreeOn.
  - apply IH. unfold agreeOn. by rewrite applyExpense_unreferenced.
Qed.

(** The row of a member is the row that the member has in the group with
    only those expenses that name the member, as payer, in [splitBetween]
    or in [splitAmounts]: the other expenses, whatever their number and
    their amounts, leave no trace in it, on binary64 as in exact
    arithmetic. *)
Theorem balance_depends_on_named_expenses (group : Group) row :
  row ∈ computeBalances group →
  row ∈ computeBalances (namedExpenses (member_id (member row)) group).
Proof.
  intros (m & Hm & ->)%elem_of_computeBalances. cbn [member].
  apply elem_of_computeBalances. exists m. split; [done|]. f_equal.
  unfold finalBalances. cbn [namedExpenses members expenses].
  f_equal. by apply applyExpenses_named.
Qed.

End NamedExpenses.

(** ** exportGroupCsv *)

Section ExportFacts.
Context {N : JsNumber}.
Context (numberToString toFixed2 : num → string).
Import Text FileName.

Lemma replaceMarks_plain (l : list ascii) :
  backslash ∉ l → replaceMarks false l = l.
Proof.
  induction l as [|c l IH]; [done|]. intros [Hc Hl]%not_elem_of_cons.
  cbn [replaceMarks andb]. rewrite (bool_decide_false (c = backslash)) by done.
  cbn [andb]. by rewrite IH.
Qed.

(** No blank of the name of the group becomes a dash in the name of the
    file: the pattern of the replacement is a backslash followed by the
    letter s, so that a name without backslash is only put in small
    letters. *)
Theorem export_file_name_keeps_blanks (name : string) :
  backslash ∉ chars name →
  exportFileName name
  = ofChars (toLowerCase (chars name)) +:+ "-expenses.csv".
Proof.
  intros H. unfold exportFileName. by rewrite replaceMarks_plain.
Qed.

(** The text that [exportGroupCsv] hands to [downloadCsv] can be read
    back, whatever the titles and the names contain: a reader of quoted
    fields finds the header and then a row for each expense of the group,
    in their order, with the texts that were written, each of ten
    fields. *)
Theorem export_reads_back (group : SavedGroup) :
  ∃ file csv,
    exportGroupCsv numberToString toFixed2 (Some group) = Some (file, csv)
    ∧ Reader.readCsv csv
      = Some (map (textOf numberToString) exportHeader
              :: ((λ expense,
                     map (textOf numberToString)
                       (exportRow toFixed2 group
                          (memberNamesOf (saved_members group)) expense))
                  <$> saved_expenses group))
    ∧ Forall (λ row, length row = 10%nat) (exportRows toFixed2 group).
Proof.
  eexists _, _. split; [reflexivity|]. split.
  - unfold Reader.readCsv.
    destruct (buildCsv_starts numberToString exportHeader
                (exportRow toFixed2 group (memberNamesOf (saved_members group))
                   <$> saved_expenses group)) as (s & Hs); [done|].
    unfold exportRows. rewrite Hs, <-Hs. rewrite read_rows.
    + cbn [map]. f_equal. f_equal. by rewrite <-list_fmap_compose.
    + done.
    + apply Forall_cons_2; [done|]. apply Forall_fmap, Forall_true.
      by intros expense.
  - apply Forall_cons_2; [done|]. apply Forall_fmap, Forall_true.
    by intros expense.
Qed.

End ExportFacts.

(** * The engine on the sample data *)

(** ** computeBalances on the sample data *)

Section BalancesRuns.
Import Sample.
#[local] Existing Instance binary64.

(** Carol is named by no expense of this group. *)
Lemma computeBalances_shape_witness :
  member <$> computeBalances (trip [alice; bob; carol] [dinner])
    = [alice; bob; carol]
  ∧ orZero (finalBalances (trip [alice; bob; carol] [dinner]) !! "c")
    = 0%float.
Proof.
  destruct (computeBalances_shape (trip [alice; bob; carol] [dinner]))
    as [H1 H2].
  split; [exact H1|].
  apply (H2 {| member := carol;
               balance := orZero (finalBalances
                            (trip [alice; bob; carol] [dinner]) !! "c") |}).
  - apply elem_of_computeBalances. exists carol. split; [|done].
    simpl. set_solver.
  - intros expense ->%list_elem_of_singleton [H|[H|(sa & H & _)]];
      simpl in *; [done|set_solver|done].
Defined.

Lemma custom_split_rule_witness :
  applyExpense (initialBalances [alice; bob; carol]) taxi !! "c"
    = Some (-30)%float
  ∧ applyExpense (initialBalances [alice; bob; carol]) taxi !! "a"
    = Some 0%float.
Proof.
  destruct (custom_split_rule taxi) as [_ H].
  assert ({[ "c" := 30%float ]} ≠ (∅ : gmap string float)) as Hne
    by apply insert_non_empty.
  split.
  - destruct (H {[ "c" := 30%float ]} (initialBalances [alice; bob; carol])
                ltac:(done) eq_refl Hne "c") as [-> _].
    reflexivity.
  - destruct (H {[ "c" := 30%float ]} (initialBalances [alice; bob; carol])
                ltac:(done) eq_refl Hne "a") as [_ H2].
    etrans; [by apply H2|done].
Defined.

(** [dinner], 90 paid by Alice for Alice and Bob, on binary64. *)
Lemma equal_split_rule_witness :
  share dinner = 45%float
  ∧ valueOf (applyExpense (initialBalances [alice; bob]) dinner) "b"
    = (-45)%float
  ∧ valueOf (applyExpense (initialBalances [alice; bob]) dinner) "a"
    = 45%float.
Proof.
  destruct equal_split_rule as (H & _ & _).
  destruct (H binary64 dinner (initialBalances [alice; bob])
              ltac:(done) (or_introl eq_refl)) as (H1 & H2 & _).
  split_and!.
  - rewrite H1. reflexivity.
  - rewrite H2. reflexivity.
  - rewrite H2. reflexivity.
Defined.

(** C4, the claim as stated fails: [museum] records no split mode and
    [brunch] has split mode [equal], and both take the custom branch:
    [brunch] puts all 40 on Alice and nothing on Bob. *)
Lemma custom_branch_without_custom_mode :
  splitMode museum = None
  ∧ hasCustomSplit museum = true
  ∧ splitMode brunch = Some equal
  ∧ hasCustomSplit brunch = true
  ∧ computeBalances (trip [alice; bob] [brunch])
    = [row alice (-40); row bob 40].
Proof. split_and!; reflexivity. Qed.

(** C3, the claim as stated fails: [hotel] has split mode [equal] and
    three ids in [splitBetween], so each should be debited 90 / 3 = 30; the
    code debits Carol 90 and nobody else.  And [anonymous], with split mode
    [equal] and no payer, is skipped: nobody is debited. *)
Lemma equal_mode_not_split_equally :
  splitMode hotel = Some equal
  ∧ splitSet_spec hotel = ["a"; "b"; "c"]
  ∧ n_div (amount hotel) (n_of_length 3) = 30%float
  ∧ computeBalances (trip [alice; bob; carol] [hotel])
    = [row alice 90; row bob 0; row carol (-90)]
  ∧ splitMode anonymous = Some equal
  ∧ computeBalances (trip [alice; bob] [anonymous])
    = [row alice 0; row bob 0].
Proof. split_and!; reflexivity. Qed.

(** C1, the claim as stated fails: the rows of a group whose expense was
    paid by a non-member sum to -30; the balances of all tracked ids sum to
    20 after a custom split that puts 10 of 30 on the others; and on
    binary64 the rows of [fortune], an equal split among members, sum to
    more than 1e-6, in either order of summation.  With Alice listed twice
    among the members, her balance is counted twice. *)
Lemma balances_not_zero_sum :
  computeBalances (trip [alice] [gift]) = [row alice (-30)]
  ∧ sumList (balance <$> computeBalances (trip [alice] [gift])) = (-30)%float
  ∧ n_leb (n_abs (-30)%float) 1e-6%float = false
  ∧ totalBalance (finalBalances (trip [alice; bob] [tip])) = 20%float
  ∧ n_leb (n_abs 20%float) 1e-6%float = false
  ∧ sumList (balance <$> computeBalances (trip [alice; bob; carol] [fortune]))
    = 0x1p-17%float
  ∧ foldl n_add n_zero
      (balance <$> computeBalances (trip [alice; bob; carol] [fortune]))
    = 0x1p-17%float
  ∧ n_leb (n_abs 0x1p-17%float) 1e-6%float = false
  ∧ computeBalances (trip [alice; alice; bob] [dinner])
    = [row alice 45; row alice 45; row bob (-45)].
Proof. split_and!; reflexivity. Qed.

(** The unknown payer "x" of [gift] is tracked and is in no row; the
    unknown id "y", which only the [splitBetween] of the custom split
    [ferry] names, is not tracked. *)
Lemma unknown_ids_tracked_not_listed_witness :
  is_Some (finalBalances (trip [alice] [gift]) !! "x")
  ∧ (∀ row, row ∈ computeBalances (trip [alice] [gift]) →
       member_id (member row) ≠ "x")
  ∧ finalBalances (trip [alice; bob] [ferry]) !! "y" = None.
Proof.
  destruct (unknown_ids_tracked_not_listed (trip [alice] [gift]))
    as (_ & _ & H3 & _ & H5 & _).
  destruct (unknown_ids_tracked_not_listed (trip [alice; bob] [ferry]))
    as (_ & _ & _ & _ & _ & _ & H7).
  split_and!.
  - apply (H3 gift "x"); [simpl; set_solver|].
    split; [done|]. by left.
  - apply H5. simpl. set_solver.
  - apply H7; [simpl; set_solver|].
    intros expense ->%list_elem_of_singleton. right.
    split_and!; [reflexivity|done|].
    intros sa [= <-]. reflexivity.
Defined.

(** C5, the claim as stated fails: the unknown payer "x" of [solo] ends
    with balance 0, and the unknown id "y" in the [splitBetween] of the
    custom split [ferry] is never tracked. *)
Lemma unknown_id_with_zero_balance :
  ("x" ∉ member_id <$> members (trip [alice] [solo]))
  ∧ paidBy solo = "x"
  ∧ finalBalances (trip [alice] [solo]) !! "x" = Some 0%float
  ∧ "y" ∈ splitBetween ferry
  ∧ finalBalances (trip [alice; bob] [ferry]) !! "y" = None.
Proof.
  split_and!; [simpl; set_solver|reflexivity|reflexivity|simpl; set_solver|
               reflexivity].
Qed.

End BalancesRuns.

(** ** computeBalances on the exact sample data *)

Section ExactBalancesRuns.
Import SampleExact.
#[local] Existing Instance exact.

Lemma balances_zero_sum_witness :
  totalBalance (finalBalances (trip [Sample.alice; Sample.bob] [dinner]))
    = 0%Qc
  ∧ sumList (balance
             <$> computeBalances (trip [Sample.alice; Sample.bob] [dinner]))
    = 0%Qc.
Proof.
  destruct (balances_zero_sum (trip [Sample.alice; Sample.bob] [dinner]))
    as [H1 H2].
  { intros expense sa ->%list_elem_of_singleton _ Hsa. done. }
  split; [exact H1|]. apply H2.
  - simpl. apply NoDup_cons. split; [set_solver|]. apply NoDup_singleton.
  - intros expense k ->%list_elem_of_singleton (_ & [<-|[[_ Hk]|Hk]]).
    + simpl. set_solver.
    + exact Hk.
    + by destruct Hk as (sa & Hsa & _).
Defined.

End ExactBalancesRuns.

(** ** computeSettlements on the sample data *)

Section SettlementsRuns.
Import Sample.
#[local] Existing Instance binary64.

(** The first scenario of the specification. *)
Example scenario_trip :
  computeBalances (trip [alice; bob; carol]
    [taxi; {| expense_id := "e0"; title := "Cabin"; amount := 90%float;
              paidBy := "a"; splitBetween := ["a"; "b"; "c"];
              splitMode := Some equal; splitAmounts := None |}])
  = [row alice 60; row bob 0; row carol (-60)]
  ∧ computeSettlements 2 [row alice 60; row bob 0; row carol (-60)]
    = Some [settlement carol alice 60].
Proof. split; reflexivity. Qed.

(** The second scenario of the specification. *)
Example scenario_greedy :
  computeSettlements 2 [row alice (-10); row bob (-5); row carol 15]
  = Some [settlement alice carol 10; settlement bob carol 5].
Proof. reflexivity. Qed.

Lemma no_self_settlement_witness :
  NoDup (member <$> [row alice 60; row bob 0; row carol (-60)])
  ∧ computeSettlements 2 [row alice 60; row bob 0; row carol (-60)]
    = Some [settlement carol alice 60]
  ∧ from (settlement carol alice 60) ≠ to (settlement carol alice 60).
Proof.
  assert (NoDup (member <$> [row alice 60; row bob 0; row carol (-60)]))
    as Hnd by (by apply (bool_decide_unpack _)).
  split_and!; [done|reflexivity|].
  apply (no_self_settlement 2 [row alice 60; row bob 0; row carol (-60)]
           [settlement carol alice 60] Hnd eq_refl).
  apply list_elem_of_singleton. reflexivity.
Defined.



(** Two balances that round to 0 cents: nothing is settled. *)
Lemma settlement_output_contract_witness :
  roundToCents 0.004%float = 0%float
  ∧ roundToCents (n_abs (-0.004)%float) = 0%float
  ∧ computeSettlements
      (debtorCount [row alice 0.004; row bob (-0.004)]
       + creditorCount [row alice 0.004; row bob (-0.004)])
      [row alice 0.004; row bob (-0.004)]
    = Some []
  ∧ ∀ fuel result,
      computeSettlements fuel [row alice 0.004; row bob (-0.004)]
      = Some result →
      result = [].
Proof.
  split; [reflexivity|]. split; [reflexivity|].
  destruct settlement_output_contract as (_ & H & _).
  apply (H binary64 _ _ [row alice 0.004; row bob (-0.004)]).
  intros r [->|[->|[]%elem_of_nil]%elem_of_cons]%elem_of_cons;
    split; intros Hb; first [reflexivity|discriminate Hb].
Defined.

Lemma settlement_amounts_rounded_witness :
  computeSettlements 2 [row alice 60; row bob 0; row carol (-60)]
  = Some [settlement carol alice 60]
  ∧ n_ltb n_zero (settled (settlement carol alice 60)) = true
  ∧ ∃ x, settled (settlement carol alice 60) = roundToCents x.
Proof.
  split; [reflexivity|].
  apply (settlement_amounts_rounded 2
           [row alice 60; row bob 0; row carol (-60)]
           [settlement carol alice 60] eq_refl).
  apply list_elem_of_singleton. reflexivity.
Defined.

Lemma settlement_pairs_distinct_witness :
  NoDup (member_id ∘ member
         <$> [row alice (-10); row bob (-5); row carol 15])
  ∧ computeSettlements 2 [row alice (-10); row bob (-5); row carol 15]
    = Some [settlement alice carol 10; settlement bob carol 5]
  ∧ NoDup (pairOf <$> [settlement alice carol 10; settlement bob carol 5]).
Proof.
  assert (NoDup (member_id ∘ member
                 <$> [row alice (-10); row bob (-5); row carol 15])) as Hnd
    by (by apply (bool_decide_unpack _)).
  split_and!; [done|reflexivity|].
  exact (settlement_pairs_distinct 2
           [row alice (-10); row bob (-5); row carol 15] _ Hnd eq_refl).
Defined.

(** C6, the claim as stated fails: both balances are within 0.01 of 0 and
    a settlement of 0.01 is returned. *)
Lemma settlement_within_a_cent :
  n_leb (n_abs 0.01%float) n_cent = true
  ∧ n_leb (n_abs (-0.01)%float) n_cent = true
  ∧ computeSettlements 1 [row alice 0.01; row bob (-0.01)]
    = Some [settlement bob alice 0.01].
Proof. split_and!; reflexivity. Qed.

(** C7, the claim as stated fails: with no creditor and no debtor the
    bound is -1, and the number of settlements is 0. *)
Lemma settlement_count_of_nothing :
  computeSettlements 0 [] = Some []
  ∧ (Z.of_nat (length ([] : list Settlement))
     <=? Z.of_nat (creditorCount []) + Z.of_nat (debtorCount []) - 1)%Z
    = false.
Proof. split; reflexivity. Qed.

Lemma stuck_forever fuel : while fuel stuck = None.
Proof.
  assert (iteration stuck = Some stuck) as H by reflexivity.
  induction fuel as [|fuel IH]; cbn [while]; by rewrite H.
Qed.

(** C9, the code fails the claim: the balances of [windfall] are 1e307 and
    -1e307; rounded to cents both amounts are infinite, the first payment
    leaves NaN on both sides, no cursor ever moves, and the loop does not
    end. *)
Theorem settlement_loop_diverges fuel :
  computeBalances (trip [alice; bob] [windfall])
  = [row alice 1e307; row bob (-1e307)]
  ∧ iteration (start (computeBalances (trip [alice; bob] [windfall])))
    = Some stuck
  ∧ iteration stuck = Some stuck
  ∧ computeSettlements fuel (computeBalances (trip [alice; bob] [windfall]))
    = None.
Proof.
  split_and!; [reflexivity..|].
  unfold computeSettlements.
  assert (iteration (start (computeBalances (trip [alice; bob] [windfall])))
          = Some stuck) as H by reflexivity.
  destruct fuel as [|fuel]; cbn [while]; rewrite H; [done|].
  by rewrite stuck_forever.
Qed.

End SettlementsRuns.

(** ** The settlements of a group, on the sample data *)

Section GroupSettlementsRuns.
Import Sample.
#[local] Existing Instance binary64.

Lemma settlements_within_group_witness :
  computeSettlements 2
    (computeBalances (trip [alice; bob; carol] [taxi; dinner]))
  = Some [settlement bob alice 15; settlement carol alice 30]
  ∧ from (settlement carol alice 30) ∈ [alice; bob; carol]
  ∧ to (settlement carol alice 30) ∈ [alice; bob; carol]
  ∧ (∃ expense, expense ∈ [taxi; dinner] ∧ references "c" expense)
  ∧ (∃ expense, expense ∈ [taxi; dinner] ∧ references "a" expense).
Proof.
  assert (computeSettlements 2
            (computeBalances (trip [alice; bob; carol] [taxi; dinner]))
          = Some [settlement bob alice 15; settlement carol alice 30]) as Hrun
    by reflexivity.
  split; [exact Hrun|].
  apply (settlements_within_group
           (trip [alice; bob; carol] [taxi; dinner]) 2 _ Hrun
           (settlement carol alice 30)).
  apply elem_of_cons. right. apply list_elem_of_singleton. reflexivity.
Defined.

End GroupSettlementsRuns.

(** ** The helpers on the sample data *)

Section HelpersRuns.
Import SampleExact SampleHelpers.
#[local] Existing Instance exact.
Local Open Scope Qc_scope.

Lemma buildCsv_read_back_witness :
  Reader.readCsv (buildCsv (λ _, "") table)
  = Some (map (map (textOf (λ _, ""))) table).
Proof.
  apply buildCsv_read_back. unfold table.
  repeat (apply Forall_cons_2; [done|]). apply Forall_nil_2.
Defined.

(** 100 among three: 33.33, 33.33 and 33.34. *)
Lemma equal_custom_amounts_entries_witness :
  buildEqualCustomAmounts twoDecimals (["a"; "b"] ++ ["c"]) (Exact.of_Z 100)
  = {[ "a" := "33.33"; "b" := "33.33"; "c" := "33.34" ]}
  ∧ (∀ id, id ∈ ["a"; "b"] →
       buildEqualCustomAmounts twoDecimals (["a"; "b"] ++ ["c"])
         (Exact.of_Z 100) !! id
       = Some (formatMoney twoDecimals
                 (roundToCents (n_div (Exact.of_Z 100) (n_of_length 3)))))
  ∧ buildEqualCustomAmounts twoDecimals (["a"; "b"] ++ ["c"])
      (Exact.of_Z 100) !! "c"
    = Some (formatMoney twoDecimals
              (Nat.iter 2
                 (λ left,
                    roundToCents
                      (n_sub left
                         (roundToCents
                            (n_div (Exact.of_Z 100) (n_of_length 3)))))
                 (roundToCents (Exact.of_Z 100))))
  ∧ (∀ id, id ∉ ["a"; "b"] ++ ["c"] →
       buildEqualCustomAmounts twoDecimals (["a"; "b"] ++ ["c"])
         (Exact.of_Z 100) !! id
       = None).
Proof.
  split; [by vm_compute|].
  destruct (@equal_custom_amounts_entries exact twoDecimals) as [_ H].
  apply (H ["a"; "b"] "c" (Exact.of_Z 100)).
  - by apply (bool_decide_unpack _).
  - reflexivity.
Defined.

End HelpersRuns.

(** ** The expense form on the sample data *)

Section FormRuns.
Import SampleForm.
#[local] Existing Instance exact.
Local Open Scope Qc_scope.

Lemma built_expense_sound_witness :
  ∃ stored,
    builtExpense decimal lunch "e1" "2024-05-17T12:00:00.000Z" "a"
      [] custom (customSplitAmounts lunch) = Some stored
    ∧ title (engineFields stored) ≠ ""
    ∧ tidy (title (engineFields stored))
    ∧ expense_id (engineFields stored) = "e1"
    ∧ paidBy (engineFields stored) = "a"
    ∧ splitMode (engineFields stored) = Some custom
    ∧ splitBetween (engineFields stored) ≠ []
    ∧ ([] ≠ ([] : list string) → splitBetween (engineFields stored) = [])
    ∧ ([] = ([] : list string) → splitBetween (engineFields stored) = ["a"])
    ∧ (∀ sa memberId value,
         splitAmounts (engineFields stored) = Some sa →
         sa !! memberId = Some value →
         custom = custom
         ∧ memberId ∈ splitBetween (engineFields stored)
         ∧ n_ltb n_zero value = true
         ∧ value = roundToCents
                     (typedAmount decimal (customSplitAmounts lunch) memberId)).
Proof.
  eexists. split; [reflexivity|].
  apply (built_expense_sound decimal lunch "e1" "2024-05-17T12:00:00.000Z"
           "a" [] custom (customSplitAmounts lunch)).
  reflexivity.
Defined.

Lemma enabled_form_builds_witness :
  ∃ stored,
    builtExpense decimal lunch "e1" "2024-05-17T12:00:00.000Z"
      (formPaidBy lunch) (formSplitBetween lunch) (formSplitMode lunch)
      (customSplitAmounts lunch)
    = Some stored.
Proof.
  apply (enabled_form_builds decimal lunch). reflexivity.
Defined.


(** The form [lunch]: 10 typed as the amount, 5.00 and 4.99 as the custom
    amounts; the button is enabled. *)
Lemma submitted_custom_split_checked_witness :
  canSubmitExpense decimal lunch = true
  ∧ ∃ stored,
      builtExpense decimal lunch "e1" "2024-05-17T12:00:00.000Z"
        (formPaidBy lunch) (formSplitBetween lunch) (formSplitMode lunch)
        (customSplitAmounts lunch)
      = Some stored
      ∧ splitBetween (engineFields stored) = formSplitBetween lunch
      ∧ formSplitBetween lunch ≠ []
      ∧ default ∅ (splitAmounts (engineFields stored))
        = typedSplitAmounts decimal (formSplitBetween lunch)
            (customSplitAmounts lunch)
      ∧ n_leb (n_abs (n_sub (roundToCents (typedTotal decimal lunch))
                            (roundToCents (amount (engineFields stored)))))
          n_cent = true.
Proof.
  split; [reflexivity|].
  apply (submitted_custom_split_checked decimal lunch "e1"
           "2024-05-17T12:00:00.000Z"); reflexivity.
Defined.

End FormRuns.

(** ** The totals and the export on the sample data *)

Section TotalsRuns.
Import SampleExact SampleHelpers.
#[local] Existing Instance exact.
Local Open Scope Qc_scope.

Lemma balance_depends_on_named_expenses_witness :
  row Sample.carol (-30)
    ∈ computeBalances
        (trip [Sample.alice; Sample.bob; Sample.carol] [dinner; taxi])
  ∧ row Sample.carol (-30)
    ∈ computeBalances
        (namedExpenses "c"
           (trip [Sample.alice; Sample.bob; Sample.carol] [dinner; taxi])).
Proof.
  assert (row Sample.carol (-30)
            ∈ computeBalances
                (trip [Sample.alice; Sample.bob; Sample.carol] [dinner; taxi]))
    as Hrow.
  { apply elem_of_computeBalances. exists Sample.carol. split.
    - cbn [trip members]. do 2 (apply elem_of_cons; right).
      apply elem_of_cons. by left.
    - unfold row. f_equal; try (apply Qc_is_canon; reflexivity). }
  split; [exact Hrow|].
  exact (balance_depends_on_named_expenses _ _ Hrow).
Defined.

End TotalsRuns.

Section ExportRuns.
Import SampleExport.
#[local] Existing Instance exact.

(** The file of the sample group. *)
Example road_trip_export :
  exportGroupCsv (λ _, "") SampleHelpers.twoDecimals (Some roadTrip)
  = Some ("road trip-expenses.csv",
          Text.join (String Text.lineFeed "")
            [ Text.join ","
                ((λ s, String Text.quote (s +:+ String Text.quote ""))
                   <$> ["Group"; "Date"; "Title"; "Amount"; "Base Currency";
                        "Original Amount"; "Original Currency"; "Paid By";
                        "Split Between"; "Split Mode"]);
              Text.join ","
                ((λ s, String Text.quote (s +:+ String Text.quote ""))
                   <$> ["Road Trip"; "2024-05-17T12:00:00.000Z";
                        "Fish, " +:+ String Text.quote
                          (String Text.quote
                             ("chips" +:+ String Text.quote
                                (String Text.quote "")));
                        "90.00"; "EUR"; "90.00"; "EUR"; "Alice";
                        "Alice | Bob"; "equal"]);
              Text.join ","
                ((λ s, String Text.quote (s +:+ String Text.quote ""))
                   <$> ["Road Trip"; "2024-05-18"; "Taxi"; "30.00"; "EUR";
                        "33.00"; "USD"; ""; "Bob | z"; "custom"]) ]).
Proof. vm_compute. reflexivity. Qed.

Lemma export_file_name_keeps_blanks_witness :
  (FileName.backslash ∉ Text.chars "Road Trip")
  ∧ exportFileName "Road Trip" = "road trip-expenses.csv".
Proof.
  assert (FileName.backslash ∉ Text.chars "Road Trip") as H.
  { apply (bool_decide_unpack _). vm_compute. exact I. }
  split; [exact H|].
  exact (export_file_name_keeps_blanks "Road Trip" H).
Defined.

End ExportRuns.
